(** * geemap/timelapse.py: a shallow embedding and its checked properties

    The module is glue around three collaborators: the Earth Engine query
    API, the PIL imaging library and command-line encoders.  The embedding
    keeps the control flow of the Python functions and takes the calls into
    the collaborators as parameters of the sections below. *)

From Stdlib Require Import ZArith Ascii Floats Lia.
From stdpp Require Import gmap strings list sorting pretty.

Open Scope Z_scope.

(** ** Python values and builtins *)

Module Py.

(** [str(n)] of a Python int. *)
Definition str (n : Z) : string := pretty n.

Definition len (s : string) : Z := Z.of_nat (String.length s).

Fixpoint zeros (n : nat) : string :=
  match n with
  | O => ""
  | S k => String "0"%char (zeros k)
  end.

(** [s.zfill(width)]: pad with ASCII zeros on the left, after a sign. *)
Definition zfill (width : Z) (s : string) : string :=
  if width <=? len s then s
  else
    let fill := zeros (Z.to_nat (width - len s)) in
    match s with
    | String c rest =>
        if bool_decide (c = "+"%char ∨ c = "-"%char)
        then String c (fill +:+ rest)
        else fill +:+ s
    | EmptyString => fill
    end.

(** The [w]-digit decimal rendering of [n], most significant digit first,
    in front of [acc]: what a zero-padded sequence number looks like. *)
Fixpoint fixed_go (w : nat) (n : N) (acc : string) : string :=
  match w with
  | O => acc
  | S k => fixed_go k (n `div` 10)%N (String (pretty_N_char (n `mod` 10)%N) acc)
  end.

(** [range(n)] and [range(a, b)]. *)
Definition range2 (a b : Z) : list Z := (λ k : nat, a + Z.of_nat k) <$> seq 0 (Z.to_nat (b - a)).
Definition range (n : Z) : list Z := range2 0 n.

(** [list.sort()] on strings: ascending by code point. *)
Definition sort (l : list string) : list string := merge_sort String.le l.

Definition startswith (p s : string) : bool :=
  bool_decide (String.substring 0 (String.length p) s = p).

Definition endswith (p s : string) : bool :=
  bool_decide
    (String.substring (String.length s - String.length p) (String.length p) s = p
     ∧ (String.length p <= String.length s)%nat).

(** [os.path.join(a, b)] on a POSIX system. *)
Definition path_join (a b : string) : string :=
  if startswith "/" b then b
  else if bool_decide (a = "") || endswith "/" a then a +:+ b
  else a +:+ "/" +:+ b.

(** An exception object: an instance of [Exception] or of a subclass, with
    the class name and [str(e)].  [BaseException]s that are not
    [Exception]s (interrupts, exits) are outside the model. *)
Inductive Exn := MkExn (cls msg : string).

Definition exn_str (e : Exn) : string := match e with MkExn _ m => m end.

(** The dynamically typed arguments the functions inspect.  [VObj] is any
    other object (a float, a dict, ...): it has no length, is not iterable
    and prints as [repr]. *)
#[warnings="-register-all"]
Inductive val :=
| VNone
| VBool (b : bool)
| VInt (n : Z)
| VStr (s : string)
| VTuple (items : list val)
| VList (items : list val)
| VObj (repr : string).

Definition is_none (v : val) : bool := match v with VNone => true | _ => false end.
(** [isinstance(v, int)]: [bool] is a subclass of [int]. *)
Definition is_int (v : val) : bool :=
  match v with VInt _ | VBool _ => true | _ => false end.
Definition is_str (v : val) : bool := match v with VStr _ => true | _ => false end.
Definition is_tuple (v : val) : bool := match v with VTuple _ => true | _ => false end.
Definition is_list (v : val) : bool := match v with VList _ => true | _ => false end.

Definition int_of (v : val) : Z :=
  match v with VInt n => n | VBool b => Z.b2z b | _ => 0 end.

Fixpoint chars (s : string) : list val :=
  match s with
  | EmptyString => []
  | String c r => VStr (String c "") :: chars r
  end.

(** [len(v)]; [None] stands for the [TypeError] of an object without length. *)
Definition len_of (v : val) : option Z :=
  match v with
  | VStr s => Some (len s)
  | VTuple l | VList l => Some (Z.of_nat (length l))
  | _ => None
  end.

(** The items iterating over [v] yields; [None] for [TypeError]. *)
Definition items_of (v : val) : option (list val) :=
  match v with
  | VStr s => Some (chars s)
  | VTuple l | VList l => Some l
  | _ => None
  end.

(** ["%" in s] and [s.replace("%", "")]. *)
Fixpoint contains_char (c : ascii) (s : string) : bool :=
  match s with
  | EmptyString => false
  | String d r => bool_decide (c = d) || contains_char c r
  end.

Fixpoint remove_char (c : ascii) (s : string) : string :=
  match s with
  | EmptyString => ""
  | String d r => if bool_decide (c = d) then remove_char c r else String d (remove_char c r)
  end.

(** [s.replace(old, new)] for a non-empty [old]: the non-overlapping
    occurrences, left to right. *)
Fixpoint replace_go (old new : string) (skip : nat) (s : string) : string :=
  match s with
  | EmptyString => ""
  | String c r =>
      match skip with
      | S k => replace_go old new k r
      | O =>
          if startswith old s
          then new +:+ replace_go old new (String.length old - 1) r
          else String c (replace_go old new 0 r)
      end
  end.

Definition replace (old new s : string) : string := replace_go old new 0 s.

(** [sep.join(l)]. *)
Fixpoint join (sep : string) (l : list string) : string :=
  match l with
  | [] => ""
  | [x] => x
  | x :: r => x +:+ sep +:+ join sep r
  end.

(** *** Floats: IEEE-754 binary64, as CPython's [float] *)

(** [float(n)] of an int, rounded to nearest even.  CPython raises
    [OverflowError] where this yields an infinity. *)
Definition float_of_int (n : Z) : float :=
  SF2Prim (binary_normalize prec emax n 0 false).

(** [int(f)]: truncation toward zero; [None] for the [ValueError] of a NaN
    and the [OverflowError] of an infinity. *)
Definition int_of_float (f : float) : option Z :=
  match Prim2SF f with
  | S754_zero _ => Some 0
  | S754_finite s m e =>
      let a := match e with
               | Z0 => Z.pos m
               | Z.pos p => Z.pos m * 2 ^ Z.pos p
               | Z.neg p => Z.pos m / 2 ^ Z.pos p
               end in
      Some (if s then - a else a)
  | S754_infinity _ | S754_nan => None
  end.

(** *** The values of doubles

    A positive normal double with mantissa [m] and exponent [e] stands for
    [m * 2^e].  Values are handled as integers, in units of [2^-1074]:
    [scaled m e] is [m * 2^e * 2^1074]. *)

Definition canonical (m : positive) (e : Z) : Prop :=
  2 ^ 52 <= Z.pos m < 2 ^ 53 ∧ -1074 <= e <= 971.

Definition scaled (m : positive) (e : Z) : Z := Z.pos m * 2 ^ (e + 1074).

(** The number one, in units of [2^-1074]. *)
Definition unit_scale : Z := 2 ^ 1074.

Definition representable (v : Z) : Prop := ∃ m e, canonical m e ∧ v = scaled m e.

Definition represents (f : spec_float) (v : Z) : Prop :=
  ∃ m e, f = S754_finite false m e ∧ canonical m e ∧ v = scaled m e.

(** [x] is the positive normal double of value [v / 2^1074]. *)
Definition float_value (x : float) (v : Z) : Prop := represents (Prim2SF x) v.

(** The outcome of an operation whose exact value is [A / D] (in units of
    [2^-1074]): a double on the right side of every double, and within one
    part in [2^52] of the exact value. *)
Definition rounds_to (f : spec_float) (A D : Z) : Prop :=
  ∃ r, represents f r
    ∧ (∀ t, representable t → t * D <= A → t <= r)
    ∧ (∀ t, representable t → A <= t * D → r <= t)
    ∧ 2 ^ 52 * Z.abs (r * D - A) <= A.

(** Whether bits were lost in a right shift. *)
Definition inexact (mrs : shr_record) : bool := shr_r mrs || shr_s mrs.

(** *** Control flow of a function body

    A statement runs in a world [W] and either falls through with a value,
    executes [return] (the functions modelled here return [None]), or
    raises. *)
Inductive step (A : Type) :=
| Next (a : A)
| Return
| Raise (e : Exn).
Arguments Next {A} a.
Arguments Return {A}.
Arguments Raise {A} e.

Definition M (W A : Type) : Type := W → step A * W.

Definition ret {W A} (a : A) : M W A := λ w, (Next a, w).
Definition bind {W A B} (m : M W A) (k : A → M W B) : M W B :=
  λ w, match m w with
       | (Next a, w') => k a w'
       | (Return, w') => (Return, w')
       | (Raise e, w') => (Raise e, w')
       end.
Definition return_ {W A} : M W A := λ w, (Return, w).
Definition raise {W A} (e : Exn) : M W A := λ w, (Raise e, w).

(** [try: body except Exception as e: handler(e)]. *)
Definition try_except {W A} (body : M W A) (handler : Exn → M W A) : M W A :=
  λ w, match body w with
       | (Raise e, w') => handler e w'
       | r => r
       end.

(** A library call that either yields a value or raises, leaving the world. *)
Definition lift {W A} (r : Exn + A) : M W A :=
  match r with inl e => raise e | inr a => ret a end.

Definition when {W} (b : bool) (m : M W unit) : M W unit :=
  if b then m else ret tt.

Fixpoint for_each {W A B} (f : nat → A → M W B) (i : nat) (l : list A) : M W (list B) :=
  match l with
  | [] => ret []
  | x :: r => bind (f i x) (λ y, bind (for_each f (S i) r) (λ ys, ret (y :: ys)))
  end.

Module Import Notations.
  Notation "x <- m ;; k" := (bind m (λ x, k))
    (at level 100, m at next level, right associativity).
  Notation "m ;;; k" := (bind m (λ _, k))
    (at level 100, right associativity).
End Notations.

End Py.

(** ** Frame file names of [create_timelapse] and frame order of [make_gif] *)

Module Frames.

(** Lines 1067-1072: the thumbnail file names. *)
Definition names (out_dir basename : string) (count : Z) : list string :=
  (λ i, Py.path_join out_dir
          (basename +:+ "_" +:+ Py.zfill (Py.len (Py.str count)) (Py.str (i + 1)) +:+ ".jpg"))
    <$> Py.range count.

End Frames.

(** ** The host: files, console, and the libraries the module calls *)

Module Host.
Import Py.

(** A decoded image file as PIL presents it: [frames] is what
    [ImageSequence.Iterator] yields, [iter_error] an exception it raises
    after them in place of stopping. *)
Record Image (Frame : Type) := mkImage {
  size : Z * Z;
  n_frames : Z;
  frames : list Frame;
  iter_error : option Exn;
}.
Arguments mkImage {Frame}.
Arguments size {Frame}.
Arguments n_frames {Frame}.
Arguments frames {Frame}.
Arguments iter_error {Frame}.

Inductive File (Frame : Type) :=
| Dir
| Img (im : Image Frame)
| Blob.
Arguments Dir {Frame}.
Arguments Img {Frame}.
Arguments Blob {Frame}.

(** [[(x0, y0), (x1, y1)]]: the progress bar's right edge is a float. *)
Record Shape := mkShape { x0 : Z; y0 : Z; x1 : float; y1 : Z }.

(** The calls into the drawing library and the shell, in program order. *)
Inductive Call :=
| CText (xy : val) (text : string)
| CRect (shape : Shape)
| CPaste (xy : val)
| CSave (path : string) (n : nat)
| CSystem (cmd : string).

Record World (Frame : Type) := mkWorld {
  fs : gmap string (File Frame);
  stdout : list string;
  cwd : string;
  calls : list Call;
}.
Arguments mkWorld {Frame}.
Arguments fs {Frame}.
Arguments stdout {Frame}.
Arguments cwd {Frame}.
Arguments calls {Frame}.

(** What the module takes from its collaborators: the operating system,
    the Python runtime, PIL, and the helpers of [geemap.common] it imports
    with [from .common import *]. *)
Class Platform (Frame Font Color : Type) := {
  (* os, os.path, glob, shutil, tempfile *)
  canon : string → string → string;
  abspath : string → string → string;
  dirname : string → string;
  basename : string → string;
  splitext_ext : string → string;
  makedirs : string → gmap string (File Frame) → Exn + gmap string (File Frame);
  remove : string → gmap string (File Frame) → Exn + gmap string (File Frame);
  rmtree : string → gmap string (File Frame) → Exn + gmap string (File Frame);
  glob : string → string → gmap string (File Frame) → list string;
  gettempdir : string;
  os_system : string → string → gmap string (File Frame) → gmap string (File Frame);
  (* builtins *)
  py_float : string → option float;
  py_int : string → option Z;
  container_repr : val → string;
  (* PIL *)
  truetype : string → Z → Exn + Font;
  convert : string → Frame → Exn + Frame;
  image_draw : Frame → Exn + unit;
  draw_text : Frame → val → string → Font → Color → Exn + Frame;
  draw_rectangle : Frame → Shape → Color → Exn + Frame;
  gif_roundtrip : Frame → Exn + Frame;
  encode_gif : list Frame → val → val → bool → Exn + Image Frame;
  thumbnail : Frame → Z * Z → Exn + Frame;
  new_mask : Z * Z → Exn + Frame;
  image_convert : string → Image Frame → Exn + Frame;
  paste : Frame → Frame → val → option Frame → Exn + Frame;
  (* geemap.common and the package layout *)
  pkg_dir : string;
  check_color : val → Exn + Color;
  system_fonts : Exn + list string;
  check_dir : string → gmap string (File Frame) → Exn + string * gmap string (File Frame);
  is_tool : string → bool;
  open_image_from_url : string → Exn + Image Frame;
  has_transparency : Image Frame → Exn + bool;
  temp_file_path : string → string;
  download_from_url : string → string → gmap string (File Frame) → Exn + gmap string (File Frame);
}.

Section prims.
Context {Frame Font Color : Type} {platform : Platform Frame Font Color}.

Local Abbreviation world := (World Frame).

Definition with_fs (f : gmap string (File Frame)) (w : world) : world :=
  mkWorld f (stdout w) (cwd w) (calls w).
Definition with_cwd (d : string) (w : world) : world :=
  mkWorld (fs w) (stdout w) d (calls w).

Definition print (s : string) : M world unit :=
  λ w, (Next tt, mkWorld (fs w) (stdout w ++ [s]) (cwd w) (calls w)).

Definition log (c : Call) : M world unit :=
  λ w, (Next tt, mkWorld (fs w) (stdout w) (cwd w) (calls w ++ [c])).

Definition lookup_path (p : string) (w : world) : option (File Frame) :=
  fs w !! canon (cwd w) p.

Definition os_path_abspath (p : string) : M world string :=
  λ w, (Next (abspath (cwd w) p), w).

Definition os_path_exists (p : string) : M world bool :=
  λ w, (Next (bool_decide (is_Some (lookup_path p w))), w).

Definition os_path_isdir (p : string) : M world bool :=
  λ w, (Next (match lookup_path p w with Some Dir => true | _ => false end), w).

(** A library call that rewrites the file system or raises. *)
Definition on_fs (f : gmap string (File Frame) → Exn + gmap string (File Frame)) : M world unit :=
  λ w, match f (fs w) with
       | inl e => (Raise e, w)
       | inr f' => (Next tt, with_fs f' w)
       end.

Definition os_makedirs (d : string) : M world unit := on_fs (makedirs d).

(** [os.system(cmd)]: the exit status is discarded by every caller. *)
Definition os_system_ (cmd : string) : M world unit :=
  λ w, (Next tt,
        mkWorld (os_system cmd (cwd w) (fs w)) (stdout w) (cwd w) (calls w ++ [CSystem cmd])).

(** [Image.open(path)]. *)
Definition Image_open (p : string) : M world (Image Frame) :=
  λ w, match lookup_path p w with
       | Some (Img im) => (Next im, w)
       | Some Dir => (Raise (MkExn "IsADirectoryError" p), w)
       | Some Blob => (Raise (MkExn "UnidentifiedImageError" p), w)
       | None => (Raise (MkExn "FileNotFoundError" p), w)
       end.

(** [im.save(path, save_all=True, append_images=..., ...)] with the frames
    to be written.  A failed save leaves no file behind where it created
    one and a truncated file where one was there before. *)
Definition save_gif (p : string) (fr : list Frame) (duration loop : val) (optimize : bool)
  : M world unit :=
  λ w,
    let w1 := mkWorld (fs w) (stdout w) (cwd w) (calls w ++ [CSave p (length fr)]) in
    let k := canon (cwd w) p in
    match encode_gif fr duration loop optimize with
    | inr im => (Next tt, with_fs (<[k := Img im]> (fs w1)) w1)
    | inl e =>
        (Raise e,
         match fs w1 !! k with
         | Some _ => with_fs (<[k := Blob]> (fs w1)) w1
         | None => w1
         end)
    end.

(** [frames[0].save(path, save_all=True, append_images=frames[1:], ...)]. *)
Definition save_frames (p : string) (fr : list Frame) (duration loop : val) (optimize : bool)
  : M world unit :=
  match fr with
  | [] => raise (MkExn "IndexError" "list index out of range")
  | _ :: _ => save_gif p fr duration loop optimize
  end.

Definition os_getcwd : M world string := λ w, (Next (cwd w), w).

(** [os.chdir(d)]. *)
Definition os_chdir (d : string) : M world unit :=
  λ w, match lookup_path d w with
       | Some Dir => (Next tt, with_cwd d w)
       | Some _ => (Raise (MkExn "NotADirectoryError" d), w)
       | None => (Raise (MkExn "FileNotFoundError" d), w)
       end.

(** [str(x)] of a value. *)
Definition str_of (v : val) : string :=
  match v with
  | VNone => "None"
  | VBool true => "True"
  | VBool false => "False"
  | VInt n => str n
  | VStr s => s
  | VObj r => r
  | VTuple _ | VList _ => container_repr v
  end.

(** [l[i]] with a non-negative index. *)
Definition index {A} (l : list A) (i : nat) : M world A :=
  match l !! i with
  | Some x => ret x
  | None => raise (MkExn "IndexError" "list index out of range")
  end.

(** The outcome of calling a function whose body is [m]: the exception
    that escapes, if any, and the world it leaves. *)
Definition call (m : M world unit) (w : world) : option Exn * world :=
  match m w with
  | (Raise e, w') => (Some e, w')
  | (_, w') => (None, w')
  end.
(** *** Observations on a run *)

(** The world after [print(s)]. *)
Definition prints (s : string) (w : world) : world :=
  mkWorld (fs w) (stdout w ++ [s]) (cwd w) (calls w).

(** A statement that makes no call into the drawing library or the shell. *)
Definition silent {A} (m : M world A) : Prop :=
  ∀ w r w', m w = (r, w') → calls w' = calls w.

(** Every call a statement adds to the log satisfies [P]. *)
Definition traces {A} (P : Call → Prop) (m : M world A) : Prop :=
  ∀ w r w', m w = (r, w') → ∃ new, calls w' = calls w ++ new ∧ Forall P new.

(** The first call a statement logs. *)
Definition starts_with {A} (c : Call) (m : M world A) : Prop :=
  ∀ w r w', m w = (r, w') → ∃ more, calls w' = calls w ++ c :: more.

(** A statement that never executes [return]. *)
Definition no_return {A} (m : M world A) : Prop := ∀ w w', m w ≠ (Return, w').

Definition drew_text (w w' : world) : Prop :=
  ∃ new xy t, calls w' = calls w ++ new ∧ CText xy t ∈ new.
Definition pasted (w w' : world) : Prop :=
  ∃ new xy, calls w' = calls w ++ new ∧ CPaste xy ∈ new.
Definition wrote (w w' : world) : Prop :=
  ∃ new p n, calls w' = calls w ++ new ∧ CSave p n ∈ new.
End prims.

Definition any_call (c : Call) : Prop := True.

(** The rectangles among the calls, in the order they were drawn. *)
Definition rectangles (cs : list Call) : list Shape :=
  omap (λ c, match c with CRect s => Some s | _ => None end) cs.

(** The only text drawn is at [xy], and nothing is pasted or run. *)
Definition text_at (xy : val) (c : Call) : Prop :=
  match c with
  | CText xy' _ => xy' = xy
  | CRect _ | CSave _ _ => True
  | CPaste _ | CSystem _ => False
  end.

End Host.

(** ** [add_text_to_gif] and [add_image_to_gif] *)

Module Gif.
Import Py Py.Notations Host.

Record TextArgs := mkTextArgs {
  in_gif : string;
  out_gif : string;
  xy : val;
  text_sequence : val;
  font_type : string;
  font_size : Z;
  font_color : val;
  add_progress_bar : bool;
  progress_bar_color : val;
  progress_bar_height : Z;
  duration : val;
  loop : val;
}.

(** What lines 419-467 leave in scope for the rest of the function. *)
Record Env (Frame Font Color : Type) := mkEnv {
  env_out_gif : string;
  font : Font;
  color : Color;
  bar_color : Color;
  image : Image Frame;
  count : Z;
  width : Z;
  height : Z;
  progress_bar_shapes : list Shape;
}.
Arguments mkEnv {Frame Font Color}.
Arguments env_out_gif {Frame Font Color}.
Arguments font {Frame Font Color}.
Arguments color {Frame Font Color}.
Arguments bar_color {Frame Font Color}.
Arguments image {Frame Font Color}.
Arguments count {Frame Font Color}.
Arguments width {Frame Font Color}.
Arguments height {Frame Font Color}.
Arguments progress_bar_shapes {Frame Font Color}.

(** Lines 464-467 (and 5144-5147 of [add_progress_bar_to_gif]):
    [[i * 1.0 / count * W for i in range(1, count + 1)]] and the
    rectangles built from it. *)
Definition bar_width (count W i : Z) : float :=
  (float_of_int i * 1 / float_of_int count * float_of_int W)%float.

Definition progress_bar_widths (count W : Z) : list float :=
  bar_width count W <$> range2 1 (count + 1).

(** The right edge of the bar of frame [i] in the words of the
    specification, [i*W/count]: one division of two ints. *)
Definition spec_bar_width (count W i : Z) : float :=
  (float_of_int (i * W) / float_of_int count)%float.

Definition bar_shapes (count W H progress_bar_height : Z) : list Shape :=
  (λ x, mkShape 0 (H - progress_bar_height) x H) <$> progress_bar_widths count W.

Definition msg_no_gif : string := "The input gif file does not exist.".
Definition msg_no_font : string :=
  "The specified font type could not be found on your system. Using the default font instead.".
Definition msg_open_failed : string := "An error occurred while opening the gif.".
Definition msg_not_tuple : string := "xy must be a tuple, e.g., (10, 10), ('10%', '10%')".
Definition msg_out_of_bounds (W H : Z) : string :=
  "xy is out of bounds. x must be within [0, " +:+ str W +:+ "], and y must be within [0, "
    +:+ str H +:+ "]".
Definition msg_invalid_percent : string :=
  "The specified xy is invalid. It must be formatted like this ('10%', '10%')".
Definition msg_invalid_xy : string :=
  "The specified xy is invalid. It must be formatted like this: (10, 10) or ('10%', '10%')".
Definition msg_text_length (count : Z) : string :=
  "The length of the text sequence must be equal to the number (" +:+ str count
    +:+ ") of frames in the gif.".

(** [0.05], the double CPython reads the literal as. *)
Definition five_percent : float := 0x1.999999999999ap-5%float.

Section gif.
Context {Frame Font Color : Type} {platform : Platform Frame Font Color}.

Local Abbreviation world := (World Frame).

(** Lines 432-450: the font. *)
Definition load_font (a : TextArgs) : M world Font :=
  let default_font := path_join pkg_dir "data/fonts/arial.ttf" in
  if bool_decide (font_type a = "arial.ttf") then
    lift (truetype default_font (font_size a))
  else if bool_decide (font_type a = "alibaba.otf") then
    let default_font := path_join pkg_dir "data/fonts/alibaba.otf" in
    lift (truetype default_font (font_size a))
  else
    try_except
      (font_list <- lift system_fonts ;;
       let font_names := basename <$> font_list in
       if bool_decide (font_type a ∈ font_list) || bool_decide (font_type a ∈ font_names) then
         lift (truetype (font_type a) (font_size a))
       else
         (print msg_no_font ;;;
          lift (truetype default_font (font_size a))))
      (λ e,
         print (exn_str e) ;;;
         lift (truetype default_font (font_size a))).

(** Lines 419-467: paths, font, colours, opening the gif, and the
    progress-bar rectangles. *)
Definition prelude (a : TextArgs) : M world (Env Frame Font Color) :=
  in_gif <- os_path_abspath (in_gif a) ;;
  out_gif <- os_path_abspath (out_gif a) ;;
  found <- os_path_exists in_gif ;;
  when (negb found) (print msg_no_gif ;;; return_) ;;;
  has_dir <- os_path_exists (dirname out_gif) ;;
  when (negb has_dir) (os_makedirs (dirname out_gif)) ;;;
  font <- load_font a ;;
  color <- lift (check_color (font_color a)) ;;
  progress_bar_color <- lift (check_color (progress_bar_color a)) ;;
  image <- try_except (Image_open in_gif)
             (λ e, print msg_open_failed ;;; print (exn_str e) ;;; return_) ;;
  let count := n_frames image in
  let '(W, H) := size image in
  ret (mkEnv out_gif font color progress_bar_color image count W H
         (bar_shapes count W H (progress_bar_height a))).

(** [int(float(s.replace("%", "")) / 100.0 * W)]. *)
Definition percent_to_pixels (s : string) (W : Z) : Exn + Z :=
  match py_float (remove_char "%" s) with
  | None => inl (MkExn "ValueError" "could not convert string to float")
  | Some f =>
      match int_of_float (f / 100 * float_of_int W)%float with
      | None => inl (MkExn "OverflowError" "cannot convert float to integer")
      | Some n => inr n
      end
  end.

(** [int(0.05 * W)]. *)
Definition default_px (W : Z) : Exn + Z :=
  match int_of_float (five_percent * float_of_int W)%float with
  | None => inl (MkExn "OverflowError" "cannot convert float to integer")
  | Some n => inr n
  end.

(** [len(xy) == 2]. *)
Definition len_is_2 (xy : val) : M world bool :=
  match len_of xy with
  | None => raise (MkExn "TypeError" "object has no len()")
  | Some n => ret (n =? 2)
  end.

(** [all(isinstance(item, T) for item in xy) and (len(xy) == 2)]. *)
Definition all_items_and_len_2 (is_T : val → bool) (xy : val) : M world bool :=
  match items_of xy with
  | None => raise (MkExn "TypeError" "object is not iterable")
  | Some items => if forallb is_T items then len_is_2 xy else ret false
  end.

(** Lines 469-499: the value of [xy] the frames are drawn with. *)
Definition resolve_xy (W H : Z) (xy : val) : M world val :=
  if is_none xy then
    x <- lift (default_px W) ;;
    y <- lift (default_px H) ;;
    ret (VTuple [VInt x; VInt y])
  else
    not_tuple_pair <- (if negb (is_tuple xy) then len_is_2 xy else ret false) ;;
    if not_tuple_pair : bool then
      print msg_not_tuple ;;; return_
    else
      int_pair <- all_items_and_len_2 is_int xy ;;
      if int_pair : bool then
        match items_of xy with
        | Some [vx; vy] =>
            let x := int_of vx in
            let y := int_of vy in
            if (0 <? x) && (x <? W) && (0 <? y) && (y <? H) then ret xy
            else print (msg_out_of_bounds W H) ;;; return_
        | _ => raise (MkExn "ValueError" "wrong number of values to unpack")
        end
      else
        str_pair <- all_items_and_len_2 is_str xy ;;
        if str_pair : bool then
          match items_of xy with
          | Some [VStr x; VStr y] =>
              if contains_char "%" x && contains_char "%" y then
                try_except
                  (x <- lift (percent_to_pixels x W) ;;
                   y <- lift (percent_to_pixels y H) ;;
                   ret (VTuple [VInt x; VInt y]))
                  (λ _, raise (MkExn "Exception" msg_invalid_percent))
              else ret xy
          | _ => raise (MkExn "ValueError" "wrong number of values to unpack")
          end
        else
          print msg_invalid_xy ;;; return_.

(** [[str(x) for x in range(a, b)]]. *)
Definition str_range (a b : Z) : list string := str <$> range2 a b.

(** Lines 501-517: the text of each frame. *)
Definition text_of_sequence (count : Z) (text_sequence : val) : M world (list string) :=
  if is_none text_sequence then
    ret (str_range 1 (count + 1))
  else if is_int text_sequence then
    let n := int_of text_sequence in
    ret (str_range n (n + count + 1))
  else
    match text_sequence with
    | VStr s =>
        match py_int s with
        | Some n => ret (str_range n (n + count + 1))
        | None => ret (replicate (Z.to_nat count) s)
        end
    | _ =>
        if is_list text_sequence
           && negb (bool_decide (len_of text_sequence = Some count)) then
          print (msg_text_length count) ;;; return_
        else
          match items_of text_sequence with
          | Some items => ret (str_of <$> items)
          | None => raise (MkExn "TypeError" "object is not iterable")
          end
    end.

(** Lines 522-536: one round of the loop over the frames. *)
Definition draw_frame (a : TextArgs) (env : Env Frame Font Color) (xy : val)
    (text : list string) (index : nat) (frame : Frame) : M world Frame :=
  frame <- lift (convert "RGB" frame) ;;
  lift (image_draw frame) ;;;
  t <- Host.index text index ;;
  log (CText xy t) ;;;
  frame <- lift (draw_text frame xy t (font env) (color env)) ;;
  frame <- (if add_progress_bar a then
              shape <- Host.index (progress_bar_shapes env) index ;;
              log (CRect shape) ;;;
              lift (draw_rectangle frame shape (bar_color env))
            else ret frame) ;;
  lift (gif_roundtrip frame).

(** [for index, frame in enumerate(ImageSequence.Iterator(image))]. *)
Definition for_frames {B} (im : Image Frame) (body : nat → Frame → M world B) : M world (list B) :=
  out <- for_each body 0 (frames im) ;;
  match iter_error im with
  | Some e => raise e
  | None => ret out
  end.

(** Lines 520-547: the body of the final [try]. *)
Definition render_body (a : TextArgs) (env : Env Frame Font Color) (xy : val)
    (text : list string) : M world unit :=
  frames <- for_frames (image env) (draw_frame a env xy text) ;;
  save_frames (env_out_gif env) frames (duration a) (loop a) true.

(** Lines 519-549. *)
Definition render (a : TextArgs) (env : Env Frame Font Color) (xy : val)
    (text : list string) : M world unit :=
  try_except (render_body a env xy text) (λ e, print (exn_str e)).

Definition add_text_to_gif (a : TextArgs) : M world unit :=
  env <- prelude a ;;
  xy <- resolve_xy (width env) (height env) (xy a) ;;
  text <- text_of_sequence (count env) (text_sequence a) ;;
  render a env xy text.

(** *** [add_image_to_gif] *)

Definition msg_no_logo : string := "The provided logo file does not exist.".
Definition msg_open_image_failed : string := "An error occurred while opening the image.".

(** [a / b] of two ints: true division. *)
Definition int_truediv (a b : Z) : Exn + float :=
  if b =? 0 then inl (MkExn "ZeroDivisionError" "division by zero")
  else inr (float_of_int a / float_of_int b)%float.

(** [int(a / r)] of an int and a float. *)
Definition int_div_float (a : Z) (r : float) : Exn + Z :=
  if (r =? 0)%float then inl (MkExn "ZeroDivisionError" "float division by zero")
  else match int_of_float (float_of_int a / r)%float with
       | None => inl (MkExn "OverflowError" "cannot convert float to integer")
       | Some n => inr n
       end.

(** [max(a, b)] of two floats. *)
Definition float_max (a b : float) : float := if (a <? b)%float then b else a.

(** Lines 597-630: the logo, its size on the frame and its mask. *)
Definition load_logo (in_image : string) (image_size : Z * Z) (circle_mask : bool)
  : M world (Frame * (Z * Z) * option Frame) :=
  logo_raw_image <-
    try_except
      (if startswith "http" in_image then
         im <- lift (open_image_from_url in_image) ;; ret (Some im)
       else
         in_image <- os_path_abspath in_image ;;
         im <- Image_open in_image ;; ret (Some im))
      (λ e, print (exn_str e) ;;; ret None) ;;
  match logo_raw_image with
  | None => raise (MkExn "AttributeError" "'NoneType' object has no attribute 'size'")
  | Some logo_raw_image =>
      let logo_raw_size := size logo_raw_image in
      r0 <- lift (int_truediv logo_raw_size.1 image_size.1) ;;
      r1 <- lift (int_truediv logo_raw_size.2 image_size.2) ;;
      let ratio := float_max r0 r1 in
      w <- lift (int_div_float logo_raw_size.1 ratio) ;;
      h <- lift (int_div_float logo_raw_size.2 ratio) ;;
      let image_resize := (w, h) in
      let image_size := (logo_raw_size.1 `min` image_size.1, logo_raw_size.2 `min` image_size.2) in
      logo_image <- lift (image_convert "RGBA" logo_raw_image) ;;
      logo_image <- lift (thumbnail logo_image image_size) ;;
      mask_im <- (if circle_mask then m <- lift (new_mask image_size) ;; ret (Some m)
                  else ret None) ;;
      transparent <- lift (has_transparency logo_raw_image) ;;
      let mask_im := if transparent : bool then Some logo_image else mask_im in
      ret (logo_image, image_resize, mask_im)
  end.

(** Lines 632-666: the position of the logo. *)
Definition resolve_logo_xy (gif_width gif_height : Z) (image_resize : Z * Z) (xy : val)
  : M world val :=
  if is_none xy then
    let delta := 10 in
    ret (VTuple [VInt (gif_width - image_resize.1 - delta);
                 VInt (gif_height - image_resize.2 - delta)])
  else
    not_tuple_pair <- (if negb (is_tuple xy) then len_is_2 xy else ret false) ;;
    if not_tuple_pair : bool then
      print msg_not_tuple ;;; return_
    else
      int_pair <- all_items_and_len_2 is_int xy ;;
      if int_pair : bool then
        match items_of xy with
        | Some [vx; vy] =>
            let x := int_of vx in
            let y := int_of vy in
            if (0 <? x) && (x <? gif_width) && (0 <? y) && (y <? gif_height) then ret xy
            else print (msg_out_of_bounds gif_width gif_height) ;;; return_
        | _ => raise (MkExn "ValueError" "wrong number of values to unpack")
        end
      else
        str_pair <- all_items_and_len_2 is_str xy ;;
        if str_pair : bool then
          match items_of xy with
          | Some [VStr x; VStr y] =>
              if contains_char "%" x && contains_char "%" y then
                try_except
                  (x <- lift (percent_to_pixels x gif_width) ;;
                   y <- lift (percent_to_pixels y gif_height) ;;
                   ret (VTuple [VInt x; VInt y]))
                  (λ _, raise (MkExn "Exception" msg_invalid_percent))
              else ret xy
          | _ => raise (MkExn "ValueError" "wrong number of values to unpack")
          end
        else
          raise (MkExn "Exception" msg_invalid_xy).

(** Lines 670-677: one round of the loop over the frames. *)
Definition paste_frame (logo_image : Frame) (xy : val) (mask_im : option Frame)
    (index : nat) (frame : Frame) : M world Frame :=
  frame <- lift (convert "RGBA" frame) ;;
  log (CPaste xy) ;;;
  frame <- lift (paste frame logo_image xy mask_im) ;;
  lift (gif_roundtrip frame).

(** Lines 572-630: everything before the position is looked at. *)
Definition logo_prelude (in_gif out_gif in_image : string) (image_size : Z * Z)
    (circle_mask : bool)
  : M world (Image Frame * (Frame * (Z * Z) * option Frame)) :=
  in_gif <- os_path_abspath in_gif ;;
  let is_url := startswith "http" in_image in
  found <- os_path_exists in_gif ;;
  when (negb found) (print msg_no_gif ;;; return_) ;;;
  found_logo <- os_path_exists in_image ;;
  when (negb is_url && negb found_logo) (print msg_no_logo ;;; return_) ;;;
  out_dir <- (λ w, match check_dir (dirname out_gif) (fs w) with
                   | inl e => (Raise e, w)
                   | inr (d, f) => (Next d, with_fs f w)
                   end) ;;
  has_dir <- os_path_exists out_dir ;;
  when (negb has_dir) (os_makedirs out_dir) ;;;
  gif <- try_except (Image_open in_gif)
           (λ e, print msg_open_image_failed ;;; print (exn_str e) ;;; return_) ;;
  logo <- load_logo in_image image_size circle_mask ;;
  ret (gif, logo).

Definition add_image_to_gif (in_gif out_gif in_image : string) (xy : val)
    (image_size : Z * Z) (circle_mask : bool) : M world unit :=
  pre <- logo_prelude in_gif out_gif in_image image_size circle_mask ;;
  let '(gif, (logo_image, image_resize, mask_im)) := pre in
  let '(gif_width, gif_height) := size gif in
  xy <- resolve_logo_xy gif_width gif_height image_resize xy ;;
  try_except
    (frames <- for_frames gif (paste_frame logo_image xy mask_im) ;;
     save_frames out_gif frames VNone VNone false)
    (λ e, print (exn_str e)).

(** *** [add_progress_bar_to_gif] *)

(** Lines 5126-5140: paths, the colour, and opening the gif. *)
Definition bar_prelude (in_gif out_gif : string) (progress_bar_color : val)
  : M world (string * Color * Image Frame) :=
  in_gif <- os_path_abspath in_gif ;;
  out_gif <- os_path_abspath out_gif ;;
  found <- os_path_exists in_gif ;;
  when (negb found) (print msg_no_gif ;;; return_) ;;;
  has_dir <- os_path_exists (dirname out_gif) ;;
  when (negb has_dir) (os_makedirs (dirname out_gif)) ;;;
  progress_bar_color <- lift (check_color progress_bar_color) ;;
  image <- try_except (Image_open in_gif)
             (λ e, raise (MkExn "Exception" msg_open_failed)) ;;
  ret (out_gif, progress_bar_color, image).

(** Lines 5153-5164: one round of the loop over the frames. *)
Definition bar_frame (progress_bar_shapes : list Shape) (progress_bar_color : Color)
    (index : nat) (frame : Frame) : M world Frame :=
  frame <- lift (convert "RGB" frame) ;;
  lift (image_draw frame) ;;;
  shape <- Host.index progress_bar_shapes index ;;
  log (CRect shape) ;;;
  frame <- lift (draw_rectangle frame shape progress_bar_color) ;;
  lift (gif_roundtrip frame).

Definition add_progress_bar_to_gif (in_gif out_gif : string) (progress_bar_color : val)
    (progress_bar_height : Z) (duration loop : val) : M world unit :=
  pre <- bar_prelude in_gif out_gif progress_bar_color ;;
  let '(out_gif, progress_bar_color, image) := pre in
  let count := n_frames image in
  let '(W, H) := size image in
  let progress_bar_shapes := bar_shapes count W H progress_bar_height in
  try_except
    (frames <- for_frames image (bar_frame progress_bar_shapes progress_bar_color) ;;
     save_frames out_gif frames duration loop true)
    (λ e, raise (MkExn "Exception" (exn_str e))).

(** *** Observations on the bars *)

(** A loop body that, on frame [idx], draws the rectangle [shapes[idx]]
    and no other, or fails; and that saves nothing. *)
Definition draws_bar (shapes : list Shape) (f : nat → Frame → M world Frame) : Prop :=
  ∀ idx x w r w', f idx x w = (r, w') →
    ∃ new, calls w' = calls w ++ new
      ∧ Forall (λ c, ∀ p n, c ≠ CSave p n) new
      ∧ ((∃ sh, shapes !! idx = Some sh ∧ rectangles new = [sh])
         ∨ (rectangles new = [] ∧ ∀ y, r ≠ Next y)).

(** What a run from [w] to [w'] drew of the bars [shapes]: the rectangles
    of the first frames, in order, and those of all the frames of [im] if the
    output was saved. *)
Definition drew_bars (shapes : list Shape) (im : Image Frame) (w w' : world) : Prop :=
  ∃ new, calls w' = calls w ++ new
    ∧ rectangles new `prefix_of` shapes
    ∧ (∀ p n, CSave p n ∈ new → length (rectangles new) = length (frames im)).

End gif.
End Gif.

(** ** The functions that shell out to an encoder *)

Module Encoders.
Import Py Py.Notations Host.

(** The [images] argument of [make_gif]: a directory or a list of files. *)
Inductive Images :=
| ImagesPath (p : string)
| ImagesList (l : list string).

Definition msg_no_ffmpeg : string := "ffmpeg is not installed on your computer.".
Definition msg_mp4_failed : string := "Failed to create mp4 file.".
Definition msg_no_gifsicle : string :=
  "gifsicle is not installed. Run 'sudo apt-get install -y gifsicle' to install it.".

Section encoders.
Context {Frame Font Color : Type} {platform : Platform Frame Font Color}.

Local Abbreviation world := (World Frame).

(** [int(1000 / fps)]. *)
Definition frame_duration (fps : Z) : Exn + Z :=
  if fps =? 0 then inl (MkExn "ZeroDivisionError" "division by zero")
  else match int_of_float (float_of_int 1000 / float_of_int fps)%float with
       | None => inl (MkExn "OverflowError" "cannot convert float to integer")
       | Some n => inr n
       end.

(** Lines 133-157 of [make_gif]: the frames are opened in the order of
    [images] and written to [out_gif]; the first frame saves itself and
    appends all of [frames]. *)
Definition assemble_gif (images : list string) (out_gif : string) (fps : Z) (loop : val)
    (mp4 clean_up : bool) : M world unit :=
  frames <- for_each (λ _ image, Image_open image) 0 images ;;
  frame_one <- index frames 0 ;;
  duration <- lift (frame_duration fps) ;;
  save_gif out_gif (concat (Host.frames <$> frame_one :: frames)) (VInt duration) loop false ;;;
  when mp4
    (when (negb (is_tool "ffmpeg")) (print msg_no_ffmpeg ;;; return_) ;;;
     made <- os_path_exists out_gif ;;
     when made
       (let out_mp4 := replace ".gif" ".mp4" out_gif in
        let cmd := "ffmpeg -loglevel error -i " +:+ out_gif
                     +:+ " -vcodec libx264 -crf 25 -pix_fmt yuv420p " +:+ out_mp4 in
        os_system_ cmd ;;;
        done <- os_path_exists out_mp4 ;;
        when (negb done) (raise (MkExn "Exception" msg_mp4_failed)))) ;;;
  when clean_up
    (for_each (λ _ image, on_fs (remove image)) 0 images ;;; ret tt).

(** Lines 104-157. *)
Definition make_gif (images : Images) (out_gif ext : string) (fps : Z) (loop : val)
    (mp4 clean_up : bool) : M world unit :=
  images <-
    (match images with
     | ImagesPath d =>
         isdir <- os_path_isdir d ;;
         if isdir : bool then
           (λ w, let found := glob (path_join d ("*." +:+ ext)) (cwd w) (fs w) in
                 match found with
                 | [] => (Raise (MkExn "ValueError" "No images found in the input directory."), w)
                 | _ => (Next found, w)
                 end)
         else raise (MkExn "ValueError" "images must be a list or a path to the image directory.")
     | ImagesList l => ret l
     end) ;;
  assemble_gif (sort images) out_gif fps loop mp4 clean_up.

(** Lines 160-195. *)
Definition gif_to_mp4 (in_gif out_mp4 : string) : M world unit :=
  found <- os_path_exists in_gif ;;
  when (negb found) (raise (MkExn "FileNotFoundError" (in_gif +:+ " does not exist."))) ;;;
  out_mp4 <- os_path_abspath out_mp4 ;;
  let out_mp4 := if endswith ".mp4" out_mp4 then out_mp4 else out_mp4 +:+ ".mp4" in
  has_dir <- os_path_exists (dirname out_mp4) ;;
  when (negb has_dir) (os_makedirs (dirname out_mp4)) ;;;
  when (negb (is_tool "ffmpeg")) (print msg_no_ffmpeg ;;; return_) ;;;
  im <- Image_open in_gif ;;
  let '(width, height) := size im in
  (if (width `mod` 2 =? 0) && (height `mod` 2 =? 0) then
     os_system_ ("ffmpeg -loglevel error -i " +:+ in_gif
                   +:+ " -vcodec libx264 -crf 25 -pix_fmt yuv420p " +:+ out_mp4)
   else
     let width := width + width `mod` 2 in
     let height := height + height `mod` 2 in
     os_system_ ("ffmpeg -loglevel error -i " +:+ in_gif +:+ " -vf scale=" +:+ str width
                   +:+ ":" +:+ str height
                   +:+ " -vcodec libx264 -crf 25 -pix_fmt yuv420p " +:+ out_mp4)) ;;;
  done <- os_path_exists out_mp4 ;;
  when (negb done) (raise (MkExn "Exception" msg_mp4_failed)).

(** Lines 198-225. *)
Definition merge_gifs (in_gifs : Images) (out_gif : string) : M world unit :=
  try_except
    (in_gifs <-
       (match in_gifs with
        | ImagesPath d =>
            isdir <- os_path_isdir d ;;
            if isdir : bool then
              (λ w, (Next (glob (path_join d "*.gif") (cwd w) (fs w)), w))
            else raise (MkExn "Exception" "in_gifs must be a list.")
        | ImagesList l => ret l
        end) ;;
     let in_gifs := join " " in_gifs in
     let cmd := "gifsicle " +:+ in_gifs +:+ " > " +:+ out_gif in
     os_system_ cmd)
    (λ e, print msg_no_gifsicle ;;; print (exn_str e)).

(** Lines 228-264.  [out_dir] is [None], a string, or something else. *)
Definition gif_to_png (in_gif : string) (out_dir : val) (prefix : string) (verbose : bool)
  : M world unit :=
  in_gif <- os_path_abspath in_gif ;;
  when (contains_char " " in_gif) (raise (MkExn "Exception" "in_gif cannot contain spaces.")) ;;;
  found <- os_path_exists in_gif ;;
  when (negb found) (raise (MkExn "FileNotFoundError" (in_gif +:+ " does not exist."))) ;;;
  let basename := replace ".gif" "" (basename in_gif) in
  out_dir <-
    (match out_dir with
     | VNone =>
         let out_dir := path_join gettempdir basename in
         has <- os_path_exists out_dir ;;
         when (negb has) (os_makedirs out_dir) ;;;
         ret out_dir
     | VStr out_dir =>
         has <- os_path_exists out_dir ;;
         when (negb has) (os_makedirs out_dir) ;;;
         ret out_dir
     | _ => raise (MkExn "Exception" "out_dir must be a string.")
     end) ;;
  out_dir <- os_path_abspath out_dir ;;
  let cmd := "ffmpeg -loglevel error -i " +:+ in_gif +:+ " -vsync 0 " +:+ out_dir +:+ "/"
               +:+ prefix +:+ "%d.png" in
  os_system_ cmd ;;;
  when verbose (print ("Images are saved to " +:+ out_dir)).

Definition blend_expr : string :=
  "blend=all_expr='A*(if(gte(T,3),1,T/3))+B*(1-(if(gte(T,3),1,T/3)))'".

(** Lines 317-340 of [gif_fading]: the ffmpeg command line. *)
Definition fading_cmd (count duration : Z) (out_gif : string) : string :=
  let files :=
    (λ i, "-loop 1 -t " +:+ str duration +:+ " -i " +:+ str i +:+ ".png")
      <$> range2 1 (count + 1) in
  let inputs := join " " files in
  let filters :=
    (λ i, if i =? 1
          then String "034" ("[1:v][0:v]" +:+ blend_expr +:+ "[v0];")
          else "[" +:+ str i +:+ ":v][" +:+ str (i - 1) +:+ ":v]" +:+ blend_expr
                 +:+ "[v" +:+ str (i - 1) +:+ "];")
      <$> range2 1 count in
  let last_filter :=
    foldl (λ acc i, acc +:+ "[v" +:+ str i +:+ "]") "" (range (count - 1))
      +:+ "concat=n=" +:+ str (count - 1) +:+ ":v=1:a=0[v]"
      +:+ String "034" (" -map " +:+ String "034" ("[v]" +:+ String "034" "")) in
  let filters := join " " (filters ++ [last_filter]) in
  "ffmpeg -y -loglevel error " +:+ inputs +:+ " -filter_complex " +:+ filters
    +:+ " " +:+ out_gif.

(** Lines 267-377.  [duration] is an int here. *)
Definition gif_fading (in_gif out_gif : string) (duration : Z) (verbose : bool)
  : M world unit :=
  current_dir <- os_getcwd ;;
  in_gif <-
    (if startswith "http" in_gif then
       let ext := splitext_ext in_gif in
       let file_path := temp_file_path ext in
       on_fs (download_from_url in_gif file_path) ;;;
       ret file_path
     else ret in_gif) ;;
  in_gif <- os_path_abspath in_gif ;;
  when (negb (endswith ".gif" in_gif)) (raise (MkExn "Exception" "in_gif must be a gif file.")) ;;;
  when (contains_char " " in_gif)
    (raise (MkExn "Exception" "The filename cannot contain spaces.")) ;;;
  out_gif <- os_path_abspath out_gif ;;
  has_dir <- os_path_exists (dirname out_gif) ;;
  when (negb has_dir) (os_makedirs (dirname out_gif)) ;;;
  found <- os_path_exists in_gif ;;
  when (negb found) (raise (MkExn "FileNotFoundError" (in_gif +:+ " does not exist."))) ;;;
  let basename := replace ".gif" "" (basename in_gif) in
  let temp_dir := path_join gettempdir basename in
  stale <- os_path_exists temp_dir ;;
  when stale (on_fs (rmtree temp_dir)) ;;;
  gif_to_png in_gif (VStr temp_dir) "" verbose ;;;
  os_chdir temp_dir ;;;
  images <- (λ w, (Next (glob (path_join temp_dir "*.png") (cwd w) (fs w)), w)) ;;
  let count := Z.of_nat (length images) in
  os_system_ (fading_cmd count duration out_gif) ;;;
  try_except (on_fs (rmtree temp_dir)) (λ e, print (exn_str e)) ;;;
  os_chdir current_dir.

End encoders.
End Encoders.

(** ** The Earth Engine queries: [add_overlay] and [create_timeseries]

    The query objects are modelled by what they denote: an image is its
    pixel data and its metadata properties, a collection the list of its
    images.  Pixel-level operations are those of the platform. *)

Module EE.
Import Py Py.Notations.

(** A metadata value. *)
Inductive prop :=
| PNum (n : Z)
| PStr (s : string).

#[export] Instance prop_eq_dec : EqDecision prop.
Proof. solve_decision. Defined.

Record Image (Raster : Type) := mkImage {
  raster : Raster;
  props : gmap string prop;
}.
Arguments mkImage {Raster}.
Arguments raster {Raster}.
Arguments props {Raster}.

(** The [collection] argument: an [ee.ImageCollection], an asset id, or
    anything else. *)
Inductive CollectionArg (Raster : Type) :=
| IsCollection (c : list (Image Raster))
| IsStr (s : string)
| NotCollection.
Arguments IsCollection {Raster}.
Arguments IsStr {Raster}.
Arguments NotCollection {Raster}.

(** The [overlay_data] argument of [add_overlay]. *)
Inductive Overlay (Features Feature Geometry : Type) :=
| OFeatureCollection (fc : Features)
| OStr (s : string)
| OFeature (f : Feature)
| OGeometry (g : Geometry)
| OOther.
Arguments OFeatureCollection {Features Feature Geometry}.
Arguments OStr {Features Feature Geometry}.
Arguments OFeature {Features Feature Geometry}.
Arguments OGeometry {Features Feature Geometry}.
Arguments OOther {Features Feature Geometry}.

(** The platform: the server-side operations the queries are built from,
    and the helpers of [geemap.common]. *)
Class Platform (Raster Region Features Feature Geometry Color Reducer : Type) := {
  (* collections and images *)
  image_collection : string → list (Image Raster);
  select : list string → Raster → Raster;
  rename : list string → Raster → Raster;
  band_names : Raster → list string;
  reduce : Reducer → Z → list (Image Raster) → Raster;
  clip : Region → Raster → Raster;
  clip_to_collection : Region → Raster → Raster;
  is_feature_collection : Region → bool;
  intersects : Region → Image Raster → bool;
  blend : Image Raster → Raster → Image Raster;
  (* dates *)
  date_millis : string → Z;
  advance : Z → string → Z → Z;
  date_format : Z → string → string;
  (* features *)
  feature_collection : string → Exn + Features;
  features_of_feature : Feature → Features;
  features_of_geometry : Geometry → Features;
  filter_features : Region → Features → Features;
  paint_and_visualize : Features → Z → Color → val → Raster;
  (* the client library and geemap.common *)
  reducer_named : string → Exn + Reducer;
  geojson_to_ee : string → Exn + Features;
  check_color : val → Exn + Color;
  date_sequence : string → string → string → string → Z → list string;
}.

Definition msg_bad_collection : string := "The collection must be an ee.ImageCollection.".
Definition msg_bad_collection_id : string :=
  "The collection must be an ee.ImageCollection object or asset id.".
Definition msg_bad_overlay_print : string :=
  "The overlay_data must be a valid ee.FeatureCollection, a valid ee.FeatureCollection asset id, or http url to a geojson file.".
Definition msg_bad_overlay : string :=
  "The overlay_data must be a valid ee.FeatureCollection or a valid ee.FeatureCollection asset id.".
Definition msg_overlay_error : string := "Error in add_overlay:".
Definition msg_bad_reducer : string := "The provided reducer is invalid.".

(** ASCII [str.lower()]. *)
Definition lower_char (c : ascii) : ascii :=
  let n := N_of_ascii c in
  if ((65 <=? n) && (n <=? 90))%N then ascii_of_N (n + 32) else c.
Fixpoint lower (s : string) : string :=
  match s with
  | EmptyString => ""
  | String c r => String (lower_char c) (lower r)
  end.

(** Line 48. *)
Definition public_assets : list string := ["continents"; "countries"; "us_states"; "china"].

(** Lines 767-776. *)
Definition feq_dict : gmap string string :=
  list_to_map
    [("year", "YYYY"); ("month", "YYYY-MM"); ("quarter", "YYYY-MM");
     ("week", "YYYY-MM-dd"); ("day", "YYYY-MM-dd"); ("hour", "YYYY-MM-dd HH");
     ("minute", "YYYY-MM-dd HH:mm"); ("second", "YYYY-MM-dd HH:mm:ss")].

Section ee.
Context {Raster Region Features Feature Geometry Color Reducer : Type}
  {platform : Platform Raster Region Features Feature Geometry Color Reducer}.

(** The functions print to the console and touch nothing else. *)
Local Abbreviation console := (list string).
Local Abbreviation image := (Image Raster).

Definition print (s : string) : M console unit := λ out, (Next tt, out ++ [s]).

(** [img.get(key)]: [None] is Earth Engine's null. *)
Definition get (key : string) (img : image) : option prop := props img !! key.

(** [img.set(key, value)]; a null value leaves the property unset. *)
Definition set (key : string) (value : option prop) (img : image) : image :=
  mkImage (raster img)
    (match value with
     | Some v => <[key := v]> (props img)
     | None => delete key (props img)
     end).

(** [collection.filterDate(start, end)]: [start] inclusive, [end] exclusive,
    on [system:time_start]. *)
Definition in_date_range (start end_ : Z) (img : image) : bool :=
  match get "system:time_start" img with
  | Some (PNum t) => (start <=? t) && (t <? end_)
  | _ => false
  end.
Definition filterDate (start end_ : Z) (c : list image) : list image :=
  filter (λ img, in_date_range start end_ img = true) c.

(** [collection.filterBounds(region)]. *)
Definition filterBounds (region : Region) (c : list image) : list image :=
  filter (λ img, intersects region img = true) c.

(** [collection.filterMetadata(name, "equals", value)]. *)
Definition filterMetadata_equals (name : string) (value : prop) (c : list image) : list image :=
  filter (λ img, get name img = Some value) c.

(** *** [add_overlay] *)

(** Lines 53-79: [overlay_data] as a feature collection. *)
Definition overlay_features (overlay_data : Overlay Features Feature Geometry)
  : M console Features :=
  match overlay_data with
  | OFeatureCollection fc => ret fc
  | OStr s =>
      try_except
        (if bool_decide (lower s ∈ public_assets) then
           lift (feature_collection ("users/giswqs/public/" +:+ lower s))
         else if startswith "http" s && endswith ".geojson" s then
           lift (geojson_to_ee s)
         else lift (feature_collection s))
        (λ e, print msg_bad_overlay_print ;;; raise (MkExn "Exception" (exn_str e)))
  | OFeature f => ret (features_of_feature f)
  | OGeometry g => ret (features_of_geometry g)
  | OOther => raise (MkExn "Exception" msg_bad_overlay)
  end.

(** Lines 25-101. *)
Definition add_overlay (collection : CollectionArg Raster)
    (overlay_data : Overlay Features Feature Geometry) (color : val) (width : Z)
    (opacity : val) (region : option Region) : M console (list image) :=
  match collection with
  | IsCollection collection =>
      overlay_data <- overlay_features overlay_data ;;
      try_except
        (let overlay_data :=
           match region with
           | Some r => filter_features r overlay_data
           | None => overlay_data
           end in
         palette <- lift (check_color color) ;;
         let image := paint_and_visualize overlay_data width palette opacity in
         let blend_col :=
           (λ img, set "system:time_start" (get "system:time_start" img) (blend img image))
             <$> collection in
         ret blend_col)
        (λ e, print msg_overlay_error ;;; raise (MkExn "Exception" (exn_str e)))
  | _ => raise (MkExn "Exception" msg_bad_collection)
  end.

(** *** [create_timeseries] *)

(** Lines 790-794: the end of the bucket that starts at [start]. *)
Definition bucket_end (frequency : string) (start : Z) : Z :=
  if bool_decide (frequency = "quarter") then advance 3 "month" start
  else advance 1 frequency start.

(** Lines 796-801: the images a composite is reduced from. *)
Definition sub_col (collection : list image) (region : option Region)
    (frequency date : string) : list image :=
  let start := date_millis date in
  let end_ := bucket_end frequency start in
  match region with
  | None => filterDate start end_ collection
  | Some r => filterBounds r (filterDate start end_ collection)
  end.

(** Lines 789-815. *)
Definition create_image (collection : list image) (region : option Region)
    (bands : list string) (frequency : string) (reducer : Reducer) (date_fmt : string)
    (parallel_scale : Z) (date : string) : image :=
  let sub := sub_col collection region frequency date in
  let image :=
    match region with
    | None => reduce reducer parallel_scale sub
    | Some r =>
        if is_feature_collection r
        then clip_to_collection r (reduce reducer parallel_scale sub)
        else clip r (reduce reducer parallel_scale sub)
    end in
  let empty := if Z.of_nat (length (take 1 sub)) =? 0 then 1 else 0 in
  mkImage (rename bands image)
    (<["empty" := PNum empty]>
       (<["system:date" := PStr (date_format (date_millis date) date_fmt)]>
          (<["system:time_start" := PNum (date_millis date)]> ∅))).

(** Lines 723-824.  [bands = None] takes the band names of the first image;
    with no first image the query fails when it is evaluated. *)
Definition create_timeseries (collection : CollectionArg Raster)
    (start_date end_date : string) (region : option Region) (bands : option (list string))
    (frequency reducer : string) (drop_empty : bool) (date_fmt : option string)
    (parallel_scale step : Z) : M console (list image) :=
  collection <-
    (match collection with
     | IsCollection c => ret c
     | IsStr s => ret (image_collection s)
     | NotCollection => raise (MkExn "Exception" msg_bad_collection_id)
     end) ;;
  let collection :=
    match bands with
    | Some b => (λ img, mkImage (select b (raster img)) (props img)) <$> collection
    | None => collection
    end in
  bands <-
    (match bands with
     | Some b => ret b
     | None =>
         match collection with
         | first :: _ => ret (band_names (raster first))
         | [] => raise (MkExn "EEException" "Image.bandNames: Parameter 'image' is required.")
         end
     end) ;;
  date_fmt <-
    (match date_fmt with
     | Some f => ret f
     | None =>
         match feq_dict !! frequency with
         | Some f => ret f
         | None => raise (MkExn "KeyError" frequency)
         end
     end) ;;
  let dates := date_sequence start_date end_date frequency date_fmt step in
  reducer <- try_except (lift (reducer_named reducer))
               (λ e, print msg_bad_reducer ;;; raise (MkExn "Exception" (exn_str e))) ;;
  let images :=
    create_image collection region bands frequency reducer date_fmt parallel_scale <$> dates in
  if drop_empty then ret (filterMetadata_equals "empty" (PNum 0) images)
  else ret images.

(** The frequencies [feq_dict] has a date format for. *)
Definition frequencies : list string :=
  ["year"; "month"; "quarter"; "week"; "day"; "hour"; "minute"; "second"].

(** The collection the composites are reduced from: the argument, with
    the bands selected when [bands] is given (lines 754-763). *)
Definition source_of (collection : CollectionArg Raster) (bands : option (list string))
  : option (list image) :=
  let selected c :=
    match bands with
    | Some b => (λ img, mkImage (select b (raster img)) (props img)) <$> c
    | None => c
    end in
  match collection with
  | IsCollection c => Some (selected c)
  | IsStr s => Some (selected (image_collection s))
  | NotCollection => None
  end.

(** The composite of the bucket of [date] in the words of the
    specification: the reducer applied to the images of the collection
    whose timestamp lies in the bucket. *)
Definition composite_as_specified (collection : list image) (frequency : string)
    (reducer : Reducer) (parallel_scale : Z) (date : string) : Raster :=
  let start := date_millis date in
  reduce reducer parallel_scale (filterDate start (bucket_end frequency start) collection).

End ee.
End EE.

(** ** A small concrete host

    A stand-in for the collaborators, used to run the functions on concrete
    inputs: a frame is its size and the list of operations applied to it;
    [float] and [int] read plain digit strings only. *)

Module Demo.
Import Py Host.

Definition Frame : Type := (Z * Z) * list string.
Definition Font : Type := string * Z.
Definition Color : Type := val.

Definition touch (op : string) (f : Frame) : Frame := (f.1, f.2 ++ [op]).

Fixpoint digits_value (s : string) (acc : Z) : option Z :=
  match s with
  | EmptyString => Some acc
  | String c r =>
      let n := Z.of_N (N_of_ascii c) - 48 in
      if (0 <=? n) && (n <=? 9) then digits_value r (10 * acc + n) else None
  end.

Definition read_digits (s : string) : option Z :=
  match s with
  | EmptyString => None
  | _ => digits_value s 0
  end.

(** The part of a path before and after its last slash. *)
Fixpoint split_last (s : string) : option (string * string) :=
  match s with
  | EmptyString => None
  | String c r =>
      match split_last r with
      | Some (d, b) => Some (String c d, b)
      | None => if bool_decide (c = "/"%char) then Some ("", r) else None
      end
  end.

Definition demo_dirname (p : string) : string :=
  match split_last p with Some (d, _) => if bool_decide (d = "") then "/" else d | None => "" end.
Definition demo_basename (p : string) : string :=
  match split_last p with Some (_, b) => b | None => p end.

(** [tools]: whether [is_tool] finds the encoders. *)
Definition host (tools : bool) : Platform Frame Font Color := {|
  canon := λ _ p, p;
  abspath := λ cwd p, if startswith "/" p then p else path_join cwd p;
  dirname := demo_dirname;
  basename := demo_basename;
  splitext_ext := λ _, ".gif";
  makedirs := λ d f, inr (<[d := Dir]> f);
  remove := λ p f, inr (delete p f);
  rmtree := λ p f, inr (delete p f);
  glob := λ _ _ _, [];
  gettempdir := "/tmp";
  os_system := λ _ _ f, f;
  py_float := λ s, float_of_int <$> read_digits s;
  py_int := read_digits;
  container_repr := λ _, "[...]";
  truetype := λ p n, inr (p, n);
  convert := λ mode f, inr (touch ("convert " +:+ mode) f);
  image_draw := λ _, inr tt;
  draw_text := λ f _ t _ _, inr (touch ("text " +:+ t) f);
  draw_rectangle := λ f _ _, inr (touch "rectangle" f);
  gif_roundtrip := λ f, inr f;
  encode_gif := λ fr _ _ _,
    inr (mkImage (from_option fst (0, 0) (head fr)) (Z.of_nat (length fr)) fr None);
  thumbnail := λ f sz, inr (sz, f.2 ++ ["thumbnail"]);
  new_mask := λ sz, inr (sz, ["mask"]);
  image_convert := λ mode im,
    match frames im with
    | f :: _ => inr (touch ("convert " +:+ mode) f)
    | [] => inl (MkExn "ValueError" "no frame")
    end;
  paste := λ f _ _ _, inr (touch "paste" f);
  pkg_dir := "/pkg";
  check_color := λ c, inr c;
  system_fonts := inr [];
  check_dir := λ d f, inr (d, f);
  is_tool := λ _, tools;
  open_image_from_url := λ u, inl (MkExn "URLError" u);
  has_transparency := λ _, inr false;
  temp_file_path := λ ext, "/tmp/tmpfile" +:+ ext;
  download_from_url := λ _ _ f, inr f;
|}.

#[export] Instance platform : Platform Frame Font Color := host false.

(** A gif of [n] blank frames of size [W x H]. *)
Definition blank_gif (W H : Z) (n : nat) : Image Frame :=
  mkImage (W, H) (Z.of_nat n) (replicate n ((W, H), [])) None.

(** A host with the directory [/data] and the gif [/data/in.gif]. *)
Definition world0 (im : Image Frame) : World Frame :=
  mkWorld (<["/data" := Dir]> (<["/data/in.gif" := Img im]> ∅)) [] "/data" [].

(** A gif whose second frame cannot be read. *)
Definition broken_gif : Image Frame :=
  mkImage (100, 50) 2 [((100, 50), [])] (Some (MkExn "OSError" "broken data stream")).

Definition text_args (xy : val) : Gif.TextArgs :=
  Gif.mkTextArgs "/data/in.gif" "/data/out.gif" xy VNone "arial.ttf" 20 (VStr "#000000")
    true (VStr "white") 5 (VInt 100) (VInt 0).

End Demo.

(** ** A small concrete platform

    Pixel data is the list of the names of the images it was computed
    from; a region is a name, and an image lies in the region its [region]
    property names; dates are digit strings and every unit is ten ticks. *)
Module DemoEE.
Import Py EE.

Definition Raster : Type := list string.

Definition ticks (date : string) : Z := default 0 (Demo.read_digits date).

#[export] Instance platform : Platform Raster string string string string val string := {|
  image_collection := λ _, [];
  select := λ _ r, r;
  rename := λ _ r, r;
  band_names := λ _, ["B1"];
  reduce := λ _ _ c, concat (raster <$> c);
  clip := λ _ r, r;
  clip_to_collection := λ _ r, r;
  is_feature_collection := λ _, false;
  intersects := λ rg img, bool_decide (props img !! "region" = Some (PStr rg));
  blend := λ img r, mkImage (raster img ++ r) ∅;
  date_millis := ticks;
  advance := λ n _ t, t + 10 * n;
  date_format := λ t _, str t;
  feature_collection := λ s, inr s;
  features_of_feature := λ f, f;
  features_of_geometry := λ g, g;
  filter_features := λ _ fc, fc;
  paint_and_visualize := λ fc _ _ _, [fc];
  reducer_named := λ s, inr s;
  geojson_to_ee := λ s, inr s;
  check_color := λ c, inr c;
  date_sequence := λ s e _ _ _,
    (λ k : nat, str (ticks s + 10 * Z.of_nat k)) <$> seq 0 (Z.to_nat ((ticks e - ticks s) `div` 10 + 1));
|}.

(** An image taken at [t] over [region]. *)
Definition scene (name : string) (t : Z) (region : string) : Image Raster :=
  mkImage [name] (<["system:time_start" := PNum t]> (<["region" := PStr region]> ∅)).

Definition scenes : list (Image Raster) :=
  [scene "a" 3 "west"; scene "b" 7 "east"; scene "c" 25 "west"].

End DemoEE.

(** ** Observations on the calls of a run *)

Module Observe.
Import Py Host.

(** The texts among the calls, in the order they were drawn. *)
Definition texts (cs : list Call) : list string :=
  omap (λ c, match c with CText _ t => Some t | _ => None end) cs.

(** The shell commands among the calls. *)
Definition commands (cs : list Call) : list string :=
  omap (λ c, match c with CSystem s => Some s | _ => None end) cs.

(** The gifs saved among the calls: path and number of frames. *)
Definition saves (cs : list Call) : list (string * nat) :=
  omap (λ c, match c with CSave p n => Some (p, n) | _ => None end) cs.

Definition is_save (c : Call) : bool :=
  match c with CSave _ _ => true | _ => false end.

Definition is_text (c : Call) : bool :=
  match c with CText _ _ => true | _ => false end.

Definition is_command (c : Call) : bool :=
  match c with CSystem _ => true | _ => false end.

(** A loop body that, on frame [idx], logs the item [items[idx]] (as seen
    through [proj]) and no other, or fails. *)
Definition logs_item {Frame B : Type} (proj : Call → option B) (items : list B)
    (f : nat → Frame → M (World Frame) Frame) : Prop :=
  ∀ idx x w r w', f idx x w = (r, w') →
    ∃ new, calls w' = calls w ++ new
      ∧ ((∃ b, items !! idx = Some b ∧ omap proj new = [b])
         ∨ (omap proj new = [] ∧ ∀ y, r ≠ Next y)).

(** A statement that leaves the working directory where it was. *)
Definition keeps_cwd {Frame A : Type} (m : M (World Frame) A) : Prop :=
  ∀ w r w', m w = (r, w') → cwd w' = cwd w.

End Observe.

(** ** Sample points on a frame: [get_pixel_coordinates_from_geo] *)

Module Geo.
Import Py.

(** [a / b] of two floats: CPython raises where IEEE gives an infinity or
    a NaN for a zero divisor. *)
Definition float_truediv (a b : float) : Exn + float :=
  if (b =? 0)%float then inl (MkExn "ZeroDivisionError" "float division by zero")
  else inr (a / b)%float.

(** [f * n] of a float and an int: the int is converted first. *)
Definition float_mul_int (f : float) (n : Z) : Exn + float :=
  let g := float_of_int n in
  if is_infinity g then inl (MkExn "OverflowError" "int too large to convert to float")
  else inr (f * g)%float.

(** [int(f)] with its two errors. *)
Definition int_of_float_checked (f : float) : Exn + Z :=
  match int_of_float f with
  | Some n => inr n
  | None =>
      if is_nan f then inl (MkExn "ValueError" "cannot convert float NaN to integer")
      else inl (MkExn "OverflowError" "cannot convert float infinity to integer")
  end.

(** [int((num / den) * n)]. *)
Definition scaled_pixel (num den : float) (n : Z) : Exn + Z :=
  match float_truediv num den with
  | inl e => inl e
  | inr q =>
      match float_mul_int q n with
      | inl e => inl e
      | inr p => int_of_float_checked p
      end
  end.

(** Lines 5988-6013 (and, word for word, 7563-7588). *)
Definition get_pixel_coordinates_from_geo (lon lat : float) (roi_bounds : list float)
    (gif_width gif_height : Z) : Exn + (Z * Z) :=
  match roi_bounds with
  | [min_lon; min_lat; max_lon; max_lat] =>
      match scaled_pixel (lon - min_lon) (max_lon - min_lon) gif_width with
      | inl e => inl e
      | inr pixel_x =>
          match scaled_pixel (max_lat - lat) (max_lat - min_lat) gif_height with
          | inl e => inl e
          | inr pixel_y =>
              let pixel_x := 0 `max` ((gif_width - 1) `min` pixel_x) in
              let pixel_y := 0 `max` ((gif_height - 1) `min` pixel_y) in
              inr (pixel_x, pixel_y)
          end
      end
  | _ =>
      inl (MkExn "ValueError"
             (if (length roi_bounds <? 4)%nat
              then "not enough values to unpack (expected 4, got "
                     +:+ str (Z.of_nat (length roi_bounds)) +:+ ")"
              else "too many values to unpack (expected 4)"))
  end.

End Geo.

(** ** [reduce_gif_size] *)

Module Reduce.
Import Py Py.Notations Host.

(** The [ffmpeg] Python package: whether it can be imported, and
    [ffmpeg.run] of an input and an output with [overwrite_output]: the
    file system it leaves and the [ffmpeg.Error] it raises, if any. *)
Class FfmpegPython (Frame : Type) := {
  import_ffmpeg : Exn + unit;
  ffmpeg_run : string → string → string → gmap string (File Frame)
               → option Exn * gmap string (File Frame);
}.

Definition msg_no_ffmpeg : string := "ffmpeg is not installed on your computer.".
Definition msg_no_gif : string := "The input gif file does not exist.".

Section reduce.
Context {Frame Font Color : Type} {platform : Platform Frame Font Color}
  {ffmpeg : FfmpegPython Frame}.

Local Abbreviation world := (World Frame).

(** [shutil.copyfile(src, dst)]: the two must not be the same file. *)
Definition shutil_copyfile (src dst : string) : M world unit :=
  λ w, match lookup_path src w with
       | None => (Raise (MkExn "FileNotFoundError" src), w)
       | Some f =>
           if bool_decide (canon (cwd w) src = canon (cwd w) dst) then
             (Raise (MkExn "SameFileError"
                       ("'" +:+ src +:+ "' and '" +:+ dst +:+ "' are the same file")), w)
           else
             match f, lookup_path dst w with
             | Dir, _ => (Raise (MkExn "IsADirectoryError" src), w)
             | _, Some Dir => (Raise (MkExn "IsADirectoryError" dst), w)
             | _, _ => (Next tt, with_fs (<[canon (cwd w) dst := f]> (fs w)) w)
             end
       end.

(** [ffmpeg.run(ffmpeg.output(ffmpeg.input(src), dst, loglevel="quiet")
    .overwrite_output())]. *)
Definition run_ffmpeg (src dst : string) : M world unit :=
  λ w, match ffmpeg_run src dst (cwd w) (fs w) with
       | (Some e, f) => (Raise e, with_fs f w)
       | (None, f) => (Next tt, with_fs f w)
       end.

(** Lines 684-720. *)
Definition reduce_gif_size (in_gif : string) (out_gif : option string) : M world unit :=
  lift import_ffmpeg ;;;
  when (negb (is_tool "ffmpeg")) (print msg_no_ffmpeg ;;; return_) ;;;
  found <- os_path_exists in_gif ;;
  when (negb found) (print msg_no_gif ;;; return_) ;;;
  out_gif <-
    (match out_gif with
     | None => ret in_gif
     | Some out_gif =>
         has_dir <- os_path_exists (dirname out_gif) ;;
         when (negb has_dir) (os_makedirs (dirname out_gif)) ;;;
         ret out_gif
     end) ;;
  if bool_decide (in_gif = out_gif) then
    let tmp_gif := replace ".gif" "_tmp.gif" in_gif in
    shutil_copyfile in_gif tmp_gif ;;;
    run_ffmpeg tmp_gif in_gif ;;;
    on_fs (remove tmp_gif)
  else
    run_ffmpeg in_gif out_gif.

End reduce.
End Reduce.

(** ** The visualization parameters of [create_timelapse] *)

Module Vis.
Import Py.

(** What lines 967-1027 ask of Earth Engine and of [geemap.colormaps]: the
    band names of the first composite, a named palette of 15 colours, the
    smallest and the largest value of the first composite in the chosen
    bands, and the [ndvi] palette. *)
Class Api := {
  first_band_names : Exn + list string;
  get_palette : string → Exn + val;
  min_value : list val → Exn + val;
  max_value : list val → Exn + val;
  ndvi : val;
}.

(** The [vis_params] argument: [None], a dict, or anything else. *)
Inductive VisArg :=
| VisNone
| VisDict (d : gmap string val)
| VisOther.

Definition msg_bad_bands : string := "The bands must be a string or a list of strings.".
Definition msg_bad_palette : string := "The palette must be a string or a list of strings.".
Definition msg_bad_vis_params : string := "The vis_params must be a dictionary.".

Definition len_list {A} (l : list A) : Z := Z.of_nat (length l).

Definition and_then {A B} (x : Exn + A) (k : A → Exn + B) : Exn + B :=
  match x with inl e => inl e | inr a => k a end.

Section vis.
Context {api : Api}.

(** Lines 967-976: the bands to render. *)
Definition resolve_bands (bands : val) : Exn + list val :=
  match bands with
  | VNone =>
      and_then first_band_names (λ names,
        if len_list names <? 3 then
          match names with
          | first :: _ => inr [VStr first]
          | [] => inl (MkExn "IndexError" "list index out of range")
          end
        else inr (VStr <$> reverse (take 3 names)))
  | VStr s => inr [bands]
  | VList l => inr l
  | _ => inl (MkExn "Exception" msg_bad_bands)
  end.

(** Lines 978-983: the palette. *)
Definition resolve_palette (palette : val) : Exn + val :=
  match palette with
  | VStr s => get_palette s
  | VList _ | VTuple _ | VNone => inr palette
  | _ => inl (MkExn "Exception" msg_bad_palette)
  end.

Definition has (key : string) (d : gmap string val) : bool := bool_decide (is_Some (d !! key)).

(** Lines 985-1027: [vis_params] completed. *)
Definition resolve_vis_params (bands : list val) (palette : val) (vis_params : VisArg)
  : Exn + gmap string val :=
  match vis_params with
  | VisNone =>
      and_then (min_value bands) (λ min_value,
      and_then (max_value bands) (λ max_value,
        let vis_params : gmap string val :=
          <["max" := max_value]> (<["min" := min_value]> (<["bands" := VList bands]> ∅)) in
        inr (if len_list bands =? 1 then
               if negb (is_none palette) then <["palette" := palette]> vis_params
               else <["palette" := ndvi]> vis_params
             else vis_params)))
  | VisDict vis_params =>
      let vis_params :=
        if negb (has "bands" vis_params) then <["bands" := VList bands]> vis_params
        else vis_params in
      and_then (if negb (has "min" vis_params)
                then and_then (min_value bands) (λ m, inr (<["min" := m]> vis_params))
                else inr vis_params) (λ vis_params,
      and_then (if negb (has "max" vis_params)
                then and_then (max_value bands) (λ m, inr (<["max" := m]> vis_params))
                else inr vis_params) (λ vis_params,
        let vis_params :=
          if is_none palette && (len_list bands =? 1) && negb (has "palette" vis_params)
          then <["palette" := ndvi]> vis_params
          else if negb (is_none palette) && negb (has "palette" vis_params)
          then <["palette" := palette]> vis_params
          else vis_params in
        inr (if (1 <? len_list bands) && has "palette" vis_params
             then delete "palette" vis_params
             else vis_params)))
  | VisOther => inl (MkExn "Exception" msg_bad_vis_params)
  end.

(** Lines 967-1027 in their order: the bands, the palette, the
    parameters. *)
Definition visualization (bands palette : val) (vis_params : VisArg)
  : Exn + list val * gmap string val :=
  and_then (resolve_bands bands) (λ bands,
  and_then (resolve_palette palette) (λ palette,
  and_then (resolve_vis_params bands palette vis_params) (λ vis_params,
    inr (bands, vis_params)))).

(** Lines 1054-1057: the bands of the rendered video. *)
Definition video_bands (vis_params : gmap string val) (bands : list val) : list string :=
  if has "palette" vis_params || (1 <? len_list bands)
  then ["vis-red"; "vis-green"; "vis-blue"]
  else ["vis-gray"].

End vis.
End Vis.

(** ** More concrete collaborators

    A host whose directory [/data] holds two single-frame images, a file
    that is no image and a gif with an upper-case name; an [ffmpeg] package
    that copies its input; a platform that knows two reducers only; a
    four-band image for the visualization parameters. *)

Module DemoMore.
Import Py Host.

Definition album : World Demo.Frame :=
  mkWorld
    (<["/data" := Dir]>
       (<["/data/a.png" := Img (Demo.blank_gif 10 10 1)]>
          (<["/data/b.png" := Img (Demo.blank_gif 10 10 1)]>
             (<["/data/logo.png" := Blob]>
                (<["/data/in.gif" := Img (Demo.blank_gif 101 50 2)]>
                   (<["/data/IN.GIF" := Img (Demo.blank_gif 101 50 2)]> ∅))))))
    [] "/data" [].

#[export] Instance ffmpeg_python : Reduce.FfmpegPython Demo.Frame := {|
  Reduce.import_ffmpeg := inr tt;
  Reduce.ffmpeg_run := λ src dst _ f,
    match f !! src with
    | Some file => (None, <[dst := file]> f)
    | None => (Some (MkExn "Error" "ffmpeg error (see stderr output for detail)"), f)
    end;
|}.


#[export] Instance vis_api : Vis.Api := {|
  Vis.first_band_names := inr ["B1"; "B2"; "B3"; "B4"];
  Vis.get_palette := λ name, inr (VList [VStr name]);
  Vis.min_value := λ _, inr (VInt 0);
  Vis.max_value := λ _, inr (VInt 255);
  Vis.ndvi := VList [VStr "FFFFFF"; VStr "006400"];
|}.

End DemoMore.

(** A platform that knows the reducers [median] and [mean] only. *)
Module DemoReducers.
Import Py EE.

Definition strict_reducers : Platform DemoEE.Raster string string string string val string := {|
  image_collection := λ _, [];
  select := λ _ r, r;
  rename := λ _ r, r;
  band_names := λ _, ["B1"];
  reduce := λ _ _ c, concat (raster <$> c);
  clip := λ _ r, r;
  clip_to_collection := λ _ r, r;
  is_feature_collection := λ _, false;
  intersects := λ rg img, bool_decide (props img !! "region" = Some (PStr rg));
  blend := λ img r, mkImage (raster img ++ r) ∅;
  date_millis := DemoEE.ticks;
  advance := λ n _ t, t + 10 * n;
  date_format := λ t _, str t;
  feature_collection := λ s, inr s;
  features_of_feature := λ f, f;
  features_of_geometry := λ g, g;
  filter_features := λ _ fc, fc;
  paint_and_visualize := λ fc _ _ _, [fc];
  reducer_named := λ s,
    if bool_decide (s ∈ ["median"; "mean"]) then inr s
    else inl (MkExn "AttributeError"
                ("type object 'Reducer' has no attribute '" +:+ s +:+ "'"));
  geojson_to_ee := λ s, inr s;
  check_color := λ c, inr c;
  date_sequence := λ s e _ _ _,
    (λ k : nat, str (DemoEE.ticks s + 10 * Z.of_nat k))
      <$> seq 0 (Z.to_nat ((DemoEE.ticks e - DemoEE.ticks s) `div` 10 + 1));
|}.

End DemoReducers.

(** * Properties *)

Module PyFacts.
Import Py.


Lemma pow10_pos k : (0 < 10 ^ k)%N.
Proof. pose proof (N.pow_nonzero 10 k). lia. Qed.

Lemma app_cons c (s t : string) : String c s +:+ t = String c (s +:+ t).
Proof. reflexivity. Qed.

Lemma app_empty (t : string) : "" +:+ t = t.
Proof. reflexivity. Qed.

Lemma app_empty_r (t : string) : t +:+ "" = t.
Proof. induction t as [|c t IH]; [done|]. by rewrite app_cons, IH. Qed.

Lemma app_assoc (s t u : string) : (s +:+ t) +:+ u = s +:+ t +:+ u.
Proof. induction s as [|c s IH]; [done|]. by rewrite !app_cons, IH. Qed.

Lemma zeros_snoc k s : zeros k +:+ String "0"%char s = String "0"%char (zeros k +:+ s).
Proof.
  induction k as [|k IH]; [done|].
  cbn [zeros]. by rewrite !app_cons, IH.
Qed.

Lemma length_app (s t : string) :
  String.length (s +:+ t) = (String.length s + String.length t)%nat.
Proof. induction s as [|c s IH]; [done|]. rewrite app_cons. simpl. by rewrite IH. Qed.

Lemma length_zeros k : String.length (zeros k) = k.
Proof. induction k; simpl; auto. Qed.

Lemma length_fixed_go w n acc :
  String.length (fixed_go w n acc) = (w + String.length acc)%nat.
Proof.
  revert n acc. induction w as [|w IH]; intros n acc; simpl; [done|].
  rewrite IH. simpl. lia.
Qed.

Lemma length_pretty_N_go n acc :
  (String.length acc <= String.length (pretty_N_go n acc))%nat.
Proof.
  revert acc. induction (N.lt_wf_0 n) as [n _ IH]. intros acc.
  destruct (decide (n = 0%N)) as [->|Hn]; [by rewrite pretty_N_go_0|].
  rewrite pretty_N_go_step by lia.
  etrans; [|apply IH; apply N.div_lt; lia]. simpl. lia.
Qed.

(** The digits written by [pretty] are the low-order digits of the
    fixed-width rendering; the rest of the field is zeros. *)
Lemma fixed_go_pretty w n acc :
  (n < 10 ^ N.of_nat w)%N →
  fixed_go w n acc =
    zeros (w + String.length acc - String.length (pretty_N_go n acc)) +:+ pretty_N_go n acc.
Proof.
  revert n acc. induction w as [|w IH]; intros n acc Hn.
  - assert (n = 0%N) as -> by (simpl in Hn; lia).
    rewrite pretty_N_go_0. simpl. by rewrite Nat.sub_diag.
  - simpl fixed_go. destruct (decide (n = 0%N)) as [->|Hpos].
    + rewrite pretty_N_go_0. rewrite IH by apply pow10_pos.
      change (0 `div` 10)%N with 0%N. rewrite pretty_N_go_0. simpl String.length.
      replace (w + S (String.length acc) - S (String.length acc))%nat with w by lia.
      replace (S w + String.length acc - String.length acc)%nat with (S w) by lia.
      simpl. by rewrite zeros_snoc.
    + rewrite (pretty_N_go_step n) by lia.
      rewrite IH.
      * simpl String.length. do 2 f_equal. lia.
      * apply N.Div0.div_lt_upper_bound.
        replace (N.of_nat (S w)) with (N.succ (N.of_nat w)) in Hn by lia.
        by rewrite N.pow_succ_r' in Hn.
Qed.

Lemma pretty_N_go_bound n acc :
  (n < 10 ^ N.of_nat (String.length (pretty_N_go n acc) - String.length acc))%N.
Proof.
  revert acc. induction (N.lt_wf_0 n) as [n _ IH]. intros acc.
  destruct (decide (n = 0%N)) as [->|Hn].
  { apply pow10_pos. }
  rewrite pretty_N_go_step by lia.
  specialize (IH (n `div` 10)%N ltac:(apply N.div_lt; lia) (String (pretty_N_char (n `mod` 10)) acc)).
  pose proof (length_pretty_N_go (n `div` 10) (String (pretty_N_char (n `mod` 10)) acc)) as Hl.
  simpl String.length in *.
  set (L := String.length (pretty_N_go (n `div` 10) (String (pretty_N_char (n `mod` 10)) acc))) in *.
  replace (N.of_nat (L - String.length acc)) with (N.succ (N.of_nat (L - S (String.length acc)))) by lia.
  rewrite N.pow_succ_r'.
  pose proof (N.div_mod n 10 ltac:(lia)). pose proof (N.mod_lt n 10 ltac:(lia)). lia.
Qed.

Lemma ascii_compare_refl c : Ascii.compare c c = Eq.
Proof. unfold Ascii.compare. apply N.compare_refl. Qed.

Lemma compare_app_prefix (p s t : string) :
  String.compare (p +:+ s) (p +:+ t) = String.compare s t.
Proof.
  induction p as [|c p IH]; [done|].
  rewrite !app_cons. simpl. by rewrite ascii_compare_refl.
Qed.

Lemma digit_compare a b :
  (a < 10)%N → (b < 10)%N →
  Ascii.compare (pretty_N_char a) (pretty_N_char b) = N.compare a b.
Proof.
  intros Ha Hb.
  assert (Hd : ∀ x, (x < 10)%N → N_of_ascii (pretty_N_char x) = (48 + x)%N).
  { intros x Hx.
    assert (x = 0 ∨ x = 1 ∨ x = 2 ∨ x = 3 ∨ x = 4 ∨ x = 5 ∨ x = 6 ∨ x = 7
            ∨ x = 8 ∨ x = 9)%N as Hc by lia.
    repeat destruct Hc as [->|Hc]; try subst x; reflexivity. }
  unfold Ascii.compare. rewrite !Hd by done.
  destruct (N.compare_spec a b) as [->|?|?].
  - apply N.compare_refl.
  - apply N.compare_lt_iff. lia.
  - apply N.compare_gt_iff. lia.
Qed.

(** Fixed-width decimal fields compare as the numbers they render. *)
Lemma fixed_go_compare w a b acc1 acc2 :
  (a < 10 ^ N.of_nat w)%N → (b < 10 ^ N.of_nat w)%N →
  String.compare (fixed_go w a acc1) (fixed_go w b acc2) =
    match N.compare a b with
    | Eq => String.compare acc1 acc2
    | c => c
    end.
Proof.
  revert a b acc1 acc2. induction w as [|w IH]; intros a b acc1 acc2 Ha Hb.
  - assert (a = 0%N) as -> by (simpl in Ha; lia).
    assert (b = 0%N) as -> by (simpl in Hb; lia). done.
  - replace (N.of_nat (S w)) with (N.succ (N.of_nat w)) in * by lia.
    rewrite N.pow_succ_r' in Ha, Hb.
    simpl fixed_go. rewrite IH by (by apply N.Div0.div_lt_upper_bound).
    pose proof (N.div_mod a 10 ltac:(lia)). pose proof (N.mod_lt a 10 ltac:(lia)).
    pose proof (N.div_mod b 10 ltac:(lia)). pose proof (N.mod_lt b 10 ltac:(lia)).
    simpl String.compare. rewrite digit_compare by done.
    set (qa := (a `div` 10)%N) in *. set (ra := (a `mod` 10)%N) in *.
    set (qb := (b `div` 10)%N) in *. set (rb := (b `mod` 10)%N) in *.
    clearbody qa ra qb rb. clear IH.
    destruct (N.compare_spec qa qb) as [He|Hl|Hg].
    + destruct (N.compare_spec ra rb) as [He'|Hl'|Hg'].
      * replace b with a by lia. by rewrite N.compare_refl.
      * assert (a < b)%N as ->%N.compare_lt_iff by lia. done.
      * assert (b < a)%N as ->%N.compare_gt_iff by lia. done.
    + assert (a < b)%N as ->%N.compare_lt_iff by lia. done.
    + assert (b < a)%N as ->%N.compare_gt_iff by lia. done.
Qed.
(*
    destruct (N.compare_spec (a `div` 10) (b `div` 10)) as [He|Hl|Hg].
    + destruct (N.compare_spec (a `mod` 10) (b `mod` 10)) as [He'|Hl'|Hg'].
      * replace b with a by lia. by rewrite N.compare_refl.
      * assert (a < b)%N as ->%N.compare_lt_iff by lia. done.
      * assert (b < a)%N as ->%N.compare_gt_iff by lia. done.
    + assert (a < b)%N as ->%N.compare_lt_iff by lia. done.
    + assert (b < a)%N as ->%N.compare_gt_iff by lia. done.
Qed.
*)

Lemma fixed_go_app w n acc : fixed_go w n acc = fixed_go w n "" +:+ acc.
Proof.
  revert n acc. induction w as [|w IH]; intros n acc; [done|].
  simpl. rewrite IH, (IH _ (String _ "")).
  by rewrite app_assoc.
Qed.


Lemma pretty_N_go_head n acc c s :
  (0 < n)%N → pretty_N_go n acc = String c s → c ≠ "+"%char ∧ c ≠ "-"%char.
Proof.
  revert acc. induction (N.lt_wf_0 n) as [n _ IH]. intros acc Hn.
  rewrite pretty_N_go_step by done.
  destruct (decide (n `div` 10 = 0)%N) as [->|Hd].
  - rewrite pretty_N_go_0. intros [= <- _].
    unfold pretty_N_char. by repeat case_match.
  - intros Heq. eapply IH; [| |exact Heq].
    + apply N.div_lt; lia.
    + by apply N.neq_0_lt_0.
Qed.

(** [str(n).zfill(w)] of a positive [n] below [10^w] is the [w]-digit field. *)
Lemma zfill_str w (n : Z) :
  0 < n → n < 10 ^ w →
  zfill w (str n) = fixed_go (Z.to_nat w) (Z.to_N n) "".
Proof.
  intros Hn Hw.
  assert (0 <= w) as Hw0.
  { destruct (decide (0 <= w)); [done|]. rewrite Z.pow_neg_r in Hw; lia. }
  destruct n as [|p|p]; try lia.
  unfold str, pretty, pretty_Z, pretty, pretty_positive, pretty, pretty_N.
  rewrite decide_False by done. change (Z.to_N (Z.pos p)) with (N.pos p).
  assert (N.pos p < 10 ^ N.of_nat (Z.to_nat w))%N as Hb.
  { apply N2Z.inj_lt. rewrite N2Z.inj_pow. simpl Z.of_N at 1.
    replace (Z.of_N (N.of_nat (Z.to_nat w))) with w by lia. done. }
  pose proof (fixed_go_pretty _ _ "" Hb) as Hf.
  pose proof (length_fixed_go (Z.to_nat w) (N.pos p) "") as Hl.
  rewrite Hf, length_app, length_zeros in Hl. simpl String.length in *.
  set (s := pretty_N_go (N.pos p) "") in *.
  unfold zfill, len.
  destruct (Z.leb_spec w (Z.of_nat (String.length s))) as [Hle|Hgt].
  - rewrite Hf. replace (Z.to_nat w + 0 - String.length s)%nat with 0%nat by lia.
    done.
  - rewrite Hf. replace (Z.to_nat w + 0 - String.length s)%nat
      with (Z.to_nat (w - Z.of_nat (String.length s))) by lia.
    destruct s as [|c s'] eqn:Es; [by rewrite app_empty_r|].
    destruct (pretty_N_go_head (N.pos p) "" c s' ltac:(lia) Es) as [H1 H2].
    rewrite bool_decide_eq_false_2 by tauto. done.
Qed.

Lemma str_bound (n : Z) : 0 <= n → n < 10 ^ len (str n).
Proof.
  intros Hn. destruct n as [|p|p]; try lia; [done|].
  unfold str, pretty, pretty_Z, pretty, pretty_positive, pretty, pretty_N, len.
  rewrite decide_False by done.
  pose proof (pretty_N_go_bound (N.pos p) "") as Hb. simpl String.length in Hb.
  rewrite Nat.sub_0_r in Hb.
  apply N2Z.inj_lt in Hb. rewrite N2Z.inj_pow in Hb.
  by rewrite nat_N_Z in Hb.
Qed.
End PyFacts.

(** ** Rounding of doubles *)

Module Binary64Facts.
Import Py.

(** *** Digit counts and right shifts *)


Lemma Zdigits2_log2 p : Zdigits2 (Z.pos p) = Z.log2 (Z.pos p) + 1.
Proof.
  assert (H : ∀ q, Z.pos (digits2_pos q) = Z.pos (Pos.size q)).
  { induction q as [q IH|q IH|]; simpl; [..|done]; by rewrite !Pos2Z.inj_succ, IH. }
  simpl. rewrite H. destruct p; simpl; lia.
Qed.

Lemma Zdigits2_bounds p d : 2 ^ (d - 1) <= Z.pos p < 2 ^ d → 0 < d → Zdigits2 (Z.pos p) = d.
Proof.
  intros Hp Hd. rewrite Zdigits2_log2.
  assert (Z.log2 (Z.pos p) = d - 1) as ->; [|lia].
  apply Z.log2_unique; [lia|].
  by replace (Z.succ (d - 1)) with d by lia.
Qed.

Lemma iter_pos_nat {A} (f : A → A) p x :
  SpecFloat.iter_pos f p x = Nat.iter (Pos.to_nat p) f x.
Proof.
  revert x. induction p as [p IH|p IH|]; intros x; cbn [SpecFloat.iter_pos].
  - rewrite !IH, Pos2Nat.inj_xI.
    rewrite <- Nat.iter_succ_r, <- Nat.iter_add. f_equal. lia.
  - rewrite !IH, Pos2Nat.inj_xO, <- Nat.iter_add. f_equal. lia.
  - done.
Qed.


Lemma shr_1_spec mrs :
  0 <= shr_m mrs →
  shr_m (shr_1 mrs) = shr_m mrs `div` 2
  ∧ inexact (shr_1 mrs) = inexact mrs || Z.odd (shr_m mrs).
Proof.
  destruct mrs as [m r s]. unfold inexact. simpl. intros Hm.
  rewrite <- Z.div2_div.
  destruct m as [|[p|p|]|p]; try lia; (split; [done | by destruct r, s]).
Qed.

Lemma shr_iter_spec n mrs :
  0 <= shr_m mrs →
  shr_m (Nat.iter n shr_1 mrs) = shr_m mrs `div` 2 ^ Z.of_nat n
  ∧ inexact (Nat.iter n shr_1 mrs)
      = inexact mrs || negb (shr_m mrs `mod` 2 ^ Z.of_nat n =? 0).
Proof.
  intros Hm. induction n as [|n [IHm IHi]].
  - simpl. rewrite Z.div_1_r, Z.mod_1_r. simpl. by rewrite orb_false_r.
  - rewrite Nat.iter_succ.
    assert (0 <= shr_m (Nat.iter n shr_1 mrs)) as Hpos.
    { rewrite IHm. apply Z.div_pos; lia. }
    destruct (shr_1_spec _ Hpos) as [E1 E2]. rewrite E1, E2, IHm, IHi.
    replace (Z.of_nat (S n)) with (Z.of_nat n + 1) by lia.
    rewrite Z.pow_add_r, Z.pow_1_r by lia.
    set (P := 2 ^ Z.of_nat n). assert (0 < P) by (apply Z.pow_pos_nonneg; lia).
    split; [by rewrite Z.div_div by lia|].
    rewrite <- orb_assoc. f_equal.
    set (m := shr_m mrs) in *.
    pose proof (Z.div_mod m P ltac:(lia)) as Hd.
    pose proof (Z.mod_pos_bound m P ltac:(lia)) as Hb.
    set (q := m `div` P) in *. set (r := m `mod` P) in *.
    assert (m `mod` (P * 2) = P * (q `mod` 2) + r) as ->.
    { symmetry. apply Z.mod_unique_pos with (q := q `div` 2).
      - pose proof (Z.mod_pos_bound q 2 ltac:(lia)). nia.
      - pose proof (Z.div_mod q 2 ltac:(lia)). nia. }
    rewrite Zodd_mod.
    pose proof (Z.mod_pos_bound q 2 ltac:(lia)) as Hq2.
    destruct (Z.eqb_spec r 0), (Z.eqb_spec (q `mod` 2) 1),
      (Z.eqb_spec (P * q `mod` 2 + r) 0); simpl; try done; nia.
Qed.

Lemma fexp_normal x : -1074 <= x - 53 → fexp prec emax x = x - 53.
Proof. unfold fexp, emin, prec, emax. lia. Qed.

Lemma loc_exact_iff mrs : loc_of_shr_record mrs = loc_Exact ↔ inexact mrs = false.
Proof. destruct mrs as [m [] []]; unfold inexact; simpl; split; congruence. Qed.

Lemma record_of_loc_spec m l :
  shr_m (shr_record_of_loc m l) = m
  ∧ (inexact (shr_record_of_loc m l) = false ↔ l = loc_Exact).
Proof. destruct l as [|[]]; unfold inexact; simpl; split; try done; split; congruence. Qed.

Lemma round_nearest_even_cases m l :
  (round_nearest_even m l = m ∨ round_nearest_even m l = m + 1)
  ∧ (l = loc_Exact → round_nearest_even m l = m).
Proof.
  destruct l as [|[]]; simpl; (split; [|done]); try (by left); try (by right).
  destruct (Z.even m); [by left | by right].
Qed.

(** Shifting a mantissa of [d] digits down to 53. *)
Lemma shr_fexp_spec q e l d :
  53 <= d → 2 ^ (d - 1) <= q < 2 ^ d → -1074 <= e + (d - 53) →
  ∃ mrs, shr_fexp prec emax q e l = (mrs, e + (d - 53))
    ∧ shr_m mrs = q `div` 2 ^ (d - 53)
    ∧ (inexact mrs = false ↔ l = loc_Exact ∧ q `mod` 2 ^ (d - 53) = 0).
Proof.
  intros Hd Hq He.
  assert (0 < q) as Hpos.
  { pose proof (Z.pow_pos_nonneg 2 (d - 1)). lia. }
  destruct q as [|p|p]; try lia.
  unfold shr_fexp. rewrite (Zdigits2_bounds p d) by lia.
  rewrite fexp_normal by lia.
  replace (d + e - 53 - e) with (d - 53) by lia.
  destruct (record_of_loc_spec (Z.pos p) l) as [Em Ei].
  destruct (decide (d = 53)) as [->|Hne].
  - simpl. eexists. split; [by rewrite Z.add_0_r|].
    rewrite Z.div_1_r, Z.mod_1_r. split; [done|]. rewrite Ei. tauto.
  - destruct (d - 53) as [|k|k] eqn:Ek; try lia.
    unfold shr. rewrite iter_pos_nat. eexists. split; [done|].
    destruct (shr_iter_spec (Pos.to_nat k) (shr_record_of_loc (Z.pos p) l)) as [E1 E2].
    { rewrite Em. lia. }
    rewrite E1, E2, Em, positive_nat_Z. split; [done|].
    rewrite orb_false_iff, Ei, negb_false_iff, Z.eqb_eq. tauto.
Qed.

(** What [binary_round_aux] yields for a positive mantissa of at least 53
    digits away from the subnormal and the overflow range: the mantissa
    brought down to 53 digits, or the next one up; the former when nothing
    is lost. *)
Lemma round_aux_faithful q e l d :
  53 <= d → 2 ^ (d - 1) <= q < 2 ^ d → -1074 <= e + (d - 53) → e + (d - 53) < 971 →
  ∃ m e',
    binary_round_aux prec emax false q e l = S754_finite false m e'
    ∧ 2 ^ 52 <= Z.pos m < 2 ^ 53
    ∧ -1074 <= e' <= 971
    ∧ (Z.pos m * 2 ^ (e' + 1074) = q `div` 2 ^ (d - 53) * 2 ^ (e + (d - 53) + 1074)
       ∨ Z.pos m * 2 ^ (e' + 1074)
           = (q `div` 2 ^ (d - 53) + 1) * 2 ^ (e + (d - 53) + 1074))
    ∧ (l = loc_Exact → q `mod` 2 ^ (d - 53) = 0 →
       Z.pos m * 2 ^ (e' + 1074) = q `div` 2 ^ (d - 53) * 2 ^ (e + (d - 53) + 1074)).
Proof.
  intros Hd Hq He1 He2.
  destruct (shr_fexp_spec q e l d Hd Hq He1) as (mrs & Eshr & Em & Ei).
  unfold binary_round_aux. rewrite Eshr. cbv beta iota. rewrite Em.
  set (k := d - 53) in *. set (f := q `div` 2 ^ k) in *.
  assert (2 ^ 52 <= f < 2 ^ 53) as Hf.
  { subst f k. replace (2 ^ (d - 1)) with (2 ^ 52 * 2 ^ (d - 53)) in Hq
      by (rewrite <- Z.pow_add_r by lia; f_equal; lia).
    replace (2 ^ d) with (2 ^ 53 * 2 ^ (d - 53)) in Hq
      by (rewrite <- Z.pow_add_r by lia; f_equal; lia).
    pose proof (Z.pow_pos_nonneg 2 (d - 53) ltac:(lia) ltac:(lia)) as HP.
    split.
    - apply Z.div_le_lower_bound; lia.
    - apply Z.div_lt_upper_bound; lia. }
  destruct (round_nearest_even_cases (shr_m mrs) (loc_of_shr_record mrs)) as [Hr Hex].
  rewrite Em in Hr, Hex. fold f in Hr, Hex.
  set (M := round_nearest_even f (loc_of_shr_record mrs)) in *.
  assert (l = loc_Exact → q `mod` 2 ^ k = 0 → M = f) as Hexact.
  { intros Hl Hq0. apply Hex. apply loc_exact_iff. apply Ei. done. }
  clearbody M. clear Hex.
  destruct (decide (M < 2 ^ 53)) as [Hlt|Hge].
  - (* no carry *)
    destruct (shr_fexp_spec M (e + k) loc_Exact 53) as (mrs2 & Eshr2 & Em2 & _);
      [lia | change (2 ^ (53 - 1)) with (2 ^ 52); lia | lia |].
    rewrite Eshr2. change (53 - 53) with 0 in *. rewrite Z.div_1_r in Em2.
    rewrite Em2, Z.add_0_r.
    destruct M as [|pm|pm]; try lia.
    change (emax - prec) with 971.
    rewrite (proj2 (Z.leb_le _ _)) by lia.
    exists pm, (e + k). split; [done|]. split; [lia|]. split; [lia|].
    split; [destruct Hr as [->| ->]; [by left | by right]|].
    intros ??. by rewrite Hexact.
  - (* the mantissa rounds up to 2^53 *)
    assert (M = 2 ^ 53) as -> by lia.
    destruct (shr_fexp_spec (2 ^ 53) (e + k) loc_Exact 54) as (mrs2 & Eshr2 & Em2 & _);
      [lia | change (2 ^ (54 - 1)) with (2 ^ 53); lia | lia |].
    rewrite Eshr2. change (54 - 53) with 1 in *.
    change (2 ^ 53 `div` 2 ^ 1) with (Z.pos (Z.to_pos (2 ^ 52))) in Em2.
    rewrite Em2. change (emax - prec) with 971.
    rewrite (proj2 (Z.leb_le _ _)) by lia.
    eexists _, _. split; [done|].
    assert (Z.pos (Z.to_pos (2 ^ 52)) = 2 ^ 52) as -> by done.
    split; [lia|]. split; [lia|].
    assert (f + 1 = 2 ^ 53) as Hf1 by lia.
    assert (2 ^ 52 * 2 ^ (e + k + 1 + 1074) = (f + 1) * 2 ^ (e + k + 1074)) as Hv.
    { rewrite Hf1. replace (e + k + 1 + 1074) with (1 + (e + k + 1074)) by lia.
      rewrite Z.pow_add_r by lia. change (2 ^ 53) with (2 ^ 52 * 2 ^ 1). lia. }
    split; [by right|].
    intros Hl Hq0. pose proof (Hexact Hl Hq0). lia.
Qed.


(** *** Values and their neighbours *)

Lemma pow2_pos x : 0 <= x → 0 < 2 ^ x.
Proof. intros. apply Z.pow_pos_nonneg; lia. Qed.

Lemma pow2_split a b : 0 <= b <= a → 2 ^ a = 2 ^ (a - b) * 2 ^ b.
Proof. intros. rewrite <- Z.pow_add_r by lia. f_equal. lia. Qed.

Lemma pow2_le a b : 0 <= a <= b → 2 ^ a <= 2 ^ b.
Proof. intros. apply Z.pow_le_mono_r; lia. Qed.

(** Rounding to one of the two neighbours, and to the value itself when it
    is representable, keeps the result on the right side of every
    representable number and within one part in [2^52].  The value rounded
    is [A / D]; [f * U] and [(f + 1) * U] are its neighbours. *)
Lemma faithful_bounds (A D f E r : Z) :
  let U := 2 ^ (E + 1074) in
  0 < D → -1074 <= E → 2 ^ 52 <= f < 2 ^ 53 →
  f * U * D <= A < (f + 1) * U * D →
  (r = f * U ∨ r = (f + 1) * U) →
  (A = f * U * D → r = f * U) →
  (∀ t, representable t → t * D <= A → t <= r)
  ∧ (∀ t, representable t → A <= t * D → r <= t)
  ∧ 2 ^ 52 * Z.abs (r * D - A) <= A.
Proof.
  intros U HD HE Hf HA Hr Hex.
  assert (0 < U) as HU by (apply pow2_pos; lia).
  assert (∀ t, representable t → (∃ j, t = j * U) ∨ t < 2 ^ 52 * U) as Hgrid.
  { intros t (m & e & [Hm He] & ->). unfold scaled.
    destruct (decide (E <= e)) as [Hle|Hgt].
    - left. exists (Z.pos m * 2 ^ (e - E)). subst U.
      rewrite (pow2_split (e + 1074) (E + 1074)) by lia.
      replace (e + 1074 - (E + 1074)) with (e - E) by lia. lia.
    - right. subst U.
      rewrite (pow2_split (E + 1074) (e + 1074)) by lia.
      assert (2 <= 2 ^ (E + 1074 - (e + 1074))).
      { change 2 with (2 ^ 1) at 1. apply pow2_le. lia. }
      pose proof (pow2_pos (e + 1074) ltac:(lia)).
      change (2 ^ 53) with (2 ^ 52 * 2) in Hm. nia. }
  split; [|split].
  - intros t Ht HtA. destruct (Hgrid t Ht) as [[j ->]|Hsmall].
    + assert (j < f + 1) by nia. destruct Hr as [->| ->]; nia.
    + destruct Hr as [->| ->]; nia.
  - intros t Ht HtA. destruct (Hgrid t Ht) as [[j ->]|Hsmall].
    + destruct (decide (A = f * U * D)) as [Heq|Hne].
      * rewrite (Hex Heq). assert (f <= j) by nia. nia.
      * assert (f < j) by nia. destruct Hr as [->| ->]; nia.
    + nia.
  - destruct Hr as [->| ->]; nia.
Qed.

Lemma exponent_window m e a b :
  2 ^ 52 <= Z.pos m < 2 ^ 53 → -1074 <= e → 53 <= a →
  2 ^ a <= Z.pos m * 2 ^ (e + 1074) <= 2 ^ b →
  a - 53 < e + 1074 <= b - 52.
Proof.
  intros Hm He Ha Hv.
  pose proof (pow2_pos (e + 1074) ltac:(lia)) as HP.
  split.
  - destruct (decide (a - 53 < e + 1074)); [done|].
    pose proof (pow2_le (e + 1074) (a - 53) ltac:(lia)).
    rewrite (pow2_split a 53) in Hv by lia. nia.
  - destruct (decide (e + 1074 <= b - 52)); [done|].
    assert (0 <= b).
    { destruct (decide (0 <= b)); [done|]. rewrite (Z.pow_neg_r 2 b) in Hv by lia. nia. }
    destruct (decide (52 <= b)) as [Hb|Hb].
    + pose proof (pow2_le (b - 52 + 1) (e + 1074) ltac:(lia)) as Hp.
      rewrite (pow2_split b 52) in Hv by lia.
      rewrite Z.pow_add_r, Z.pow_1_r in Hp by lia.
      pose proof (pow2_pos (b - 52) ltac:(lia)). nia.
    + pose proof (pow2_le b 51 ltac:(lia)).
      change (2 ^ 52) with (2 * 2 ^ 51) in Hm. nia.
Qed.


(** *** Multiplication and division

    Stated for operands between [2^-474] and [2^426], where neither
    underflow nor overflow can occur. *)

Lemma SFmul_rounds x y vx vy :
  represents x vx → represents y vy →
  2 ^ 600 <= vx <= 2 ^ 1500 → 2 ^ 600 <= vy <= 2 ^ 1500 →
  rounds_to (SFmul prec emax x y) (vx * vy) unit_scale.
Proof.
  intros (mx & ex & -> & [Hmx Hex] & ->) (my & ey & -> & [Hmy Hey] & ->) Hvx Hvy.
  unfold scaled in *.
  pose proof (exponent_window mx ex 600 1500 Hmx ltac:(lia) ltac:(lia) Hvx) as Hex'.
  pose proof (exponent_window my ey 600 1500 Hmy ltac:(lia) ltac:(lia) Hvy) as Hey'.
  simpl SFmul. rewrite Pos2Z.inj_mul.
  set (q := Z.pos mx * Z.pos my).
  assert (2 ^ 104 <= q < 2 ^ 106) as Hq.
  { subst q. change (2 ^ 104) with (2 ^ 52 * 2 ^ 52).
    change (2 ^ 106) with (2 ^ 53 * 2 ^ 53). nia. }
  assert (∃ d, 105 <= d <= 106 ∧ 2 ^ (d - 1) <= q < 2 ^ d) as (d & Hd & Hqd).
  { destruct (decide (q < 2 ^ 105)); [exists 105 | exists 106];
      (split; [lia|]); simpl Z.sub; lia. }
  destruct (round_aux_faithful q (ex + ey) loc_Exact d) as
    (m & e' & -> & Hm & He' & Hr & Hexact); [lia.. |].
  set (k := d - 53) in *. set (f := q `div` 2 ^ k) in *.
  set (E := ex + ey + k) in *.
  assert (0 < 2 ^ k) as Hk by (apply pow2_pos; lia).
  pose proof (Z.div_mod q (2 ^ k) ltac:(lia)) as Hdm.
  pose proof (Z.mod_pos_bound q (2 ^ k) ltac:(lia)) as Hmod. fold f in Hdm.
  assert (2 ^ 52 <= f < 2 ^ 53) as Hf.
  { subst f. split.
    - apply Z.div_le_lower_bound; [lia|].
      rewrite <- Z.pow_add_r by lia. etrans; [|apply Hqd].
      apply pow2_le. lia.
    - apply Z.div_lt_upper_bound; [lia|].
      rewrite <- Z.pow_add_r by lia. replace (k + 53) with d by lia. lia. }
  (* the product of the two values, in units of 2^(E + 1074) *)
  assert (Z.pos mx * 2 ^ (ex + 1074) * (Z.pos my * 2 ^ (ey + 1074))
          = q * 2 ^ (ex + ey + 1074) * unit_scale) as Hprod.
  { subst q. unfold unit_scale.
    assert (2 ^ (ex + 1074) * 2 ^ (ey + 1074) = 2 ^ (ex + ey + 1074) * 2 ^ 1074) as Hp.
    { rewrite <- !Z.pow_add_r by lia. f_equal. lia. }
    nia. }
  assert (2 ^ (E + 1074) = 2 ^ k * 2 ^ (ex + ey + 1074)) as HU.
  { subst E. rewrite <- Z.pow_add_r by lia. f_equal. lia. }
  set (PP := 2 ^ (ex + ey + 1074)) in *.
  assert (0 < PP) as HP by (apply pow2_pos; lia).
  assert (0 < unit_scale) as HB by (by apply pow2_pos).
  assert (0 < PP * unit_scale) as HPB by (by apply Z.mul_pos_pos).
  clearbody PP.
  destruct (faithful_bounds (Z.pos mx * 2 ^ (ex + 1074) * (Z.pos my * 2 ^ (ey + 1074)))
              unit_scale f E (Z.pos m * 2 ^ (e' + 1074))) as (Hlo & Hhi & Herr).
  - done.
  - subst E. lia.
  - done.
  - rewrite Hprod, HU.
    replace (f * (2 ^ k * PP) * unit_scale) with (2 ^ k * f * (PP * unit_scale)) by lia.
    replace ((f + 1) * (2 ^ k * PP) * unit_scale)
      with ((2 ^ k * f + 2 ^ k) * (PP * unit_scale)) by lia.
    replace (q * PP * unit_scale) with (q * (PP * unit_scale)) by lia.
    split; [apply Z.mul_le_mono_nonneg_r | apply Z.mul_lt_mono_pos_r]; lia.
  - done.
  - intros HA. apply Hexact; [done|].
    rewrite Hprod, HU in HA.
    assert (q = 2 ^ k * f) as Hq'; [|lia].
    apply (Z.mul_cancel_r _ _ (PP * unit_scale)); lia.
  - exists (Z.pos m * 2 ^ (e' + 1074)). split; [|done].
    exists m, e'. done.
Qed.

Lemma new_location_exact n r : new_location n r = loc_Exact ↔ r = 0.
Proof.
  unfold new_location, new_location_even, new_location_odd.
  destruct (Z.even n), (Z.eqb_spec r 0); split; congruence.
Qed.

Lemma SFdiv_core_spec mx ex my ey :
  2 ^ 52 <= Z.pos mx < 2 ^ 53 → 2 ^ 52 <= Z.pos my < 2 ^ 53 →
  -1074 <= ex - ey - 53 →
  SFdiv_core_binary prec emax (Z.pos mx) ex (Z.pos my) ey
  = ((Z.pos mx * 2 ^ 53) `div` Z.pos my, ex - ey - 53,
     new_location (Z.pos my) ((Z.pos mx * 2 ^ 53) `mod` Z.pos my)).
Proof.
  intros Hmx Hmy He. unfold SFdiv_core_binary.
  rewrite (Zdigits2_bounds mx 53), (Zdigits2_bounds my 53) by (simpl Z.sub; lia).
  replace (53 + ex - (53 + ey)) with (ex - ey) by lia.
  rewrite fexp_normal by lia. rewrite Z.min_l by lia.
  replace (ex - ey - (ex - ey - 53)) with 53 by lia. cbv zeta iota.
  rewrite Z.shiftl_mul_pow2 by lia.
  unfold Z.div, Z.modulo.
  by destruct (Z.div_eucl (Z.pos mx * 2 ^ 53) (Z.pos my)).
Qed.


Lemma SFdiv_rounds x y vx vy :
  represents x vx → represents y vy →
  2 ^ 600 <= vx <= 2 ^ 1500 → 2 ^ 600 <= vy <= 2 ^ 1500 →
  rounds_to (SFdiv prec emax x y) (vx * unit_scale) vy.
Proof.
  intros (mx & ex & -> & [Hmx Hex] & ->) (my & ey & -> & [Hmy Hey] & ->) Hvx Hvy.
  unfold scaled in *.
  pose proof (exponent_window mx ex 600 1500 Hmx ltac:(lia) ltac:(lia) Hvx) as Hex'.
  pose proof (exponent_window my ey 600 1500 Hmy ltac:(lia) ltac:(lia) Hvy) as Hey'.
  unfold SFdiv. rewrite SFdiv_core_spec by (done || lia).
  cbv beta iota. change (xorb false false) with false.
  set (n := Z.pos mx * 2 ^ 53). set (c := Z.pos my).
  assert (0 < c) as Hc by done.
  pose proof (Z.div_mod n c ltac:(lia)) as Hdm.
  pose proof (Z.mod_pos_bound n c ltac:(lia)) as Hmod.
  set (q := n `div` c) in *. set (rem := n `mod` c) in *.
  assert (2 ^ 52 <= q < 2 ^ 54) as Hq.
  { subst n. fold c in Hmy. change (2 ^ 54) with (2 * 2 ^ 53).
    change (2 ^ 53) with (2 * 2 ^ 52) in *. nia. }
  assert (∃ d, 53 <= d <= 54 ∧ 2 ^ (d - 1) <= q < 2 ^ d) as (d & Hd & Hqd).
  { destruct (decide (q < 2 ^ 53)); [exists 53 | exists 54];
      (split; [lia|]); simpl Z.sub; lia. }
  destruct (round_aux_faithful q (ex - ey - 53) (new_location c rem) d) as
    (m & e' & -> & Hm & He' & Hr & Hexact); [lia.. |].
  set (k := d - 53) in *. set (f := q `div` 2 ^ k) in *.
  set (E := ex - ey - 53 + k) in *.
  assert (0 < 2 ^ k) as Hk by (apply pow2_pos; lia).
  pose proof (Z.div_mod q (2 ^ k) ltac:(lia)) as Hdq.
  pose proof (Z.mod_pos_bound q (2 ^ k) ltac:(lia)) as Hmq. fold f in Hdq.
  set (rq := q `mod` 2 ^ k) in *.
  assert (2 ^ 52 <= f < 2 ^ 53) as Hf.
  { subst f. split.
    - apply Z.div_le_lower_bound; [lia|].
      rewrite <- Z.pow_add_r by lia. etrans; [|apply Hqd].
      apply pow2_le. lia.
    - apply Z.div_lt_upper_bound; [lia|].
      rewrite <- Z.pow_add_r by lia. replace (k + 53) with d by lia. lia. }
  (* the quotient of the two values, in units of 2^(E + 1074) *)
  set (Py := 2 ^ (ey + 1074)) in *.
  set (T := 2 ^ (ex - ey - 53 + 1074)).
  assert (0 < Py) as HPy by (apply pow2_pos; lia).
  assert (0 < T) as HT by (apply pow2_pos; lia).
  assert (2 ^ (ex + 1074) * unit_scale = 2 ^ 53 * T * Py) as Hprod.
  { subst T Py. unfold unit_scale. rewrite <- !Z.pow_add_r by lia. f_equal. lia. }
  assert (2 ^ (E + 1074) = 2 ^ k * T) as HU.
  { subst E T. rewrite <- Z.pow_add_r by lia. f_equal. lia. }
  assert (Z.pos mx * 2 ^ (ex + 1074) * unit_scale = n * T * Py) as HA.
  { subst n. rewrite <- Z.mul_assoc, Hprod. lia. }
  assert (n = c * 2 ^ k * f + (c * rq + rem)) as Hn by lia.
  assert (0 <= c * rq <= c * 2 ^ k - c) as Hcr.
  { split; [apply Z.mul_nonneg_nonneg; lia|].
    replace (c * 2 ^ k - c) with (c * (2 ^ k - 1)) by lia.
    apply Z.mul_le_mono_nonneg_l; lia. }
  assert (0 < T * Py) as HTP by (by apply Z.mul_pos_pos).
  clearbody q rem rq f T Py n.
  destruct (faithful_bounds (Z.pos mx * 2 ^ (ex + 1074) * unit_scale)
              (c * Py) f E (Z.pos m * 2 ^ (e' + 1074))) as (Hlo & Hhi & Herr).
  - by apply Z.mul_pos_pos.
  - subst E. lia.
  - done.
  - rewrite HA, HU.
    replace (f * (2 ^ k * T) * (c * Py)) with (c * 2 ^ k * f * (T * Py)) by lia.
    replace ((f + 1) * (2 ^ k * T) * (c * Py))
      with ((c * 2 ^ k * f + c * 2 ^ k) * (T * Py)) by lia.
    replace (n * T * Py) with (n * (T * Py)) by lia.
    split; [apply Z.mul_le_mono_nonneg_r | apply Z.mul_lt_mono_pos_r]; lia.
  - done.
  - intros HA'. rewrite HA, HU in HA'.
    assert (n = c * 2 ^ k * f) as Hn'.
    { apply (Z.mul_cancel_r _ _ (T * Py)); lia. }
    assert (c * rq = 0 ∧ rem = 0) as [Hrq ->] by lia.
    apply Hexact; [by apply new_location_exact|].
    apply Z.mul_eq_0 in Hrq. lia.
  - exists (Z.pos m * 2 ^ (e' + 1074)). split; [|done].
    exists m, e'. done.
Qed.



(** *** Conversion from [int], comparison, and the primitive operations *)

Lemma iter_xO p n : Z.pos (Pos.iter xO p n) = Z.pos p * 2 ^ Z.pos n.
Proof.
  induction n as [|n IH] using Pos.peano_ind.
  - simpl. lia.
  - rewrite Pos.iter_succ, Pos2Z.inj_xO, IH, Pos2Z.inj_succ, Z.pow_succ_r by lia. lia.
Qed.

Lemma digits_bounds p :
  let d := Zdigits2 (Z.pos p) in 1 <= d ∧ 2 ^ (d - 1) <= Z.pos p < 2 ^ d.
Proof.
  intros d. subst d. rewrite Zdigits2_log2.
  pose proof (Z.log2_nonneg (Z.pos p)).
  pose proof (Z.log2_spec (Z.pos p) ltac:(lia)) as Hs.
  replace (Z.log2 (Z.pos p) + 1 - 1) with (Z.log2 (Z.pos p)) by lia.
  split; [lia|]. by rewrite <- Z.add_1_r in Hs.
Qed.

Lemma shl_align_spec p d :
  1 <= d <= 53 →
  ∃ mz, shl_align p 0 (d - 53) = (mz, d - 53) ∧ Z.pos mz = Z.pos p * 2 ^ (53 - d).
Proof.
  intros Hd. unfold shl_align. rewrite Z.sub_0_r.
  destruct (d - 53) as [|k|k] eqn:Ek; try lia.
  - exists p. split; [done|]. replace (53 - d) with 0 by lia. lia.
  - eexists. split; [done|]. rewrite iter_xO. do 2 f_equal. lia.
Qed.

(** [float(n)] of a positive int below [2^53] is exact. *)
Lemma binary_round_int p :
  Z.pos p < 2 ^ 53 → represents (binary_round prec emax false p 0) (Z.pos p * unit_scale).
Proof.
  intros Hp. unfold binary_round.
  change (Z.pos (digits2_pos p)) with (Zdigits2 (Z.pos p)).
  destruct (digits_bounds p) as [Hd1 Hd]. set (d := Zdigits2 (Z.pos p)) in *.
  assert (d <= 53) as Hd2.
  { destruct (decide (d <= 53)); [done|].
    pose proof (pow2_le 53 (d - 1) ltac:(lia)). lia. }
  rewrite Z.add_0_r, fexp_normal by lia.
  destruct (shl_align_spec p d ltac:(lia)) as (mz & -> & Emz).
  assert (2 ^ 52 <= Z.pos mz < 2 ^ 53) as Hmz.
  { rewrite Emz. rewrite (pow2_split 52 (53 - d)), (pow2_split 53 (53 - d)) by lia.
    replace (52 - (53 - d)) with (d - 1) by lia.
    replace (53 - (53 - d)) with d by lia.
    pose proof (pow2_pos (53 - d) ltac:(lia)). nia. }
  destruct (round_aux_faithful (Z.pos mz) (d - 53) loc_Exact 53) as
    (m & e' & -> & Hm & He' & _ & Hexact); [lia | done | lia | lia |].
  exists m, e'. split; [done|]. split; [done|].
  unfold scaled. rewrite Hexact; [|done|by rewrite Z.sub_diag, Z.mod_1_r].
  rewrite Z.sub_diag, Z.div_1_r, Z.add_0_r, Emz. unfold unit_scale.
  rewrite (pow2_split 1074 (53 - d)) by lia.
  replace (d - 53 + 1074) with (1074 - (53 - d)) by lia. lia.
Qed.

Lemma valid_canonical m e : canonical m e → valid_binary (S754_finite false m e) = true.
Proof.
  intros [Hm He]. unfold SpecFloat.valid_binary, bounded, canonical_mantissa.
  change (Z.pos (digits2_pos m)) with (Zdigits2 (Z.pos m)).
  rewrite (Zdigits2_bounds m 53) by (simpl Z.sub; lia).
  rewrite fexp_normal by lia. change (emax - prec) with 971.
  apply andb_true_intro. split; [apply Z.eqb_eq | apply Z.leb_le]; lia.
Qed.

Lemma float_value_SF2Prim f v : represents f v → float_value (SF2Prim f) v.
Proof.
  intros (m & e & -> & Hc & ->). unfold float_value.
  rewrite Prim2SF_SF2Prim by by apply valid_canonical.
  by exists m, e.
Qed.

Lemma float_of_int_value n : 1 <= n < 2 ^ 53 → float_value (float_of_int n) (n * unit_scale).
Proof.
  intros Hn. destruct n as [|p|p]; try lia.
  apply float_value_SF2Prim. apply binary_round_int. lia.
Qed.

Lemma float_one_value : float_value 1 unit_scale.
Proof.
  exists 4503599627370496%positive, (-52). split; [by vm_compute|].
  split; [|by vm_compute]. split; by vm_compute.
Qed.

(** A larger exponent is a larger value. *)
Lemma scaled_lt m1 e1 m2 e2 :
  canonical m1 e1 → canonical m2 e2 → e1 < e2 → scaled m1 e1 < scaled m2 e2.
Proof.
  intros [Hm1 He1] [Hm2 He2] Hlt. unfold scaled.
  rewrite (pow2_split (e2 + 1074) (e1 + 1074)) by lia.
  assert (2 <= 2 ^ (e2 + 1074 - (e1 + 1074))).
  { change 2 with (2 ^ 1) at 1. apply pow2_le. lia. }
  set (P := 2 ^ (e1 + 1074)). set (K := 2 ^ (e2 + 1074 - (e1 + 1074))) in *.
  assert (0 < P) by (apply pow2_pos; lia).
  assert (Z.pos m1 * P < 2 ^ 53 * P) by (apply Z.mul_lt_mono_pos_r; lia).
  assert (2 ^ 53 <= Z.pos m2 * K).
  { change (2 ^ 53) with (2 ^ 52 * 2). apply Z.mul_le_mono_nonneg; lia. }
  assert (2 ^ 53 * P <= Z.pos m2 * K * P) by (apply Z.mul_le_mono_nonneg_r; lia).
  lia.
Qed.

(** Two doubles with the same value are the same double. *)
Lemma represents_inj f g v : represents f v → represents g v → f = g.
Proof.
  intros (m1 & e1 & -> & Hc1 & ->) (m2 & e2 & -> & Hc2 & Hv).
  destruct (Z.lt_trichotomy e1 e2) as [Hlt|[->|Hgt]].
  - pose proof (scaled_lt _ _ _ _ Hc1 Hc2 Hlt). lia.
  - unfold scaled in Hv. destruct Hc1 as [_ ?].
    pose proof (pow2_pos (e2 + 1074) ltac:(lia)).
    assert (Z.pos m1 = Z.pos m2) as [= ->] by nia. done.
  - pose proof (scaled_lt _ _ _ _ Hc2 Hc1 ltac:(lia)). lia.
Qed.

Lemma float_value_inj x y v : float_value x v → float_value y v → x = y.
Proof. intros Hx Hy. apply Prim2SF_inj. by apply (represents_inj _ _ v). Qed.

Lemma SFltb_represents f g u v : represents f u → represents g v → u < v → SFltb f g = true.
Proof.
  intros (m1 & e1 & -> & Hc1 & ->) (m2 & e2 & -> & Hc2 & ->) Hlt.
  unfold SFltb, SFcompare.
  destruct (Z.compare_spec e1 e2) as [->|Hlt'|Hgt]; [|done|].
  - change (Pos.compare_cont Eq m1 m2) with (Z.pos m1 ?= Z.pos m2).
    unfold scaled in Hlt. destruct Hc1 as [_ ?].
    pose proof (pow2_pos (e2 + 1074) ltac:(lia)).
    assert (Z.pos m1 < Z.pos m2) as ->%Z.compare_lt_iff by nia. done.
  - pose proof (scaled_lt _ _ _ _ Hc2 Hc1 ltac:(lia)). lia.
Qed.

Lemma ltb_float_value x y u v : float_value x u → float_value y v → u < v → (x <? y)%float = true.
Proof. intros Hx Hy Hlt. rewrite ltb_spec. by apply (SFltb_represents _ _ u v). Qed.

Lemma mul_rounds x y vx vy :
  float_value x vx → float_value y vy →
  2 ^ 600 <= vx <= 2 ^ 1500 → 2 ^ 600 <= vy <= 2 ^ 1500 →
  rounds_to (Prim2SF (x * y)) (vx * vy) unit_scale.
Proof. intros. rewrite mul_spec. by apply SFmul_rounds. Qed.

Lemma div_rounds x y vx vy :
  float_value x vx → float_value y vy →
  2 ^ 600 <= vx <= 2 ^ 1500 → 2 ^ 600 <= vy <= 2 ^ 1500 →
  rounds_to (Prim2SF (x / y)) (vx * unit_scale) vy.
Proof. intros. rewrite div_spec. by apply SFdiv_rounds. Qed.

Lemma represents_representable f v : represents f v → representable v.
Proof. intros (m & e & _ & ? & ?). by exists m, e. Qed.

Lemma unit_scale_pos : 0 < unit_scale.
Proof. by apply pow2_pos. Qed.

Lemma int_window n : 1 <= n < 2 ^ 53 → 2 ^ 600 <= n * unit_scale <= 2 ^ 1500.
Proof.
  intros Hn. pose proof unit_scale_pos as HB.
  assert (2 ^ 600 <= unit_scale) by (by apply pow2_le).
  assert (2 ^ 53 * unit_scale <= 2 ^ 1500).
  { unfold unit_scale. rewrite <- Z.pow_add_r by lia. by apply pow2_le. }
  nia.
Qed.

(** An integer below [2^53] times a power of two is a double. *)
Lemma representable_int k s : 1 <= k < 2 ^ 53 → 52 <= s <= 2000 → representable (k * 2 ^ s).
Proof.
  intros Hk Hs. destruct k as [|p|p]; try lia.
  destruct (binary_round_int p ltac:(lia)) as (m & e & _ & [Hm He] & Hv).
  unfold scaled in Hv.
  assert (2 ^ 1074 <= Z.pos m * 2 ^ (e + 1074) <= 2 ^ 1127) as Hw.
  { rewrite <- Hv. unfold unit_scale. change (2 ^ 1127) with (2 ^ 53 * 2 ^ 1074).
    pose proof (pow2_pos 1074 ltac:(lia)). nia. }
  pose proof (exponent_window m e 1074 1127 Hm ltac:(lia) ltac:(lia) Hw) as Hw'.
  exists m, (e + s - 1074). split; [split; [done|lia]|].
  unfold scaled.
  assert (Z.pos p * 2 ^ s * 2 ^ 1074 = Z.pos m * 2 ^ (e + s - 1074 + 1074) * 2 ^ 1074) as Heq.
  { replace (e + s - 1074 + 1074) with (e + 1074 + s - 1074) by lia.
    rewrite <- (Z.mul_assoc (Z.pos m)), <- (Z.pow_add_r 2 (e + 1074 + s - 1074)) by lia.
    replace (e + 1074 + s - 1074 + 1074) with ((e + 1074) + s) by lia.
    rewrite Z.pow_add_r by lia. unfold unit_scale in Hv. lia. }
  apply Z.mul_cancel_r in Heq; [done|]. pose proof (pow2_pos 1074 ltac:(lia)). lia.
Qed.

(** [i * 1.0 / count]: the double next to [i / count]. *)
Lemma ratio_rounds i c :
  1 <= i <= c → c < 2 ^ 53 →
  ∃ rb, float_value (float_of_int i * 1 / float_of_int c) rb
    ∧ 2 ^ 600 <= rb <= 2 ^ 1500
    ∧ (∀ t, representable t → t * c <= i * unit_scale → t <= rb)
    ∧ (∀ t, representable t → i * unit_scale <= t * c → rb <= t)
    ∧ 2 ^ 52 * Z.abs (rb * c - i * unit_scale) <= i * unit_scale.
Proof.
  intros Hi Hc. pose proof unit_scale_pos as HB.
  pose proof (float_of_int_value i ltac:(lia)) as Vi.
  pose proof (float_of_int_value c ltac:(lia)) as Vc.
  pose proof (int_window i ltac:(lia)) as Wi.
  pose proof (int_window c ltac:(lia)) as Wc.
  pose proof (int_window 1 ltac:(lia)) as W1. rewrite Z.mul_1_l in W1.
  (* multiplying by 1.0 changes nothing *)
  assert (float_value (float_of_int i * 1) (i * unit_scale)) as V1.
  { destruct (mul_rounds _ _ _ _ Vi float_one_value Wi W1) as (r & Hr & Hlo & Hhi & _).
    pose proof (represents_representable _ _ Vi) as Hrep.
    pose proof (Hlo _ Hrep ltac:(lia)). pose proof (Hhi _ Hrep ltac:(lia)).
    by replace (i * unit_scale) with r by lia. }
  destruct (div_rounds _ _ _ _ V1 Vc Wi Wc) as (r & Hr & Hlo & Hhi & Herr).
  assert (∀ t, t * (c * unit_scale) = t * c * unit_scale) as Hassoc by (intros; lia).
  assert (r <= unit_scale) as Hle.
  { apply Hhi.
    - replace unit_scale with (1 * 2 ^ 1074) by done. by apply representable_int.
    - rewrite Hassoc, (Z.mul_comm unit_scale c).
      apply Z.mul_le_mono_nonneg_r; [lia|]. apply Z.mul_le_mono_nonneg_r; lia. }
  assert (2 ^ 1021 <= r) as Hge.
  { apply Hlo.
    - replace (2 ^ 1021) with (1 * 2 ^ 1021) by done. by apply representable_int.
    - rewrite Hassoc. apply Z.mul_le_mono_nonneg_r; [lia|].
      etrans; [|apply Z.mul_le_mono_nonneg_r with (n := 1); lia].
      rewrite Z.mul_1_l. unfold unit_scale. change (2 ^ 1074) with (2 ^ 1021 * 2 ^ 53).
      apply Z.mul_le_mono_nonneg_l; lia. }
  exists r. split; [done|]. split.
  { split; [etrans; [|apply Hge]; by apply pow2_le|].
    etrans; [apply Hle|]. by apply pow2_le. }
  split; [|split].
  - intros t Ht Hle'. apply Hlo; [done|]. rewrite Hassoc.
    by apply Z.mul_le_mono_nonneg_r; [lia|].
  - intros t Ht Hle'. apply Hhi; [done|]. rewrite Hassoc.
    by apply Z.mul_le_mono_nonneg_r; [lia|].
  - rewrite Hassoc, <- Z.mul_sub_distr_r, Z.abs_mul, (Z.abs_eq unit_scale) in Herr by lia.
    rewrite Z.mul_assoc in Herr.
    apply Z.mul_le_mono_pos_r in Herr; lia.
Qed.

(** [... * W]: the double next to the product. *)
Lemma times_width_rounds x rb W :
  float_value x rb → 2 ^ 600 <= rb <= 2 ^ 1500 → 1 <= W < 2 ^ 53 →
  ∃ rx, float_value (x * float_of_int W) rx
    ∧ (∀ t, representable t → t <= rb * W → t <= rx)
    ∧ (∀ t, representable t → rb * W <= t → rx <= t)
    ∧ 2 ^ 52 * Z.abs (rx - rb * W) <= rb * W.
Proof.
  intros Vx Wx HW. pose proof unit_scale_pos as HB.
  pose proof (float_of_int_value W ltac:(lia)) as VW.
  pose proof (int_window W ltac:(lia)) as WW.
  destruct (mul_rounds _ _ _ _ Vx VW Wx WW) as (r & Hr & Hlo & Hhi & Herr).
  rewrite Z.mul_assoc in Hlo, Hhi, Herr.
  exists r. split; [done|]. split; [|split].
  - intros t Ht Hle. apply Hlo; [done|]. by apply Z.mul_le_mono_nonneg_r; [lia|].
  - intros t Ht Hle. apply Hhi; [done|]. by apply Z.mul_le_mono_nonneg_r; [lia|].
  - rewrite <- Z.mul_sub_distr_r, Z.abs_mul, (Z.abs_eq unit_scale) in Herr by lia.
    rewrite Z.mul_assoc in Herr.
    apply Z.mul_le_mono_pos_r in Herr; lia.
Qed.

End Binary64Facts.

Module BarFacts.
Import Py Gif Binary64Facts.

(** The value of the width of frame [i]: a double within one part in
    [2^50] of [i * W / count]. *)
Lemma bar_width_value i c W :
  1 <= i <= c → 1 <= W → c * W < 2 ^ 50 →
  ∃ r, float_value (bar_width c W i) r
    ∧ 2 ^ 50 * Z.abs (r * c - i * W * unit_scale) <= i * W * unit_scale.
Proof.
  intros Hi HW Hc. pose proof unit_scale_pos as HB.
  assert (c < 2 ^ 53 ∧ W < 2 ^ 53) as [Hc' HW'].
  { change (2 ^ 53) with (8 * 2 ^ 50). nia. }
  destruct (ratio_rounds i c Hi Hc') as (rb & Vb & Wb & _ & _ & Eb).
  destruct (times_width_rounds _ rb W Vb Wb ltac:(lia)) as (rx & Vx & _ & _ & Ex).
  exists rx. split; [done|].
  set (B := unit_scale) in *. clearbody B.
  set (a := rb * c - i * B) in *. set (b := rx - rb * W) in *.
  replace (rx * c - i * W * B) with (c * b + W * a) by (subst a b; lia).
  assert (0 < rb) by (pose proof (pow2_pos 600 ltac:(lia)); lia).
  pose proof (Z.abs_triangle (c * b) (W * a)) as Htri.
  rewrite !Z.abs_mul, (Z.abs_eq c), (Z.abs_eq W) in Htri by lia.
  pose proof (Z.abs_nonneg a). pose proof (Z.abs_nonneg b).
  assert (rb * c <= 2 * (i * B)) as Hrb.
  { assert (rb * c = i * B + a) as -> by (subst a; lia).
    pose proof (Z.abs_le a (Z.abs a)) as [Ha _]. specialize (Ha ltac:(lia)).
    change (2 ^ 52) with (4503599627370496) in Eb. lia. }
  assert (2 ^ 52 * (c * Z.abs b) <= c * (rb * W)) as Hb1.
  { rewrite Z.mul_assoc, (Z.mul_comm (2 ^ 52) c), <- Z.mul_assoc.
    apply Z.mul_le_mono_nonneg_l; lia. }
  assert (2 ^ 52 * (W * Z.abs a) <= W * (i * B)) as Hb2.
  { rewrite Z.mul_assoc, (Z.mul_comm (2 ^ 52) W), <- Z.mul_assoc.
    apply Z.mul_le_mono_nonneg_l; lia. }
  assert (c * (rb * W) <= 2 * (W * (i * B))) as Hb3.
  { replace (c * (rb * W)) with (W * (rb * c)) by lia.
    replace (2 * (W * (i * B))) with (W * (2 * (i * B))) by lia.
    apply Z.mul_le_mono_nonneg_l; lia. }
  replace (i * W * B) with (W * (i * B)) by lia.
  set (X := W * (i * B)) in *. set (Y := c * Z.abs b) in *. set (Z := W * Z.abs a) in *.
  set (T := Z.abs (c * b + W * a)) in *.
  assert (0 <= X) by (subst X; nia).
  clearbody X Y Z T. change (2 ^ 52) with (4 * 2 ^ 50) in *.
  change (2 ^ 50) with 1125899906842624 in *. lia.
Qed.

(** The widths grow strictly with the frame number. *)
Lemma bar_width_lt i j c W :
  1 <= i → i < j → j <= c → 1 <= W → c * W < 2 ^ 50 →
  (bar_width c W i <? bar_width c W j)%float = true.
Proof.
  intros Hi Hij Hj HW Hc. pose proof unit_scale_pos as HB.
  assert (c < 2 ^ 50 ∧ W < 2 ^ 50) as [Hc' HW'] by nia.
  assert (2 ^ 50 < 2 ^ 53) as H5053 by done.
  destruct (ratio_rounds i c ltac:(lia) ltac:(lia)) as (ri & Vi & Wi & _ & Hi_hi & _).
  destruct (ratio_rounds j c ltac:(lia) ltac:(lia)) as (rj & Vj & Wj & Hj_lo & _ & _).
  destruct (times_width_rounds _ ri W Vi Wi ltac:(lia)) as (xi & Vxi & _ & Hxi & _).
  destruct (times_width_rounds _ rj W Vj Wj ltac:(lia)) as (xj & Vxj & Hxj & _ & _).
  apply (ltb_float_value _ _ xi xj Vxi Vxj).
  (* a grid of step 1/P, fine enough to separate i/c from j/c *)
  set (S := Z.log2 c + 2). set (P := 2 ^ S).
  pose proof (Z.log2_nonneg c) as HS0.
  pose proof (Z.log2_spec c ltac:(lia)) as [HS1 HS2].
  assert (P = 4 * 2 ^ Z.log2 c) as HP.
  { subst P S. rewrite Z.pow_add_r by lia. change (2 ^ 2) with 4. lia. }
  assert (2 * c < P <= 4 * c) as HPc.
  { rewrite <- Z.add_1_r, Z.pow_add_r, Z.pow_1_r in HS2 by lia. lia. }
  assert (S <= 52) as HS.
  { destruct (decide (S <= 52)); [done|].
    pose proof (pow2_le 53 S ltac:(lia)) as Hp. fold P in Hp. lia. }
  set (Q := 2 ^ (1074 - S)).
  assert (0 < Q) as HQ by (apply pow2_pos; lia).
  assert (unit_scale = P * Q) as HBPQ.
  { subst P Q. unfold unit_scale. rewrite <- Z.pow_add_r by lia. f_equal. lia. }
  set (k := (i * P + c - 1) `div` c).
  pose proof (Z.div_mod (i * P + c - 1) c ltac:(lia)) as Hdm.
  pose proof (Z.mod_pos_bound (i * P + c - 1) c ltac:(lia)) as Hmod.
  fold k in Hdm. set (rem := (i * P + c - 1) `mod` c) in *.
  assert (i * P <= c * k <= i * P + c - 1) as Hk by lia.
  clearbody k rem.
  assert (1 <= k ∧ k + 1 <= P) as [Hk1 HkP] by nia.
  assert ((k + 1) * W < 2 ^ 53) as HkW.
  { change (2 ^ 53) with (8 * 2 ^ 50). nia. }
  assert (1 <= k * W ∧ k * W < (k + 1) * W) as [HkW1 HkW2] by nia.
  assert (representable (k * 2 ^ (1074 - S))) as Rk by (apply representable_int; lia).
  assert (representable ((k + 1) * 2 ^ (1074 - S))) as Rk1
    by (apply representable_int; [nia|lia]).
  assert (representable (k * W * 2 ^ (1074 - S))) as RkW
    by (apply representable_int; lia).
  assert (representable ((k + 1) * W * 2 ^ (1074 - S))) as Rk1W
    by (apply representable_int; lia).
  fold Q in Rk, Rk1, RkW, Rk1W.
  assert (ri <= k * Q) as Hri.
  { apply Hi_hi; [done|]. rewrite HBPQ.
    replace (i * (P * Q)) with (i * P * Q) by lia.
    replace (k * Q * c) with (c * k * Q) by lia.
    apply Z.mul_le_mono_nonneg_r; lia. }
  assert ((k + 1) * Q <= rj) as Hrj.
  { apply Hj_lo; [done|]. rewrite HBPQ.
    replace (j * (P * Q)) with (j * P * Q) by lia.
    replace ((k + 1) * Q * c) with (c * (k + 1) * Q) by lia.
    apply Z.mul_le_mono_nonneg_r; [lia|]. nia. }
  assert (xi <= k * W * Q) as Hxi'.
  { apply Hxi; [done|]. replace (k * W * Q) with (k * Q * W) by lia.
    apply Z.mul_le_mono_nonneg_r; lia. }
  assert ((k + 1) * W * Q <= xj) as Hxj'.
  { apply Hxj; [done|]. replace ((k + 1) * W * Q) with ((k + 1) * Q * W) by lia.
    apply Z.mul_le_mono_nonneg_r; lia. }
  assert (k * W * Q < (k + 1) * W * Q) by (apply Z.mul_lt_mono_pos_r; lia).
  lia.
Qed.

(** On the last frame the width is [W] itself. *)
Lemma bar_width_last c W :
  1 <= c → 1 <= W → c * W < 2 ^ 50 → bar_width c W c = float_of_int W.
Proof.
  intros Hc HW Hb. pose proof unit_scale_pos as HB.
  assert (c < 2 ^ 50 ∧ W < 2 ^ 50) as [Hc' HW'] by nia.
  assert (2 ^ 50 < 2 ^ 53) as H5053 by done.
  destruct (ratio_rounds c c ltac:(lia) ltac:(lia)) as (rb & Vb & Wb & Hlo & Hhi & _).
  destruct (times_width_rounds _ rb W Vb Wb ltac:(lia)) as (rx & Vx & Hxlo & Hxhi & _).
  assert (representable unit_scale) as R1.
  { replace unit_scale with (1 * 2 ^ 1074) by done. by apply representable_int. }
  assert (rb = unit_scale) as ->.
  { pose proof (Hlo _ R1 ltac:(lia)). pose proof (Hhi _ R1 ltac:(lia)). lia. }
  pose proof (float_of_int_value W ltac:(lia)) as VW.
  pose proof (represents_representable _ _ VW) as RW.
  assert (rx = W * unit_scale) as ->.
  { pose proof (Hxlo _ RW ltac:(lia)). pose proof (Hxhi _ RW ltac:(lia)). lia. }
  by apply (float_value_inj _ _ (W * unit_scale)).
Qed.



End BarFacts.

Module FramesFacts.
Import Py PyFacts Frames.

Lemma substring_0_0 s : String.substring 0 0 s = "".
Proof. by destruct s. Qed.

Lemma startswith_slash c s :
  startswith "/" (String c s) = bool_decide (c = "/"%char).
Proof.
  unfold startswith. cbn [String.length String.substring].
  rewrite substring_0_0. apply bool_decide_ext. split; congruence.
Qed.

(** All frame names share one prefix: the joined directory and base name. *)
Lemma path_join_prefix out_dir basename :
  ∃ P, ∀ X, path_join out_dir (basename +:+ "_" +:+ X) = P +:+ X.
Proof.
  unfold path_join.
  assert (∃ b, ∀ X, startswith "/" (basename +:+ "_" +:+ X) = b) as [b Hb].
  { destruct basename as [|c r].
    - exists false. intros X. by rewrite app_empty, app_cons, startswith_slash.
    - exists (bool_decide (c = "/"%char)). intros X.
      by rewrite app_cons, startswith_slash. }
  destruct b.
  - exists (basename +:+ "_"). intros X. by rewrite Hb, app_assoc.
  - destruct (bool_decide (out_dir = "") || endswith "/" out_dir).
    + exists (out_dir +:+ basename +:+ "_"). intros X. by rewrite Hb, !app_assoc.
    + exists (out_dir +:+ "/" +:+ basename +:+ "_"). intros X.
      by rewrite Hb, !app_assoc.
Qed.




End FramesFacts.

Module GifFacts.
Import Py Py.Notations Host Gif.

Section facts.
Context {Frame Font Color : Type} {platform : Platform Frame Font Color}.

Local Abbreviation world := (World Frame).
Local Abbreviation silent := (Host.silent (Frame := Frame)).
Local Abbreviation traces := (Host.traces (Frame := Frame)).
Local Abbreviation starts_with := (Host.starts_with (Frame := Frame)).
Local Abbreviation no_return := (Host.no_return (Frame := Frame)).


Lemma silent_ret {A} (a : A) : silent (ret a : M world A).
Proof. intros w r w' [= _ <-]. done. Qed.

Lemma silent_raise {A} e : silent (@raise world A e).
Proof. intros w r w' [= _ <-]. done. Qed.

Lemma silent_return {A} : silent (@return_ world A).
Proof. intros w r w' [= _ <-]. done. Qed.

Lemma silent_lift {A} (x : Exn + A) : silent (lift x : M world A).
Proof. destruct x; [apply silent_raise | apply silent_ret]. Qed.

Lemma silent_bind {A B} (m : M world A) (k : A → M world B) :
  silent m → (∀ a, silent (k a)) → silent (bind m k).
Proof.
  intros Hm Hk w r w'. unfold bind.
  destruct (m w) as [[a| |e] w1] eqn:E; intros Hr.
  - rewrite (Hk _ _ _ _ Hr). eauto.
  - injection Hr as _ <-. eauto.
  - injection Hr as _ <-. eauto.
Qed.

Lemma silent_try {A} (m : M world A) (h : Exn → M world A) :
  silent m → (∀ e, silent (h e)) → silent (try_except m h).
Proof.
  intros Hm Hh w r w'. unfold try_except.
  destruct (m w) as [[a| |e] w1] eqn:E; intros Hr.
  - injection Hr as _ <-. eauto.
  - injection Hr as _ <-. eauto.
  - rewrite (Hh _ _ _ _ Hr). eauto.
Qed.

Lemma silent_print s : silent (print s).
Proof. intros w r w' [= _ <-]. done. Qed.

Lemma silent_when b (m : M world unit) : silent m → silent (when b m).
Proof. destruct b; [done | intros _; apply silent_ret]. Qed.

Lemma silent_abspath p : silent (os_path_abspath p).
Proof. intros w r w' [= _ <-]. done. Qed.

Lemma silent_exists p : silent (os_path_exists p).
Proof. intros w r w' [= _ <-]. done. Qed.

Lemma silent_on_fs f : silent (on_fs f).
Proof.
  intros w r w'. unfold on_fs. destruct (f (fs w)); intros [= _ <-]; done.
Qed.

Lemma silent_Image_open p : silent (Image_open p).
Proof.
  intros w r w'. unfold Image_open.
  destruct (lookup_path p w) as [[| |]|]; intros [= _ <-]; done.
Qed.

Lemma silent_index {A} (l : list A) i : silent (Host.index l i).
Proof. unfold Host.index. destruct (l !! i); [apply silent_ret | apply silent_raise]. Qed.

Ltac silent_step :=
  first
    [ apply silent_ret | apply silent_raise | apply silent_return | apply silent_lift
    | apply silent_print | apply silent_abspath | apply silent_exists
    | apply silent_on_fs | apply silent_Image_open | apply silent_index
    | apply silent_when
    | apply silent_bind; [|intros ?]
    | apply silent_try; [|intros ?]
    | match goal with
      | |- silent (if ?b then _ else _) => destruct b
      | |- silent (match ?x with _ => _ end) => destruct x
      end ].
Ltac silent := repeat silent_step.

Lemma silent_load_font a : silent (load_font a).
Proof. unfold load_font. silent. Qed.

Lemma silent_prelude a : silent (prelude a).
Proof.
  unfold prelude, os_makedirs. silent; try apply silent_load_font.
Qed.

Lemma silent_len_is_2 xy : silent (len_is_2 xy).
Proof. unfold len_is_2. silent. Qed.

Lemma silent_all_items P xy : silent (all_items_and_len_2 P xy).
Proof. unfold all_items_and_len_2. silent; apply silent_len_is_2. Qed.

Lemma silent_resolve_xy W H xy : silent (resolve_xy W H xy).
Proof.
  unfold resolve_xy. silent; try apply silent_len_is_2; try apply silent_all_items.
Qed.

Lemma silent_text_of_sequence count ts : silent (text_of_sequence count ts).
Proof. unfold text_of_sequence. silent. Qed.

(** *** [resolve_xy] on the shapes of [xy] the claims speak of *)


Lemma resolve_xy_int_pair W H x y w :
  resolve_xy W H (VTuple [VInt x; VInt y]) w =
    if (0 <? x) && (x <? W) && (0 <? y) && (y <? H)
    then (Next (VTuple [VInt x; VInt y]), w)
    else (Return, prints (msg_out_of_bounds W H) w).
Proof.
  unfold resolve_xy. cbn.
  destruct ((0 <? x) && (x <? W) && (0 <? y) && (y <? H)); reflexivity.
Qed.

Lemma resolve_xy_four W H v1 v2 v3 v4 w :
  resolve_xy W H (VTuple [v1; v2; v3; v4]) w = (Return, prints msg_invalid_xy w).
Proof.
  unfold resolve_xy, all_items_and_len_2. cbn [is_none is_tuple negb items_of].
  unfold bind at 1. cbn [ret].
  destruct (forallb is_int [v1; v2; v3; v4]);
    destruct (forallb is_str [v1; v2; v3; v4]); reflexivity.
Qed.

Lemma resolve_xy_percent W H xs ys px py w :
  contains_char "%" xs = true → contains_char "%" ys = true →
  percent_to_pixels xs W = inr px → percent_to_pixels ys H = inr py →
  resolve_xy W H (VTuple [VStr xs; VStr ys]) w = (Next (VTuple [VInt px; VInt py]), w).
Proof.
  intros Hx Hy Hpx Hpy. unfold resolve_xy. cbn.
  rewrite Hx, Hy. cbn. unfold try_except, bind. rewrite Hpx, Hpy. reflexivity.
Qed.

Lemma resolve_xy_percent_invalid W H xs ys w :
  contains_char "%" xs = true → contains_char "%" ys = true →
  (∃ e, percent_to_pixels xs W = inl e) ∨ (∃ e, percent_to_pixels ys H = inl e) →
  resolve_xy W H (VTuple [VStr xs; VStr ys]) w =
    (Raise (MkExn "Exception" msg_invalid_percent), w).
Proof.
  intros Hx Hy Hbad. unfold resolve_xy. cbn.
  rewrite Hx, Hy. cbn. unfold try_except, bind.
  destruct (percent_to_pixels xs W) as [e|px] eqn:Epx; [reflexivity|].
  destruct Hbad as [[e He]|[e He]]; [discriminate|].
  rewrite He. reflexivity.
Qed.

Lemma percent_to_pixels_ok s W p n :
  py_float (remove_char "%" s) = Some p →
  int_of_float (p / 100 * float_of_int W)%float = Some n →
  percent_to_pixels s W = inr n.
Proof. intros Hp Hn. unfold percent_to_pixels. by rewrite Hp, Hn. Qed.

Lemma percent_to_pixels_unparsed s W :
  py_float (remove_char "%" s) = None → ∃ e, percent_to_pixels s W = inl e.
Proof. intros Hp. unfold percent_to_pixels. rewrite Hp. eauto. Qed.

(** *** The calls a statement makes *)


Lemma silent_traces {A} P (m : M world A) : silent m → traces P m.
Proof.
  intros Hm w r w' Hr. exists []. rewrite (Hm _ _ _ Hr), app_nil_r. by split.
Qed.

Lemma traces_bind {A B} P (m : M world A) (k : A → M world B) :
  traces P m → (∀ a, traces P (k a)) → traces P (bind m k).
Proof.
  intros Hm Hk w r w'. unfold bind.
  destruct (m w) as [[a| |e] w1] eqn:E; intros Hr.
  - destruct (Hm _ _ _ E) as (n1 & E1 & H1).
    destruct (Hk _ _ _ _ Hr) as (n2 & E2 & H2).
    exists (n1 ++ n2). rewrite E2, E1, app_assoc. split; [done|].
    by apply Forall_app.
  - injection Hr as _ <-. eauto.
  - injection Hr as _ <-. eauto.
Qed.

Lemma traces_try {A} P (m : M world A) (h : Exn → M world A) :
  traces P m → (∀ e, traces P (h e)) → traces P (try_except m h).
Proof.
  intros Hm Hh w r w'. unfold try_except.
  destruct (m w) as [[a| |e] w1] eqn:E; intros Hr.
  - injection Hr as _ <-. eauto.
  - injection Hr as _ <-. eauto.
  - destruct (Hm _ _ _ E) as (n1 & E1 & H1).
    destruct (Hh _ _ _ _ Hr) as (n2 & E2 & H2).
    exists (n1 ++ n2). rewrite E2, E1, app_assoc. split; [done|].
    by apply Forall_app.
Qed.

Lemma traces_log P c : P c → traces P (log c).
Proof. intros Hc w r w' [= _ <-]. exists [c]. split; [done|]. by constructor. Qed.

Lemma traces_for_each {A B} P (f : nat → A → M world B) i l :
  (∀ j x, traces P (f j x)) → traces P (for_each f i l).
Proof.
  intros Hf. revert i. induction l as [|x l IH]; intros i; simpl.
  - apply silent_traces, silent_ret.
  - apply traces_bind; [apply Hf|]. intros y.
    apply traces_bind; [apply IH|]. intros ys. apply silent_traces, silent_ret.
Qed.

Lemma traces_save_frames P p fr d l o :
  P (CSave p (length fr)) → traces P (save_frames p fr d l o).
Proof.
  intros Hc w r w'. unfold save_frames. destruct fr as [|f fr'].
  - intros [= _ <-]. exists []. by rewrite app_nil_r.
  - unfold save_gif. destruct (encode_gif _ _ _ _).
    + destruct (fs _ !! _); intros [= _ <-]; exists [CSave p (length (f :: fr'))];
        (split; [done | by constructor]).
    + intros [= _ <-]. exists [CSave p (length (f :: fr'))].
      split; [done | by constructor].
Qed.


Lemma traces_draw_frame a env xy text i f :
  traces (text_at xy) (draw_frame a env xy text i f).
Proof.
  unfold draw_frame.
  apply traces_bind; [apply silent_traces, silent_lift|]. intros f1.
  apply traces_bind; [apply silent_traces, silent_lift|]. intros _.
  apply traces_bind; [apply silent_traces, silent_index|]. intros t.
  apply traces_bind; [by apply traces_log|]. intros _.
  apply traces_bind; [apply silent_traces, silent_lift|]. intros f2.
  apply traces_bind; [|intros f3; apply silent_traces, silent_lift].
  destruct (add_progress_bar a); [|apply silent_traces, silent_ret].
  apply traces_bind; [apply silent_traces, silent_index|]. intros sh.
  apply traces_bind; [by apply traces_log|]. intros _.
  apply silent_traces, silent_lift.
Qed.

Lemma traces_render a env xy text : traces (text_at xy) (render a env xy text).
Proof.
  unfold render, render_body, for_frames.
  apply traces_try; [|intros e; apply silent_traces, silent_print].
  apply traces_bind.
  - apply traces_bind; [apply traces_for_each; intros; apply traces_draw_frame|].
    intros out. destruct (iter_error _); apply silent_traces;
      [apply silent_raise | apply silent_ret].
  - intros fr. by apply traces_save_frames.
Qed.

(** *** Statements without [return] *)


Lemma no_return_ret {A} (a : A) : no_return (ret a : M world A).
Proof. intros w w'. done. Qed.

Lemma no_return_raise {A} e : no_return (@raise world A e).
Proof. intros w w'. done. Qed.

Lemma no_return_lift {A} (x : Exn + A) : no_return (lift x : M world A).
Proof. destruct x; [apply no_return_raise | apply no_return_ret]. Qed.

Lemma no_return_log c : no_return (log c).
Proof. intros w w'. done. Qed.

Lemma no_return_index {A} (l : list A) i : no_return (Host.index l i).
Proof.
  unfold Host.index. destruct (l !! i); [apply no_return_ret | apply no_return_raise].
Qed.

Lemma no_return_bind {A B} (m : M world A) (k : A → M world B) :
  no_return m → (∀ a, no_return (k a)) → no_return (bind m k).
Proof.
  intros Hm Hk w w'. unfold bind.
  destruct (m w) as [[a| |e] w1] eqn:E; [apply Hk | by destruct (Hm _ _ E) | done].
Qed.

Lemma no_return_for_each {A B} (f : nat → A → M world B) i l :
  (∀ j x, no_return (f j x)) → no_return (for_each f i l).
Proof.
  intros Hf. revert i. induction l as [|x l IH]; intros i; simpl.
  - apply no_return_ret.
  - apply no_return_bind; [apply Hf|]. intros y.
    apply no_return_bind; [apply IH|]. intros ys. apply no_return_ret.
Qed.

Lemma no_return_save_frames p fr d l o : no_return (save_frames p fr d l o).
Proof.
  intros w w'. unfold save_frames. destruct fr; [done|].
  unfold save_gif. destruct (encode_gif _ _ _ _); [|done]. by destruct (fs _ !! _).
Qed.

Lemma no_return_draw_frame a env xy text i f :
  no_return (draw_frame a env xy text i f).
Proof.
  unfold draw_frame.
  repeat first
    [ apply no_return_lift | apply no_return_index | apply no_return_log
    | apply no_return_ret
    | apply no_return_bind; [|intros ?]
    | match goal with |- no_return (if ?b then _ else _) => destruct b end ].
Qed.

Lemma no_return_render_body a env xy text : no_return (render_body a env xy text).
Proof.
  unfold render_body, for_frames.
  apply no_return_bind; [|intros; apply no_return_save_frames].
  apply no_return_bind;
    [apply no_return_for_each; intros; apply no_return_draw_frame|].
  intros out. destruct (iter_error _); [apply no_return_raise | apply no_return_ret].
Qed.

(** The final [try] turns every exception of its body into a printed line. *)
Lemma render_outcome a env xy text w :
  (∃ w2, render_body a env xy text w = (Next tt, w2)
         ∧ render a env xy text w = (Next tt, w2))
  ∨ (∃ e w2, render_body a env xy text w = (Raise e, w2)
         ∧ render a env xy text w = (Next tt, prints (exn_str e) w2)).
Proof.
  unfold render, try_except.
  destruct (render_body a env xy text w) as [[[]| |e] w2] eqn:E.
  - left. eauto.
  - by destruct (no_return_render_body _ _ _ _ _ _ E).
  - right. exists e, w2. split; [done|]. reflexivity.
Qed.

Lemma bind_next {A B} (m : M world A) (k : A → M world B) w a w1 :
  m w = (Next a, w1) → bind m k w = k a w1.
Proof. intros Hm. unfold bind. by rewrite Hm. Qed.

Lemma bind_return {A B} (m : M world A) (k : A → M world B) w w1 :
  m w = (Return, w1) → bind m k w = (Return, w1).
Proof. intros Hm. unfold bind. by rewrite Hm. Qed.

Lemma bind_raise {A B} (m : M world A) (k : A → M world B) w e w1 :
  m w = (Raise e, w1) → bind m k w = (Raise e, w1).
Proof. intros Hm. unfold bind. by rewrite Hm. Qed.

Lemma calls_app_nil (w w' : world) new :
  calls w' = calls w → calls w' = calls w ++ new → new = [].
Proof.
  intros E1 E2. rewrite E1 in E2.
  apply (f_equal length) in E2. rewrite length_app in E2.
  destruct new; [done | simpl in E2; lia].
Qed.



Lemma starts_with_log_bind {B} c (k : unit → M world B) :
  (∀ u, traces any_call (k u)) → starts_with c (bind (log c) k).
Proof.
  intros Hk w r w' Hr. unfold bind, log in Hr.
  destruct (Hk _ _ _ _ Hr) as (new & E & _). exists new.
  rewrite E. simpl. by rewrite <- app_assoc.
Qed.

Lemma starts_with_ret_bind {A B} c (a : A) (k : A → M world B) :
  starts_with c (k a) → starts_with c (bind (ret a) k).
Proof. intros Hk w r w' Hr. by apply (Hk w r w'). Qed.

Lemma starts_with_bind {A B} c (m : M world A) (k : A → M world B) :
  starts_with c m → (∀ a, traces any_call (k a)) → starts_with c (bind m k).
Proof.
  intros Hm Hk w r w'. unfold bind.
  destruct (m w) as [[a| |e] w1] eqn:E; intros Hr.
  - destruct (Hm _ _ _ E) as (m1 & E1).
    destruct (Hk _ _ _ _ Hr) as (m2 & E2 & _).
    exists (m1 ++ m2). by rewrite E2, E1, <- app_assoc.
  - injection Hr as _ <-. eauto.
  - injection Hr as _ <-. eauto.
Qed.

Lemma starts_with_try {A} c (m : M world A) (h : Exn → M world A) :
  starts_with c m → (∀ e, traces any_call (h e)) → starts_with c (try_except m h).
Proof.
  intros Hm Hh w r w'. unfold try_except.
  destruct (m w) as [[a| |e] w1] eqn:E; intros Hr.
  - injection Hr as _ <-. eauto.
  - injection Hr as _ <-. eauto.
  - destruct (Hm _ _ _ E) as (m1 & E1).
    destruct (Hh _ _ _ _ Hr) as (m2 & E2 & _).
    exists (m1 ++ m2). by rewrite E2, E1, <- app_assoc.
Qed.

Lemma traces_weaken {A} (P Q : Call → Prop) (m : M world A) :
  (∀ c, P c → Q c) → traces P m → traces Q m.
Proof.
  intros HPQ Hm w r w' Hr. destruct (Hm _ _ _ Hr) as (new & E & HF).
  exists new. split; [done|]. eapply Forall_impl; eauto.
Qed.

Lemma traces_any_draw_frame a env xy text i f :
  traces any_call (draw_frame a env xy text i f).
Proof. eapply traces_weaken; [|apply traces_draw_frame]. done. Qed.

(** The first frame that converts is drawn with the text at [xy]. *)
Lemma starts_with_render a env xy text f0 rest f0' t0 :
  frames (image env) = f0 :: rest → convert "RGB" f0 = inr f0' →
  image_draw f0' = inr tt →
  text !! 0%nat = Some t0 →
  starts_with (CText xy t0) (render a env xy text).
Proof.
  intros Hfr Hconv Hdraw Ht. unfold render, render_body, for_frames. rewrite Hfr.
  apply starts_with_try; [|intros e; apply silent_traces, silent_print].
  apply starts_with_bind; [|intros fr; by apply traces_save_frames].
  apply starts_with_bind;
    [|intros out; destruct (iter_error _); apply silent_traces;
      [apply silent_raise | apply silent_ret]].
  simpl for_each.
  apply starts_with_bind.
  - unfold draw_frame, Host.index. rewrite Hconv, Ht.
    apply (starts_with_ret_bind _ f0'). cbv beta. rewrite Hdraw.
    apply (starts_with_ret_bind _ tt). apply (starts_with_ret_bind _ t0).
    apply starts_with_log_bind. intros _.
    apply traces_bind; [apply silent_traces, silent_lift|]. intros f2.
    apply traces_bind; [|intros f3; apply silent_traces, silent_lift].
    destruct (add_progress_bar a); [|apply silent_traces, silent_ret].
    apply traces_bind; [apply silent_traces, silent_index|]. intros sh.
    apply traces_bind; [by apply traces_log|]. intros _.
    apply silent_traces, silent_lift.
  - intros y. apply traces_bind; [|intros ys; apply silent_traces, silent_ret].
    apply traces_for_each. intros. apply traces_any_draw_frame.
Qed.

(** *** [add_image_to_gif] *)

Lemma silent_load_logo in_image image_size circle_mask :
  silent (load_logo in_image image_size circle_mask).
Proof. unfold load_logo. silent. Qed.

Lemma silent_logo_prelude in_gif out_gif in_image image_size circle_mask :
  silent (logo_prelude in_gif out_gif in_image image_size circle_mask).
Proof.
  unfold logo_prelude, os_makedirs. silent; try apply silent_load_logo.
  intros w r w'. destruct (check_dir _ _) as [e|[d f]]; intros [= _ <-]; done.
Qed.

Lemma resolve_logo_xy_int_pair W H resize x y w :
  resolve_logo_xy W H resize (VTuple [VInt x; VInt y]) w =
    if (0 <? x) && (x <? W) && (0 <? y) && (y <? H)
    then (Next (VTuple [VInt x; VInt y]), w)
    else (Return, prints (msg_out_of_bounds W H) w).
Proof.
  unfold resolve_logo_xy. cbn.
  destruct ((0 <? x) && (x <? W) && (0 <? y) && (y <? H)); reflexivity.
Qed.

(** *** What a run drew, pasted or wrote *)


Lemma same_calls_nothing_done (w w' : world) :
  calls w' = calls w → ¬ drew_text w w' ∧ ¬ pasted w w' ∧ ¬ wrote w w'.
Proof.
  intros E. repeat split.
  - intros (new & xy & t & E' & Hin).
    rewrite (calls_app_nil _ _ _ E E') in Hin. by apply not_elem_of_nil in Hin.
  - intros (new & xy & E' & Hin).
    rewrite (calls_app_nil _ _ _ E E') in Hin. by apply not_elem_of_nil in Hin.
  - intros (new & p & n & E' & Hin).
    rewrite (calls_app_nil _ _ _ E E') in Hin. by apply not_elem_of_nil in Hin.
Qed.

Lemma in_bounds_strict x y W H :
  (0 <? x) && (x <? W) && (0 <? y) && (y <? H) = true ↔ (0 < x < W ∧ 0 < y < H).
Proof. rewrite !andb_true_iff, !Z.ltb_lt. tauto. Qed.

Lemma add_text_int_pair_cases a x y w :
  xy a = VTuple [VInt x; VInt y] →
  (∃ r w', add_text_to_gif a w = (r, w') ∧ calls w' = calls w
     ∧ (∀ env w1, prelude a w = (Next env, w1) →
          ¬ (0 < x < width env ∧ 0 < y < height env)
          ∧ r = Return ∧ w' = prints (msg_out_of_bounds (width env) (height env)) w1))
  ∨ (∃ env w1, prelude a w = (Next env, w1)
       ∧ 0 < x < width env ∧ 0 < y < height env).
Proof.
  intros Hxy. destruct (prelude a w) as [[env| |e] w1] eqn:Epre.
  - destruct ((0 <? x) && (x <? width env) && (0 <? y) && (y <? height env)) eqn:Eb.
    + right. apply in_bounds_strict in Eb. eauto.
    + left. exists Return, (prints (msg_out_of_bounds (width env) (height env)) w1).
      assert (add_text_to_gif a w =
                (Return, prints (msg_out_of_bounds (width env) (height env)) w1)) as E.
      { unfold add_text_to_gif. rewrite (bind_next _ _ _ _ _ Epre).
        apply bind_return. by rewrite Hxy, resolve_xy_int_pair, Eb. }
      split; [done|]. split; [apply (silent_prelude _ _ _ _ Epre)|].
      intros env' w1' [= <- <-]. split; [|done].
      rewrite <- in_bounds_strict, Eb. done.
  - left. exists Return, w1. unfold add_text_to_gif.
    rewrite (bind_return _ _ _ _ Epre). split; [done|].
    split; [apply (silent_prelude _ _ _ _ Epre)|]. intros ?? [=].
  - left. exists (Raise e), w1. unfold add_text_to_gif.
    rewrite (bind_raise _ _ _ _ _ Epre). split; [done|].
    split; [apply (silent_prelude _ _ _ _ Epre)|]. intros ?? [=].
Qed.

Lemma add_image_int_pair_cases in_gif out_gif in_image image_size circle_mask x y w :
  let run := add_image_to_gif in_gif out_gif in_image (VTuple [VInt x; VInt y])
               image_size circle_mask in
  let pre := logo_prelude in_gif out_gif in_image image_size circle_mask in
  (∃ r w', run w = (r, w') ∧ calls w' = calls w
     ∧ (∀ gif logo w1, pre w = (Next (gif, logo), w1) →
          ¬ (0 < x < (size gif).1 ∧ 0 < y < (size gif).2)
          ∧ r = Return ∧ w' = prints (msg_out_of_bounds (size gif).1 (size gif).2) w1))
  ∨ (∃ gif logo w1, pre w = (Next (gif, logo), w1)
       ∧ 0 < x < (size gif).1 ∧ 0 < y < (size gif).2).
Proof.
  intros run pre. subst run.
  destruct (pre w) as [[[gif [[logo resize] mask]]| |e] w1] eqn:Epre; subst pre.
  - destruct (size gif) as [W H] eqn:Esz. simpl.
    destruct ((0 <? x) && (x <? W) && (0 <? y) && (y <? H)) eqn:Eb.
    + right. apply in_bounds_strict in Eb.
      exists gif, (logo, resize, mask), w1. rewrite Esz. eauto.
    + left. exists Return, (prints (msg_out_of_bounds W H) w1).
      assert (add_image_to_gif in_gif out_gif in_image (VTuple [VInt x; VInt y])
                image_size circle_mask w = (Return, prints (msg_out_of_bounds W H) w1)) as E.
      { unfold add_image_to_gif. rewrite (bind_next _ _ _ _ _ Epre). rewrite Esz.
        apply bind_return. by rewrite resolve_logo_xy_int_pair, Eb. }
      split; [done|]. split; [apply (silent_logo_prelude _ _ _ _ _ _ _ _ Epre)|].
      intros gif' logo' w1' [= <- <- <-]. rewrite Esz. split; [|done].
      simpl. rewrite <- in_bounds_strict, Eb. done.
  - left. exists Return, w1. unfold add_image_to_gif.
    rewrite (bind_return _ _ _ _ Epre). split; [done|].
    split; [apply (silent_logo_prelude _ _ _ _ _ _ _ _ Epre)|]. intros ??? [=].
  - left. exists (Raise e), w1. unfold add_image_to_gif.
    rewrite (bind_raise _ _ _ _ _ Epre). split; [done|].
    split; [apply (silent_logo_prelude _ _ _ _ _ _ _ _ Epre)|]. intros ??? [=].
Qed.

(** C2.  An integer pair [xy = (x, y)] is checked against the size of the
    gif.  In [add_text_to_gif] text is drawn only when [x] lies in [0, W]
    and [y] in [0, H]; a pair outside these bounds makes the function print
    the out-of-bounds message and return, with nothing drawn and no gif
    written.  [add_image_to_gif] does the same with the width and height of
    its gif. *)
Theorem int_xy_drawn_only_within_frame (a : TextArgs) (x y : Z)
    (in_gif out_gif in_image : string) (image_size : Z * Z) (circle_mask : bool)
    (w : world) :
  xy a = VTuple [VInt x; VInt y] →
  (∀ r w', add_text_to_gif a w = (r, w') → drew_text w w' →
     ∃ env w1, prelude a w = (Next env, w1)
       ∧ 0 <= x <= width env ∧ 0 <= y <= height env)
  ∧ (∀ env w1, prelude a w = (Next env, w1) →
       ¬ (0 <= x <= width env ∧ 0 <= y <= height env) →
       let w' := prints (msg_out_of_bounds (width env) (height env)) w1 in
       add_text_to_gif a w = (Return, w')
       ∧ ¬ drew_text w w' ∧ ¬ wrote w w')
  ∧ (∀ r w', add_image_to_gif in_gif out_gif in_image (VTuple [VInt x; VInt y])
               image_size circle_mask w = (r, w') →
       pasted w w' →
       ∃ gif logo w1,
         logo_prelude in_gif out_gif in_image image_size circle_mask w
           = (Next (gif, logo), w1)
         ∧ 0 <= x <= (size gif).1 ∧ 0 <= y <= (size gif).2)
  ∧ (∀ gif logo w1,
       logo_prelude in_gif out_gif in_image image_size circle_mask w
         = (Next (gif, logo), w1) →
       ¬ (0 <= x <= (size gif).1 ∧ 0 <= y <= (size gif).2) →
       let w' := prints (msg_out_of_bounds (size gif).1 (size gif).2) w1 in
       add_image_to_gif in_gif out_gif in_image (VTuple [VInt x; VInt y])
         image_size circle_mask w = (Return, w')
       ∧ ¬ pasted w w' ∧ ¬ wrote w w').
Proof.
  intros Hxy.
  pose proof (add_text_int_pair_cases a x y w Hxy) as Ht.
  pose proof (add_image_int_pair_cases in_gif out_gif in_image image_size
                circle_mask x y w) as Hi. simpl in Hi.
  repeat split.
  - intros r w' Hr Hdrew.
    destruct Ht as [(r0 & w0 & Hr0 & Hc & _)|(env & w1 & Hp & ? & ?)].
    + rewrite Hr in Hr0. injection Hr0 as <- <-.
      by destruct (same_calls_nothing_done _ _ Hc) as (? & _).
    + exists env, w1. split; [done|]. lia.
  - destruct Ht as [(r0 & w0 & Hr0 & Hc & Hrej)|(env' & w1' & Hp & ? & ?)].
    + destruct (Hrej _ _ H) as (_ & -> & ->). done.
    + rewrite H in Hp. injection Hp as <- <-. lia.
  - destruct Ht as [(r0 & w0 & Hr0 & Hc & Hrej)|(env' & w1' & Hp & ? & ?)].
    + destruct (Hrej _ _ H) as (_ & -> & ->).
      by destruct (same_calls_nothing_done _ _ Hc) as (? & _).
    + rewrite H in Hp. injection Hp as <- <-. lia.
  - destruct Ht as [(r0 & w0 & Hr0 & Hc & Hrej)|(env' & w1' & Hp & ? & ?)].
    + destruct (Hrej _ _ H) as (_ & -> & ->).
      by destruct (same_calls_nothing_done _ _ Hc) as (_ & _ & ?).
    + rewrite H in Hp. injection Hp as <- <-. lia.
  - intros r w' Hr Hp.
    destruct Hi as [(r0 & w0 & Hr0 & Hc & _)|(gif & logo & w1 & Hpre & ? & ?)].
    + rewrite Hr in Hr0. injection Hr0 as <- <-.
      by destruct (same_calls_nothing_done _ _ Hc) as (_ & ? & _).
    + exists gif, logo, w1. split; [done|]. lia.
  - destruct Hi as [(r0 & w0 & Hr0 & Hc & Hrej)|(gif' & logo' & w1' & Hp & ? & ?)].
    + destruct (Hrej _ _ _ H) as (_ & -> & ->). done.
    + rewrite H in Hp. injection Hp as <- <- <-. lia.
  - destruct Hi as [(r0 & w0 & Hr0 & Hc & Hrej)|(gif' & logo' & w1' & Hp & ? & ?)].
    + destruct (Hrej _ _ _ H) as (_ & -> & ->).
      by destruct (same_calls_nothing_done _ _ Hc) as (_ & ? & _).
    + rewrite H in Hp. injection Hp as <- <- <-. lia.
  - destruct Hi as [(r0 & w0 & Hr0 & Hc & Hrej)|(gif' & logo' & w1' & Hp & ? & ?)].
    + destruct (Hrej _ _ _ H) as (_ & -> & ->).
      by destruct (same_calls_nothing_done _ _ Hc) as (_ & _ & ?).
    + rewrite H in Hp. injection Hp as <- <- <-. lia.
Qed.

(** C7.  A tuple [xy] of four elements is rejected: whatever else happens,
    nothing is drawn and no gif is written; and once the input gif, the
    font and the colours have loaded, the function prints the
    invalid-format message and returns [None] without raising. *)
Theorem four_element_xy_rejected (a : TextArgs) (v1 v2 v3 v4 : val) (w : world) :
  xy a = VTuple [v1; v2; v3; v4] →
  (∀ r w', add_text_to_gif a w = (r, w') → ¬ drew_text w w' ∧ ¬ wrote w w')
  ∧ (∀ env w1, prelude a w = (Next env, w1) →
       add_text_to_gif a w = (Return, prints msg_invalid_xy w1)
       ∧ call (add_text_to_gif a) w = (None, prints msg_invalid_xy w1)).
Proof.
  intros Hxy.
  assert (∀ env w1, prelude a w = (Next env, w1) →
            add_text_to_gif a w = (Return, prints msg_invalid_xy w1)) as Hrun.
  { intros env w1 Hpre. unfold add_text_to_gif.
    rewrite (bind_next _ _ _ _ _ Hpre). apply bind_return.
    by rewrite Hxy, resolve_xy_four. }
  split.
  - intros r w' Hr.
    assert (calls w' = calls w) as Hc.
    { destruct (prelude a w) as [[env| |e] w1] eqn:Epre.
      - rewrite (Hrun _ _ eq_refl) in Hr. injection Hr as _ <-.
        apply (silent_prelude _ _ _ _ Epre).
      - unfold add_text_to_gif in Hr. rewrite (bind_return _ _ _ _ Epre) in Hr.
        injection Hr as _ <-. apply (silent_prelude _ _ _ _ Epre).
      - unfold add_text_to_gif in Hr. rewrite (bind_raise _ _ _ _ _ Epre) in Hr.
        injection Hr as _ <-. apply (silent_prelude _ _ _ _ Epre). }
    destruct (same_calls_nothing_done _ _ Hc) as (? & _ & ?). done.
  - intros env w1 Hpre. split; [apply (Hrun _ _ Hpre)|].
    unfold call. by rewrite (Hrun _ _ Hpre).
Qed.

(** C8.  The loop over the frames, the drawing and the save run inside one
    [try]: whatever any of them raises is caught and its message printed,
    and the function returns [None]; no exception of theirs reaches the
    caller. *)
Theorem drawing_failures_are_swallowed (a : TextArgs) (w : world)
    (env : Env Frame Font Color) (w1 : world) (xy' : val) (w2 : world)
    (text : list string) (w3 : world) :
  prelude a w = (Next env, w1) →
  resolve_xy (width env) (height env) (xy a) w1 = (Next xy', w2) →
  text_of_sequence (count env) (text_sequence a) w2 = (Next text, w3) →
  (∃ w', call (add_text_to_gif a) w = (None, w'))
  ∧ (∀ e w4, render_body a env xy' text w3 = (Raise e, w4) →
       add_text_to_gif a w = (Next tt, prints (exn_str e) w4))
  ∧ (∀ w4, render_body a env xy' text w3 = (Next tt, w4) →
       add_text_to_gif a w = (Next tt, w4)).
Proof.
  intros Hpre Hxy Htext.
  assert (add_text_to_gif a w = render a env xy' text w3) as Hrun.
  { unfold add_text_to_gif. rewrite (bind_next _ _ _ _ _ Hpre).
    rewrite (bind_next _ _ _ _ _ Hxy). by rewrite (bind_next _ _ _ _ _ Htext). }
  destruct (render_outcome a env xy' text w3)
    as [(w4 & Hb & Hr)|(e & w4 & Hb & Hr)].
  - split; [|split].
    + exists w4. unfold call. by rewrite Hrun, Hr.
    + intros e w5 Hb'. rewrite Hb in Hb'. discriminate.
    + intros w5 Hb'. rewrite Hb in Hb'. injection Hb' as <-. by rewrite Hrun.
  - split; [|split].
    + exists (prints (exn_str e) w4). unfold call. by rewrite Hrun, Hr.
    + intros e' w5 Hb'. rewrite Hb in Hb'. injection Hb' as <- <-. by rewrite Hrun.
    + intros w5 Hb'. rewrite Hb in Hb'. discriminate.
Qed.

Lemma add_text_percent_run a xs ys px py w env w1 :
  xy a = VTuple [VStr xs; VStr ys] →
  contains_char "%" xs = true → contains_char "%" ys = true →
  prelude a w = (Next env, w1) →
  percent_to_pixels xs (width env) = inr px →
  percent_to_pixels ys (height env) = inr py →
  add_text_to_gif a w =
    bind (text_of_sequence (count env) (text_sequence a))
      (λ text, render a env (VTuple [VInt px; VInt py]) text) w1.
Proof.
  intros Hxy Hx Hy Hpre Hpx Hpy. unfold add_text_to_gif.
  rewrite (bind_next _ _ _ _ _ Hpre).
  erewrite bind_next; [done|]. rewrite Hxy. by apply resolve_xy_percent.
Qed.

(** C4.  A pair of percentage strings is turned into pixel coordinates
    before anything is drawn: [('p%', 'q%')] becomes
    [(int(p / 100 * W), int(q / 100 * H))] and every text is drawn there;
    a pair one of whose parts does not parse as a number raises an
    [Exception]. *)
Theorem percent_xy_resolved_to_pixels (a : TextArgs) (xs ys : string)
    (w : world) (env : Env Frame Font Color) (w1 : world) :
  xy a = VTuple [VStr xs; VStr ys] →
  contains_char "%" xs = true → contains_char "%" ys = true →
  prelude a w = (Next env, w1) →
  (∀ p q px py,
     py_float (remove_char "%" xs) = Some p →
     py_float (remove_char "%" ys) = Some q →
     int_of_float (p / 100 * float_of_int (width env))%float = Some px →
     int_of_float (q / 100 * float_of_int (height env))%float = Some py →
     resolve_xy (width env) (height env) (xy a) w1
       = (Next (VTuple [VInt px; VInt py]), w1)
     ∧ ∀ r w', add_text_to_gif a w = (r, w') →
         ∃ new, calls w' = calls w ++ new
                ∧ Forall (text_at (VTuple [VInt px; VInt py])) new)
  ∧ (py_float (remove_char "%" xs) = None ∨ py_float (remove_char "%" ys) = None →
     add_text_to_gif a w = (Raise (MkExn "Exception" msg_invalid_percent), w1)).
Proof.
  intros Hxy Hx Hy Hpre. split.
  - intros p q px py Hp Hq Hpx Hpy.
    pose proof (percent_to_pixels_ok _ _ _ _ Hp Hpx) as Epx.
    pose proof (percent_to_pixels_ok _ _ _ _ Hq Hpy) as Epy.
    split; [rewrite Hxy; by apply resolve_xy_percent|].
    intros r w' Hr.
    rewrite (add_text_percent_run _ _ _ _ _ _ _ _ Hxy Hx Hy Hpre Epx Epy) in Hr.
    rewrite <- (silent_prelude _ _ _ _ Hpre).
    revert Hr. apply traces_bind.
    + apply silent_traces, silent_text_of_sequence.
    + intros text. apply traces_render.
  - intros Hbad. unfold add_text_to_gif. rewrite (bind_next _ _ _ _ _ Hpre).
    apply bind_raise. rewrite Hxy. apply resolve_xy_percent_invalid; [done..|].
    destruct Hbad as [Hn|Hn]; [left|right]; by apply percent_to_pixels_unparsed.
Qed.

(** C10.  Percentage coordinates are not checked against the frame.  With
    numeric [p] and [q] the pair is accepted wherever the resolved pixel
    position lies, and the first frame is drawn with the text there; the
    same position given as an integer pair is rejected when it is out of
    bounds. *)
Theorem percent_xy_skips_bounds_check (a : TextArgs) (xs ys : string) (p q : float)
    (px py : Z) (w : world) (env : Env Frame Font Color) (w1 : world) :
  xy a = VTuple [VStr xs; VStr ys] →
  contains_char "%" xs = true → contains_char "%" ys = true →
  prelude a w = (Next env, w1) →
  py_float (remove_char "%" xs) = Some p →
  py_float (remove_char "%" ys) = Some q →
  int_of_float (p / 100 * float_of_int (width env))%float = Some px →
  int_of_float (q / 100 * float_of_int (height env))%float = Some py →
  resolve_xy (width env) (height env) (xy a) w1 = (Next (VTuple [VInt px; VInt py]), w1)
  ∧ (∀ f0 rest f0' t0 text w2 r w',
       frames (image env) = f0 :: rest → convert "RGB" f0 = inr f0' →
       image_draw f0' = inr tt →
       text_of_sequence (count env) (text_sequence a) w1 = (Next (t0 :: text), w2) →
       add_text_to_gif a w = (r, w') →
       ∃ more, calls w' = calls w ++ CText (VTuple [VInt px; VInt py]) t0 :: more)
  ∧ (¬ (0 < px < width env ∧ 0 < py < height env) →
       resolve_xy (width env) (height env) (VTuple [VInt px; VInt py]) w1
         = (Return, prints (msg_out_of_bounds (width env) (height env)) w1)).
Proof.
  intros Hxy Hx Hy Hpre Hp Hq Hpx Hpy.
  pose proof (percent_to_pixels_ok _ _ _ _ Hp Hpx) as Epx.
  pose proof (percent_to_pixels_ok _ _ _ _ Hq Hpy) as Epy.
  split; [rewrite Hxy; by apply resolve_xy_percent|]. split.
  - intros f0 rest f0' t0 text w2 r w' Hfr Hconv Hdraw Htext Hr.
    rewrite (add_text_percent_run _ _ _ _ _ _ _ _ Hxy Hx Hy Hpre Epx Epy) in Hr.
    rewrite (bind_next _ _ _ _ _ Htext) in Hr.
    rewrite <- (silent_prelude _ _ _ _ Hpre).
    rewrite <- (silent_text_of_sequence _ _ _ _ _ Htext).
    by apply (starts_with_render a env _ (t0 :: text) f0 rest f0' t0 Hfr Hconv Hdraw
                eq_refl w2 r w').
  - intros Hout. rewrite resolve_xy_int_pair.
    destruct ((0 <? px) && (px <? width env) && (0 <? py) && (py <? height env)) eqn:Eb;
      [|done].
    apply in_bounds_strict in Eb. tauto.
Qed.

(** *** The progress bar *)

Lemma bind_inv {A B} (m : M world A) (k : A → M world B) w r w' :
  bind m k w = (r, w') →
  (∃ a w1, m w = (Next a, w1) ∧ k a w1 = (r, w'))
  ∨ (m w = (Return, w') ∧ r = Return)
  ∨ (∃ e, m w = (Raise e, w') ∧ r = Raise e).
Proof.
  unfold bind. destruct (m w) as [[a| |e] w1]; intros Hr.
  - left. eauto.
  - injection Hr as <- <-. right. by left.
  - injection Hr as <- <-. right. right. eauto.
Qed.

Lemma rectangles_app (l1 l2 : list Call) :
  rectangles (l1 ++ l2) = rectangles l1 ++ rectangles l2.
Proof. apply omap_app. Qed.

Ltac stop_with new :=
  intros [= <- <-]; exists new; cbn [calls]; rewrite <- ?app_assoc, ?app_nil_r;
  split; [done|]; split; [repeat constructor; done|].

Lemma draws_bar_draw_frame a env xy text :
  add_progress_bar a = true →
  draws_bar (progress_bar_shapes env) (draw_frame a env xy text).
Proof.
  intros Hbar idx x w r w'. unfold draw_frame. rewrite Hbar.
  unfold bind, lift, Host.index, log, ret, raise.
  destruct (convert "RGB" x) as [e|f1]; [stop_with (@nil Call); by right|].
  destruct (image_draw f1) as [e|[]]; [stop_with (@nil Call); by right|].
  destruct (text !! idx) as [t|]; [|stop_with (@nil Call); by right].
  destruct (draw_text f1 xy t (font env) (color env)) as [e|f2];
    [stop_with [CText xy t]; by right|].
  destruct (progress_bar_shapes env !! idx) as [sh|] eqn:Esh;
    [|stop_with [CText xy t]; by right].
  cbn [calls].
  destruct (draw_rectangle f2 sh (bar_color env)) as [e|f3];
    [stop_with [CText xy t; CRect sh]; left; eauto|].
  destruct (gif_roundtrip f3) as [e|f4]; stop_with [CText xy t; CRect sh]; left; eauto.
Qed.

Lemma draws_bar_bar_frame shapes col : draws_bar shapes (bar_frame shapes col).
Proof.
  intros idx x w r w'. unfold bar_frame.
  unfold bind, lift, Host.index, log, ret, raise.
  destruct (convert "RGB" x) as [e|f1]; [stop_with (@nil Call); by right|].
  destruct (image_draw f1) as [e|[]]; [stop_with (@nil Call); by right|].
  destruct (shapes !! idx) as [sh|] eqn:Esh; [|stop_with (@nil Call); by right].
  cbn [calls].
  destruct (draw_rectangle f1 sh col) as [e|f3]; [stop_with [CRect sh]; left; eauto|].
  destruct (gif_roundtrip f3) as [e|f4]; stop_with [CRect sh]; left; eauto.
Qed.

Lemma prefix_of_drop {A} (l : list A) i x : l !! i = Some x → [x] `prefix_of` drop i l.
Proof. intros Hx. rewrite (drop_S _ _ _ Hx). by apply prefix_cons, prefix_nil. Qed.

(** The loop draws the bars of the frames it gets through, in order. *)
Lemma bars_for_each shapes (f : nat → Frame → M world Frame) l :
  draws_bar shapes f →
  ∀ i w r w', for_each f i l w = (r, w') →
    ∃ new, calls w' = calls w ++ new
      ∧ Forall (λ c, ∀ p n, c ≠ CSave p n) new
      ∧ rectangles new `prefix_of` drop i shapes
      ∧ (∀ ys, r = Next ys → length (rectangles new) = length l).
Proof.
  intros Hf. induction l as [|x l IH]; intros i w r w'; simpl.
  - intros [= <- <-]. exists []. rewrite app_nil_r.
    split; [done|]. split; [constructor|]. split; [apply prefix_nil | done].
  - intros Hr. apply bind_inv in Hr as [(y & w1 & Hy & Hr)|[[Hy ->]|(e & Hy & ->)]].
    + destruct (Hf _ _ _ _ _ Hy) as (n1 & E1 & F1 & [(sh & Hsh & R1)|[_ Hno]]);
        [|by destruct (Hno y)].
      assert (∃ r2, for_each f (S i) l w1 = (r2, w') ∧ (∀ zs, r = Next zs → ∃ ys, r2 = Next ys))
        as (r2 & Hys & Hnext).
      { apply bind_inv in Hr as [(ys & w2 & Hys & Hr)|[[Hys ->]|(e & Hys & ->)]].
        - injection Hr as <- <-. eauto.
        - eexists. split; [done|]. intros ? [=].
        - eexists. split; [done|]. intros ? [=]. }
      destruct (IH _ _ _ _ Hys) as (n2 & E2 & F2 & P2 & L2).
      exists (n1 ++ n2). rewrite E2, E1, app_assoc, rectangles_app, R1.
      split; [done|]. split; [by apply Forall_app|]. split.
      * rewrite (drop_S _ _ _ Hsh). by apply prefix_cons.
      * intros zs Hzs. destruct (Hnext _ Hzs) as [ys Eys].
        simpl. f_equal. by apply (L2 ys).
    + destruct (Hf _ _ _ _ _ Hy) as (n1 & E1 & F1 & [(sh & Hsh & R1)|[R1 _]]);
        exists n1; rewrite R1; (split; [done|]); (split; [done|]); (split; [|done]);
        [by apply prefix_of_drop | apply prefix_nil].
    + destruct (Hf _ _ _ _ _ Hy) as (n1 & E1 & F1 & [(sh & Hsh & R1)|[R1 _]]);
        exists n1; rewrite R1; (split; [done|]); (split; [done|]); (split; [|done]);
        [by apply prefix_of_drop | apply prefix_nil].
Qed.

Lemma rectangles_none new :
  Forall (λ c, ∀ p n, c ≠ CSave p n) new → ∀ p n, CSave p n ∉ new.
Proof. intros HF p n Hin. rewrite Forall_forall in HF. by destruct (HF _ Hin p n). Qed.

(** Lines 520-547 and 5150-5175: the loop and the save. *)
Lemma bars_loop_and_save shapes f im out d l o w r w' :
  draws_bar shapes f →
  (fr <- for_frames im f ;; save_frames out fr d l o) w = (r, w') →
  drew_bars shapes im w w'.
Proof.
  intros Hf Hr. unfold for_frames in Hr.
  assert (∀ w1 new, calls w1 = calls w ++ new →
            Forall (λ c, ∀ p n, c ≠ CSave p n) new →
            rectangles new `prefix_of` drop 0 shapes →
            drew_bars shapes im w w1) as Hstop.
  { intros w1 new E F P. exists new. split; [done|]. split; [by rewrite drop_0 in P|].
    intros p n Hin. by destruct (rectangles_none _ F p n). }
  apply bind_inv in Hr as [(fr & w1 & Hloop & Hr)|[[Hloop ->]|(e & Hloop & ->)]].
  - apply bind_inv in Hloop as [(ys & w2 & Hys & Hloop)|[[Hys [=]]|(e & Hys & [=])]].
    destruct (bars_for_each shapes f _ Hf _ _ _ _ Hys) as (new & E & F & P & L).
    assert (w1 = w2) as -> by (destruct (iter_error im); by injection Hloop).
    specialize (L ys eq_refl). rewrite drop_0 in P.
    unfold save_frames, save_gif in Hr.
    destruct fr as [|f0 fr]; [injection Hr as <- <-; by apply (Hstop _ new); rewrite ?drop_0|].
    assert (calls w' = calls w2 ++ [CSave out (length (f0 :: fr))]) as E'.
    { destruct (encode_gif _ _ _ _); [destruct (fs _ !! _)|]; by injection Hr as <- <-. }
    exists (new ++ [CSave out (length (f0 :: fr))]).
    rewrite E', E, app_assoc, rectangles_app. simpl. rewrite app_nil_r. done.
  - apply bind_inv in Hloop as [(ys & w2 & Hys & Hloop)|[[Hys _]|(e & Hys & [=])]].
    + destruct (iter_error im); by injection Hloop.
    + destruct (bars_for_each shapes f _ Hf _ _ _ _ Hys) as (new & E & F & P & _).
      by apply (Hstop _ new).
  - apply bind_inv in Hloop as [(ys & w2 & Hys & Hloop)|[[Hys [=]]|(e' & Hys & _)]].
    + destruct (bars_for_each shapes f _ Hf _ _ _ _ Hys) as (new & E & F & P & _).
      assert (w' = w2) as -> by (destruct (iter_error im); by injection Hloop).
      by apply (Hstop _ new).
    + destruct (bars_for_each shapes f _ Hf _ _ _ _ Hys) as (new & E & F & P & _).
      by apply (Hstop _ new).
Qed.

Lemma drew_bars_silent shapes im (w1 w2 w3 w4 : world) :
  calls w2 = calls w1 → calls w4 = calls w3 →
  drew_bars shapes im w2 w3 → drew_bars shapes im w1 w4.
Proof. intros E1 E2 (new & E & ?). exists new. by rewrite E2, E, E1. Qed.

Lemma drew_bars_nothing shapes im (w w' : world) :
  calls w' = calls w → drew_bars shapes im w w'.
Proof.
  intros E. exists []. rewrite app_nil_r. split; [done|].
  split; [apply prefix_nil|]. intros p n Hin. by apply elem_of_nil in Hin.
Qed.

(** A [try] whose handler draws nothing. *)
Lemma try_silent {A} (m : M world A) (h : Exn → M world A) w r w' :
  (∀ e, silent (h e)) → try_except m h w = (r, w') →
  ∃ r0 w0, m w = (r0, w0) ∧ calls w' = calls w0.
Proof.
  intros Hh. unfold try_except.
  destruct (m w) as [[a| |e] w0] eqn:E; intros Hr.
  - injection Hr as <- <-. eauto.
  - injection Hr as <- <-. eauto.
  - exists (Raise e), w0. split; [done|]. apply (Hh _ _ _ _ Hr).
Qed.

(** What [prelude] leaves in scope. *)
Lemma prelude_env a w env w1 :
  prelude a w = (Next env, w1) →
  count env = n_frames (image env)
  ∧ size (image env) = (width env, height env)
  ∧ progress_bar_shapes env
    = bar_shapes (count env) (width env) (height env) (progress_bar_height a).
Proof.
  unfold prelude. intros Hr.
  repeat (apply bind_inv in Hr as [(? & ? & _ & Hr)|[[_ [=]]|(? & _ & [=])]]).
  destruct (size _) as [W H] eqn:Es. injection Hr as <- <-. simpl. by rewrite Es.
Qed.

Lemma add_text_drew_bars a w env w1 r w' :
  add_progress_bar a = true →
  prelude a w = (Next env, w1) →
  add_text_to_gif a w = (r, w') →
  drew_bars (progress_bar_shapes env) (image env) w w'.
Proof.
  intros Hbar Hpre Hr. unfold add_text_to_gif in Hr.
  rewrite (bind_next _ _ _ _ _ Hpre) in Hr.
  pose proof (silent_prelude _ _ _ _ Hpre) as E1.
  apply bind_inv in Hr as [(xy & w2 & Hxy & Hr)|[[Hxy ->]|(e & Hxy & ->)]];
    pose proof (silent_resolve_xy _ _ _ _ _ _ Hxy) as E2;
    [|apply drew_bars_nothing; congruence..].
  apply bind_inv in Hr as [(text & w3 & Ht & Hr)|[[Ht ->]|(e & Ht & ->)]];
    pose proof (silent_text_of_sequence _ _ _ _ _ Ht) as E3;
    [|apply drew_bars_nothing; congruence..].
  unfold render in Hr.
  apply try_silent in Hr as (r0 & w0 & Hr & E4); [|intros e; apply silent_print].
  apply (drew_bars_silent _ _ w w3 w0 w'); [congruence|done|].
  apply (bars_loop_and_save _ _ _ _ _ _ _ _ _ _ (draws_bar_draw_frame _ _ _ _ Hbar) Hr).
Qed.

Lemma silent_bar_prelude in_gif out_gif col : silent (bar_prelude in_gif out_gif col).
Proof. unfold bar_prelude, os_makedirs. silent. Qed.

Lemma add_progress_bar_drew_bars in_gif out_gif col pbh d l w out col' im w1 r w' :
  bar_prelude in_gif out_gif col w = (Next (out, col', im), w1) →
  add_progress_bar_to_gif in_gif out_gif col pbh d l w = (r, w') →
  drew_bars (bar_shapes (n_frames im) (size im).1 (size im).2 pbh) im w w'.
Proof.
  intros Hpre Hr. unfold add_progress_bar_to_gif in Hr.
  rewrite (bind_next _ _ _ _ _ Hpre) in Hr.
  pose proof (silent_bar_prelude _ _ _ _ _ _ Hpre) as E1.
  destruct (size im) as [W H]. simpl.
  apply try_silent in Hr as (r0 & w0 & Hr & E4); [|intros e; apply silent_raise].
  apply (drew_bars_silent _ _ w w1 w0 w'); [done..|].
  apply (bars_loop_and_save _ _ _ _ _ _ _ _ _ _ (draws_bar_bar_frame _ _) Hr).
Qed.

Lemma length_bar_shapes c W H pbh : length (bar_shapes c W H pbh) = Z.to_nat c.
Proof.
  unfold bar_shapes, progress_bar_widths, range2.
  rewrite !length_fmap, length_seq. f_equal. lia.
Qed.

Lemma bar_shapes_lookup c W H pbh i :
  1 <= i <= c →
  bar_shapes c W H pbh !! Z.to_nat (i - 1) = Some (mkShape 0 (H - pbh) (bar_width c W i) H).
Proof.
  intros Hi. unfold bar_shapes, progress_bar_widths, range2.
  rewrite !list_lookup_fmap, lookup_seq_lt by lia. simpl.
  do 3 f_equal. lia.
Qed.

(** C5 (amended): with [add_progress_bar] set, [add_text_to_gif] (and
    [add_progress_bar_to_gif]) draws on the i-th frame of a gif of [c] frames
    of size [W x H] the rectangle from [(0, H - progress_bar_height)] to
    [(x_i, H)] and no other, where [x_i] is the double
    [i * 1.0 / c * W].  As long as [c * W < 2^50], [x_i] is within one part
    in [2^50] of [i * W / c], the [x_i] grow strictly with [i], and the last
    one is [W] exactly. *)
Theorem progress_bar_grows_to_full_width (c W H pbh : Z) :
  1 <= c → 1 <= W → c * W < 2 ^ 50 →
  let bar i := mkShape 0 (H - pbh) (bar_width c W i) H in
  (length (bar_shapes c W H pbh) = Z.to_nat c
   ∧ ∀ i, 1 <= i <= c → bar_shapes c W H pbh !! Z.to_nat (i - 1) = Some (bar i))
  ∧ (∀ a w env w1 r w',
       add_progress_bar a = true → progress_bar_height a = pbh →
       prelude a w = (Next env, w1) →
       count env = c → width env = W → height env = H →
       add_text_to_gif a w = (r, w') →
       drew_bars (bar_shapes c W H pbh) (image env) w w')
  ∧ (∀ in_gif out_gif col d l w out col' im w1 r w',
       bar_prelude in_gif out_gif col w = (Next (out, col', im), w1) →
       n_frames im = c → size im = (W, H) →
       add_progress_bar_to_gif in_gif out_gif col pbh d l w = (r, w') →
       drew_bars (bar_shapes c W H pbh) im w w')
  ∧ (∀ i, 1 <= i <= c →
       ∃ v, float_value (bar_width c W i) v
         ∧ 2 ^ 50 * Z.abs (v * c - i * W * unit_scale) <= i * W * unit_scale)
  ∧ (∀ i j, 1 <= i → i < j → j <= c → (bar_width c W i <? bar_width c W j)%float = true)
  ∧ bar_width c W c = float_of_int W.
Proof.
  intros Hc HW Hsmall bar. repeat split.
  - apply length_bar_shapes.
  - intros i Hi. by apply bar_shapes_lookup.
  - intros a w env w1 r w' Hbar Hpbh Hpre <- <- <- Hr.
    rewrite <- Hpbh. destruct (prelude_env _ _ _ _ Hpre) as (_ & _ & <-).
    by apply (add_text_drew_bars a w env w1 r w').
  - intros in_gif out_gif col d l w out col' im w1 r w' Hpre <- Hsize Hr.
    pose proof (add_progress_bar_drew_bars _ _ _ _ _ _ _ _ _ _ _ _ _ Hpre Hr) as Hd.
    by rewrite Hsize in Hd.
  - intros i Hi. by apply BarFacts.bar_width_value.
  - intros i j Hi Hij Hj. by apply BarFacts.bar_width_lt.
  - by apply BarFacts.bar_width_last.
Qed.

End facts.
End GifFacts.

Module GifRuns.
Import Py Host Gif GifFacts Demo.

Lemma int_xy_drawn_only_within_frame_witness :
  ∃ w', add_text_to_gif (text_args (VTuple [VInt 200; VInt 10]))
          (world0 (blank_gif 100 50 2)) = (Return, w')
        ∧ stdout w' =
            ["xy is out of bounds. x must be within [0, 100], and y must be within [0, 50]"].
Proof.
  destruct (int_xy_drawn_only_within_frame
              (text_args (VTuple [VInt 200; VInt 10])) 200 10
              "/data/in.gif" "/data/out.gif" "/data/in.gif" (80, 80) false
              (world0 (blank_gif 100 50 2)) eq_refl) as (_ & Hrej & _).
  edestruct Hrej as [E _].
  - vm_compute. reflexivity.
  - simpl. lia.
  - eexists. split; [exact E|]. vm_compute. reflexivity.
Defined.

Lemma four_element_xy_rejected_witness :
  ∃ w', call (add_text_to_gif (text_args (VTuple [VInt 1; VInt 2; VInt 3; VInt 4])))
          (world0 (blank_gif 100 50 2)) = (None, w')
        ∧ stdout w' = [msg_invalid_xy] ∧ calls w' = [].
Proof.
  destruct (four_element_xy_rejected
              (text_args (VTuple [VInt 1; VInt 2; VInt 3; VInt 4]))
              (VInt 1) (VInt 2) (VInt 3) (VInt 4)
              (world0 (blank_gif 100 50 2)) eq_refl) as (_ & Hrej).
  edestruct Hrej as [_ E].
  - vm_compute. reflexivity.
  - eexists. split; [exact E|]. vm_compute. done.
Defined.


Lemma drawing_failures_are_swallowed_witness :
  ∃ w', call (add_text_to_gif (text_args (VTuple [VInt 10; VInt 10])))
          (world0 broken_gif) = (None, w')
        ∧ stdout w' = ["broken data stream"].
Proof.
  edestruct (drawing_failures_are_swallowed
               (text_args (VTuple [VInt 10; VInt 10])) (world0 broken_gif))
    as (_ & Hraise & _).
  - vm_compute. reflexivity.
  - vm_compute. reflexivity.
  - vm_compute. reflexivity.
  - eexists. unfold call. erewrite Hraise; [|vm_compute; reflexivity].
    split; reflexivity.
Defined.

Lemma percent_xy_resolved_to_pixels_witness :
  resolve_xy 100 50 (VTuple [VStr "29%"; VStr "10%"]) (world0 (blank_gif 100 50 2))
    = (Next (VTuple [VInt 28; VInt 5]), world0 (blank_gif 100 50 2)).
Proof.
  edestruct (percent_xy_resolved_to_pixels
               (text_args (VTuple [VStr "29%"; VStr "10%"])) "29%" "10%"
               (world0 (blank_gif 100 50 2))) as (Hok & _).
  - reflexivity.
  - reflexivity.
  - reflexivity.
  - vm_compute. reflexivity.
  - edestruct Hok as [E _].
    + vm_compute. reflexivity.
    + vm_compute. reflexivity.
    + vm_compute. reflexivity.
    + vm_compute. reflexivity.
    + exact E.
Defined.

Lemma percent_xy_skips_bounds_check_witness :
  ∃ w' more,
    (add_text_to_gif (text_args (VTuple [VStr "150%"; VStr "10%"]))
       (world0 (blank_gif 100 50 2))).2 = w'
    ∧ calls w' = CText (VTuple [VInt 150; VInt 5]) "1" :: more
    ∧ resolve_xy 100 50 (VTuple [VInt 150; VInt 5]) (world0 (blank_gif 100 50 2))
        = (Return, prints (msg_out_of_bounds 100 50) (world0 (blank_gif 100 50 2))).
Proof.
  edestruct (percent_xy_skips_bounds_check
               (text_args (VTuple [VStr "150%"; VStr "10%"])) "150%" "10%"
               (float_of_int 150) (float_of_int 10) 150 5
               (world0 (blank_gif 100 50 2))) as (_ & Hdraw & Hrej).
  - reflexivity.
  - reflexivity.
  - reflexivity.
  - vm_compute. reflexivity.
  - vm_compute. reflexivity.
  - vm_compute. reflexivity.
  - vm_compute. reflexivity.
  - vm_compute. reflexivity.
  - edestruct Hdraw as [more E].
    + vm_compute. reflexivity.
    + vm_compute. reflexivity.
    + reflexivity.
    + vm_compute. reflexivity.
    + apply surjective_pairing.
    + eexists _, more. split; [reflexivity|]. split; [exact E|].
      apply Hrej. simpl. lia.
Defined.

Lemma progress_bar_grows_to_full_width_witness :
  ∃ w',
    (add_text_to_gif (text_args (VTuple [VInt 10; VInt 10]))
       (world0 (blank_gif 100 50 2))).2 = w'
    ∧ drew_bars (bar_shapes 2 100 50 5) (blank_gif 100 50 2)
        (world0 (blank_gif 100 50 2)) w'
    ∧ (bar_width 2 100 1 <? bar_width 2 100 2)%float = true
    ∧ bar_width 2 100 2 = float_of_int 100.
Proof.
  destruct (progress_bar_grows_to_full_width (platform := platform) 2 100 50 5)
    as (_ & Hrun & _ & _ & Hlt & Hlast); [lia | lia | simpl; lia |].
  eexists. split; [reflexivity|]. split; [|split; [apply Hlt; lia | exact Hlast]].
  eassert (prelude (text_args (VTuple [VInt 10; VInt 10])) (world0 (blank_gif 100 50 2))
           = (Next _, _)) as Hpre by (vm_compute; reflexivity).
  exact (Hrun (text_args (VTuple [VInt 10; VInt 10])) (world0 (blank_gif 100 50 2))
           _ _ _ _ eq_refl eq_refl Hpre eq_refl eq_refl eq_refl (surjective_pairing _)).
Defined.

(** C5 as worded: on a gif of 100 frames of width 100, the bar of frame 29
    does not end at [29*100/100 = 29] but just below it. *)
Lemma progress_bar_width_counterexample :
  ∃ w' sh,
    (add_text_to_gif (text_args (VTuple [VInt 10; VInt 10]))
       (world0 (blank_gif 100 50 100))).2 = w'
    ∧ rectangles (calls w') !! 28%nat = Some sh
    ∧ spec_bar_width 100 100 29 = float_of_int 29
    ∧ x1 sh ≠ spec_bar_width 100 100 29
    ∧ (x1 sh <? float_of_int 29)%float = true
    ∧ int_of_float (x1 sh) = Some 28.
Proof.
  eexists _, _. split; [reflexivity|]. split; [vm_compute; reflexivity|].
  split; [by vm_compute|]. split; [|split; by vm_compute].
  intros E. vm_compute in E. discriminate E.
Qed.

End GifRuns.

Module EEFacts.
Import Py Py.Notations EE.

Section facts.
Context {Raster Region Features Feature Geometry Color Reducer : Type}
  {platform : Platform Raster Region Features Feature Geometry Color Reducer}.

Local Abbreviation image := (Image Raster).

Lemma get_set key value (img : image) : get key (set key value img) = value.
Proof.
  unfold get, set. destruct value as [v|]; simpl.
  - apply lookup_insert_eq.
  - apply lookup_delete_eq.
Qed.

Lemma add_overlay_result collection overlay_data color width opacity region out r out' :
  add_overlay (IsCollection collection) overlay_data color width opacity region out
    = (r, out') →
  ∀ blend_col, r = Next blend_col →
    ∃ fc palette,
      blend_col =
        (λ img, set "system:time_start" (get "system:time_start" img)
                  (blend img (paint_and_visualize fc width palette opacity)))
          <$> collection.
Proof.
  unfold add_overlay, bind.
  destruct (overlay_features overlay_data out) as [[fc| |e] out1]; [|by intros [= <- _]..].
  unfold try_except.
  destruct (check_color color) as [e|palette]; simpl.
  - intros [= <- _] ? [=].
  - intros [= <- _] blend_col [= <-]. eauto.
Qed.

(** C9.  [add_overlay] maps over the collection: the result has one
    blended image for each image of the input, in the same order, and each
    carries the [system:time_start] of the image it was made from. *)
Theorem add_overlay_keeps_time_start
    (collection : CollectionArg Raster) (overlay_data : Overlay Features Feature Geometry)
    (color : val) (width : Z) (opacity : val) (region : option Region)
    (out : list string) :
  (∀ blend_col out',
     add_overlay collection overlay_data color width opacity region out
       = (Next blend_col, out') →
     ∃ images, collection = IsCollection images
       ∧ length blend_col = length images
       ∧ ∀ (i : nat) img, images !! i = Some img →
           ∃ blended, blend_col !! i = Some blended
             ∧ get "system:time_start" blended = get "system:time_start" img)
  ∧ (∀ images fc palette,
       collection = IsCollection images →
       overlay_features overlay_data out = (Next fc, out) →
       check_color color = inr palette →
       ∃ blend_col,
         add_overlay collection overlay_data color width opacity region out
           = (Next blend_col, out)).
Proof.
  split.
  - intros blend_col out' Hrun.
    destruct collection as [images| |]; [|done..].
    exists images. split; [done|].
    destruct (add_overlay_result _ _ _ _ _ _ _ _ _ Hrun _ eq_refl) as (fc & palette & ->).
    split; [by rewrite length_fmap|].
    intros i img Hi. eexists. rewrite list_lookup_fmap, Hi. split; [done|].
    apply get_set.
  - intros images fc palette -> Hfc Hcolor.
    eexists. unfold add_overlay, bind. rewrite Hfc.
    unfold try_except. rewrite Hcolor. reflexivity.
Qed.

(** *** [create_timeseries] *)

Lemma get_empty_create_image collection region bands frequency reducer fmt ps date :
  get "empty" (create_image collection region bands frequency reducer fmt ps date)
    = Some (PNum (if bool_decide (sub_col collection region frequency date = []) then 1 else 0)).
Proof.
  unfold get, create_image. simpl. rewrite lookup_insert_eq.
  destruct (sub_col collection region frequency date) as [|x l]; reflexivity.
Qed.

Lemma filter_fmap_comm {A B} (f : A → B) (P : B → Prop) (Q : A → Prop)
    `{∀ y, Decision (P y)} `{∀ x, Decision (Q x)} (l : list A) :
  (∀ x, P (f x) ↔ Q x) → filter P (f <$> l) = f <$> filter Q l.
Proof.
  intros HPQ. induction l as [|x l IH]; [done|].
  rewrite fmap_cons, !filter_cons.
  destruct (decide (P (f x))) as [HP|HP]; destruct (decide (Q x)) as [HQ|HQ].
  - by rewrite fmap_cons, IH.
  - by apply HPQ in HP.
  - by apply HPQ in HQ.
  - done.
Qed.

Lemma drop_empty_composites collection region bands frequency reducer fmt ps dates :
  filterMetadata_equals "empty" (PNum 0)
    (create_image collection region bands frequency reducer fmt ps <$> dates)
  = create_image collection region bands frequency reducer fmt ps
      <$> filter (λ d, sub_col collection region frequency d ≠ []) dates.
Proof.
  unfold filterMetadata_equals. apply filter_fmap_comm. intros d.
  rewrite get_empty_create_image. case_bool_decide as Hs; split; done.
Qed.

Lemma elem_of_sub_col collection region frequency date (img : image) :
  img ∈ sub_col collection region frequency date ↔
    img ∈ collection
    ∧ (∃ t, get "system:time_start" img = Some (PNum t)
            ∧ date_millis date <= t < bucket_end frequency (date_millis date))
    ∧ (∀ r, region = Some r → intersects r img = true).
Proof.
  assert (∀ s e, in_date_range s e img = true ↔
            ∃ t, get "system:time_start" img = Some (PNum t) ∧ s <= t < e) as Hrange.
  { intros s e. unfold in_date_range.
    destruct (get "system:time_start" img) as [[t|?]|]; split.
    - intros [?%Z.leb_le ?%Z.ltb_lt]%andb_true_iff. eauto.
    - intros (t' & [= <-] & ? & ?). apply andb_true_iff.
      split; [by apply Z.leb_le | by apply Z.ltb_lt].
    - done.
    - by intros (? & ? & _).
    - done.
    - by intros (? & ? & _). }
  unfold sub_col, filterBounds, filterDate. destruct region as [r|].
  - rewrite !list_elem_of_filter, Hrange. split.
    + intros (Hi & Ht & Hc). split; [done|]. split; [done|]. by intros ? [= <-].
    + intros (Hc & Ht & Hi). split; [by apply Hi|]. done.
  - rewrite list_elem_of_filter, Hrange. split.
    + intros (Ht & Hc). split; [done|]. split; [done|]. by intros ? [=].
    + intros (Hc & Ht & _). done.
Qed.


Lemma feq_dict_frequencies frequency :
  frequency ∈ frequencies → is_Some (feq_dict !! frequency).
Proof.
  unfold frequencies. rewrite !elem_of_cons, elem_of_nil.
  intros [->|[->|[->|[->|[->|[->|[->|[->|[]]]]]]]]]; vm_compute; eauto.
Qed.


Lemma create_timeseries_result collection start_date end_date region bands frequency
    reducer drop_empty date_fmt parallel_scale step out images out' :
  create_timeseries collection start_date end_date region bands frequency reducer
    drop_empty date_fmt parallel_scale step out = (Next images, out') →
  ∃ source names fmt r,
    source_of collection bands = Some source
    ∧ reducer_named reducer = inr r
    ∧ (date_fmt = Some fmt ∨ date_fmt = None ∧ feq_dict !! frequency = Some fmt)
    ∧ images =
        let composites :=
          create_image source region names frequency r fmt parallel_scale
            <$> date_sequence start_date end_date frequency fmt step in
        if drop_empty then filterMetadata_equals "empty" (PNum 0) composites
        else composites.
Proof.
  unfold create_timeseries, source_of.
  destruct collection as [c|s|]; simpl; [| |by intros [=]].
  - unfold bind at 1. simpl.
    unfold bind at 1.
    destruct bands as [b|]; simpl.
    + unfold bind at 1.
      destruct date_fmt as [f|]; simpl.
      * unfold bind at 1, try_except.
        destruct (reducer_named reducer) as [e|r]; simpl; [by intros [=]|].
        destruct drop_empty; intros [= <- _]; eauto 10.
      * destruct (feq_dict !! frequency) as [f|] eqn:Ef; simpl; [|by intros [=]].
        unfold bind at 1, try_except.
        destruct (reducer_named reducer) as [e|r]; simpl; [by intros [=]|].
        destruct drop_empty; intros [= <- _]; eauto 10.
    + destruct c as [|first c']; simpl; [by intros [=]|].
      unfold bind at 1.
      destruct date_fmt as [f|]; simpl.
      * unfold bind at 1, try_except.
        destruct (reducer_named reducer) as [e|r]; simpl; [by intros [=]|].
        destruct drop_empty; intros [= <- _]; eauto 10.
      * destruct (feq_dict !! frequency) as [f|] eqn:Ef; simpl; [|by intros [=]].
        unfold bind at 1, try_except.
        destruct (reducer_named reducer) as [e|r]; simpl; [by intros [=]|].
        destruct drop_empty; intros [= <- _]; eauto 10.
  - unfold bind at 1. simpl.
    unfold bind at 1.
    destruct bands as [b|]; simpl.
    + unfold bind at 1.
      destruct date_fmt as [f|]; simpl.
      * unfold bind at 1, try_except.
        destruct (reducer_named reducer) as [e|r]; simpl; [by intros [=]|].
        destruct drop_empty; intros [= <- _]; eauto 10.
      * destruct (feq_dict !! frequency) as [f|] eqn:Ef; simpl; [|by intros [=]].
        unfold bind at 1, try_except.
        destruct (reducer_named reducer) as [e|r]; simpl; [by intros [=]|].
        destruct drop_empty; intros [= <- _]; eauto 10.
    + destruct (image_collection s) as [|first c']; simpl; [by intros [=]|].
      unfold bind at 1.
      destruct date_fmt as [f|]; simpl.
      * unfold bind at 1, try_except.
        destruct (reducer_named reducer) as [e|r]; simpl; [by intros [=]|].
        destruct drop_empty; intros [= <- _]; eauto 10.
      * destruct (feq_dict !! frequency) as [f|] eqn:Ef; simpl; [|by intros [=]].
        unfold bind at 1, try_except.
        destruct (reducer_named reducer) as [e|r]; simpl; [by intros [=]|].
        destruct drop_empty; intros [= <- _]; eauto 10.
Qed.

(** C1, as the code has it.  For each date [d] of the date sequence
    [create_timeseries] builds one composite, stamped with [d]: the reducer
    applied to the images of the collection whose [system:time_start] lies
    in [[d, d + one frequency unit)] (three months for a quarter) and, when
    a region is given, that intersect the region, the result then clipped
    to the region.  With [drop_empty] the composites of the buckets with no
    such image are left out; without it there is exactly one composite per
    date, in order.  The call returns for each of the eight frequencies. *)
Theorem create_timeseries_composites
    (collection : CollectionArg Raster) (start_date end_date : string)
    (region : option Region) (bands : option (list string)) (frequency reducer : string)
    (drop_empty : bool) (date_fmt : option string) (parallel_scale step : Z)
    (out : list string) :
  (∀ images out',
     create_timeseries collection start_date end_date region bands frequency reducer
       drop_empty date_fmt parallel_scale step out = (Next images, out') →
     ∃ source names fmt r,
       source_of collection bands = Some source
       ∧ reducer_named reducer = inr r
       ∧ (date_fmt = Some fmt ∨ date_fmt = None ∧ feq_dict !! frequency = Some fmt)
       ∧ let dates := date_sequence start_date end_date frequency fmt step in
         let bucket := sub_col source region frequency in
         let composite := create_image source region names frequency r fmt parallel_scale in
         images = composite <$> (if drop_empty then filter (λ d, bucket d ≠ []) dates
                                 else dates)
         ∧ (∀ d, raster (composite d) =
                   rename names
                     (match region with
                      | None => reduce r parallel_scale (bucket d)
                      | Some rg =>
                          (if is_feature_collection rg then clip_to_collection rg
                           else clip rg) (reduce r parallel_scale (bucket d))
                      end)
                 ∧ get "system:time_start" (composite d) = Some (PNum (date_millis d)))
         ∧ (∀ d img, img ∈ bucket d ↔
                img ∈ source
                ∧ (∃ t, get "system:time_start" img = Some (PNum t)
                        ∧ date_millis d <= t
                            < (if bool_decide (frequency = "quarter")
                               then advance 3 "month" (date_millis d)
                               else advance 1 frequency (date_millis d)))
                ∧ (∀ rg, region = Some rg → intersects rg img = true)))
  ∧ (∀ c r,
       collection = IsCollection c →
       is_Some bands ∨ c ≠ [] →
       frequency ∈ frequencies →
       reducer_named reducer = inr r →
       ∃ images,
         create_timeseries collection start_date end_date region bands frequency reducer
           drop_empty date_fmt parallel_scale step out = (Next images, out)).
Proof.
  split.
  - intros images out' Hrun.
    destruct (create_timeseries_result _ _ _ _ _ _ _ _ _ _ _ _ _ _ Hrun)
      as (source & names & fmt & r & Hsrc & Hred & Hfmt & ->).
    exists source, names, fmt, r. do 3 (split; [done|]). simpl. split; [|split].
    + destruct drop_empty; [apply drop_empty_composites | done].
    + intros d. split.
      * unfold create_image. simpl. by destruct region as [rg|]; [destruct (is_feature_collection rg)|].
      * unfold get, create_image. simpl.
        rewrite lookup_insert_ne by done. rewrite lookup_insert_ne by done.
        apply lookup_insert_eq.
    + intros d img. apply elem_of_sub_col.
  - intros c r -> Hbands Hfreq Hred.
    destruct (feq_dict_frequencies _ Hfreq) as [f Hf].
    unfold create_timeseries, bind, try_except. simpl.
    rewrite Hred. simpl.
    destruct bands as [b|]; simpl.
    + destruct date_fmt as [f'|]; simpl; [|rewrite Hf; simpl];
        destruct drop_empty; eauto.
    + destruct Hbands as [[? [=]]|Hc]. destruct c as [|first c']; [done|]. simpl.
      destruct date_fmt as [f'|]; simpl; [|rewrite Hf; simpl];
        destruct drop_empty; eauto.
Qed.

End facts.
End EEFacts.

Module EERuns.
Import Py EE EEFacts DemoEE.

(** With a region the composite of a bucket is not the reducer applied to
    all the images of the bucket: scene [b] lies in the first bucket but
    outside the region, and is left out. *)
Lemma create_timeseries_region_counterexample :
  ∃ first rest,
    create_timeseries (IsCollection scenes) "0" "29" (Some "west") None "month" "median"
      false None 1 1 [] = (Next (first :: rest), [])
    ∧ get "system:time_start" first = Some (PNum (date_millis "0"))
    ∧ raster first = ["a"]
    ∧ rename ["B1"] (composite_as_specified scenes "month" "median" 1 "0") = ["a"; "b"]
    ∧ raster first ≠ rename ["B1"] (composite_as_specified scenes "month" "median" 1 "0").
Proof.
  eexists _, _. split; [vm_compute; reflexivity|].
  split; [vm_compute; reflexivity|].
  split; [vm_compute; reflexivity|].
  split; [vm_compute; reflexivity|].
  vm_compute. discriminate.
Qed.

Lemma create_timeseries_composites_witness :
  ∃ images,
    create_timeseries (IsCollection scenes) "0" "29" (Some "west") None "month" "median"
      true None 1 1 [] = (Next images, [])
    ∧ raster <$> images = [["a"]; ["c"]].
Proof.
  destruct (create_timeseries_composites (IsCollection scenes) "0" "29" (Some "west") None
              "month" "median" true None 1 1 []) as [Hshape Hruns].
  destruct (Hruns scenes "median" eq_refl) as [images Hrun].
  - right. discriminate.
  - vm_compute. set_solver.
  - reflexivity.
  - exists images. split; [exact Hrun|].
    destruct (Hshape _ _ Hrun) as (source & names & fmt & r & Hsrc & Hr & Hfmt & Himgs & _).
    injection Hsrc as <-. injection Hr as <-.
    destruct Hfmt as [[=]|[_ [= <-]]].
    rewrite Himgs. vm_compute. reflexivity.
Defined.

Lemma add_overlay_keeps_time_start_witness :
  ∃ blend_col,
    add_overlay (IsCollection scenes) (OStr "countries") (VStr "black") 1 (VObj "1.0")
      None [] = (Next blend_col, [])
    ∧ get "system:time_start" <$> blend_col = [Some (PNum 3); Some (PNum 7); Some (PNum 25)].
Proof.
  destruct (add_overlay_keeps_time_start (IsCollection scenes) (OStr "countries")
              (VStr "black") 1 (VObj "1.0") None []) as [Hkeeps Hruns].
  destruct (Hruns scenes "users/giswqs/public/countries" (VStr "black") eq_refl)
    as [blend_col Hrun].
  - vm_compute. reflexivity.
  - reflexivity.
  - exists blend_col. split; [exact Hrun|].
    destruct (Hkeeps _ _ Hrun) as (images & [= <-] & Hlen & Hstamp).
    destruct blend_col as [|b0 [|b1 [|b2 [|]]]]; try discriminate Hlen.
    destruct (Hstamp 0%nat _ eq_refl) as (? & [= <-] & H0).
    destruct (Hstamp 1%nat _ eq_refl) as (? & [= <-] & H1).
    destruct (Hstamp 2%nat _ eq_refl) as (? & [= <-] & H2).
    cbn [fmap list_fmap]. rewrite H0, H1, H2. reflexivity.
Defined.

End EERuns.

Module EncoderFacts.
Import Py Py.Notations Host Encoders.

(** [merge_gifs] on a list of files: the shell command runs and the
    function is done, whatever the command did. *)
Lemma merge_gifs_runs_and_returns {Frame Font Color : Type}
    {platform : Platform Frame Font Color} (l : list string) (out_gif : string)
    (w : World Frame) :
  let cmd := "gifsicle " +:+ join " " l +:+ " > " +:+ out_gif in
  merge_gifs (ImagesList l) out_gif w =
    (Next tt,
     mkWorld (os_system cmd (cwd w) (fs w)) (stdout w) (cwd w) (calls w ++ [CSystem cmd])).
Proof. reflexivity. Qed.

(** C3 on a host whose encoders write nothing.  [gif_to_mp4] and
    [make_gif] with [mp4=True] look for the mp4 and raise; [gif_fading],
    [gif_to_png] and [merge_gifs] run their command and return without
    looking for the output, [gif_to_png] even reporting the images as
    saved. *)
Theorem encoder_output_checked_only_for_mp4 :
  let w := Demo.world0 (Demo.blank_gif 100 50 3) in
  let failed := Raise (MkExn "Exception" msg_mp4_failed) in
  (gif_to_mp4 (platform := Demo.host true) "/data/in.gif" "/data/out.mp4" w).1 = failed
  ∧ (make_gif (platform := Demo.host true) (ImagesList ["/data/in.gif"]) "/data/out.gif"
       "jpg" 10 (VInt 0) true false w).1 = failed
  ∧ (let r := gif_fading (platform := Demo.host true) "/data/in.gif" "/data/out.gif" 1 false w in
     r.1 = Next tt ∧ stdout r.2 = [] ∧ fs r.2 !! "/data/out.gif" = None)
  ∧ (let r := gif_to_png (platform := Demo.host true) "/data/in.gif" VNone "" true w in
     r.1 = Next tt ∧ stdout r.2 = ["Images are saved to /tmp/in"]
     ∧ fs r.2 !! "/tmp/in/1.png" = None)
  ∧ (let r := merge_gifs (platform := Demo.host true) (ImagesList ["/data/in.gif"])
                "/data/out.gif" w in
     r.1 = Next tt ∧ stdout r.2 = [] ∧ fs r.2 !! "/data/out.gif" = None).
Proof. vm_compute. repeat split. Qed.

End EncoderFacts.

(** ** Doubles read as ints *)

Module PixelFacts.
Import Py Binary64Facts.

(** [int(x)] of a positive double is the floor of its value. *)
Lemma int_of_float_value x v : float_value x v → int_of_float x = Some (v `div` unit_scale).
Proof.
  intros (m & e & Hx & [Hm He] & ->). unfold int_of_float. rewrite Hx.
  unfold scaled, unit_scale. f_equal.
  destruct e as [|p|p].
  - by rewrite Z.div_mul.
  - rewrite Z.pow_add_r, Z.mul_assoc, Z.div_mul by lia. done.
  - rewrite (pow2_split 1074 (Z.neg p + 1074)) by lia.
    replace (1074 - (Z.neg p + 1074)) with (Z.pos p) by lia.
    rewrite Z.div_mul_cancel_r; [done|..].
    + pose proof (pow2_pos (Z.pos p) ltac:(lia)). lia.
    + pose proof (pow2_pos (Z.neg p + 1074) ltac:(lia)). lia.
Qed.

Lemma float_value_pos x v : float_value x v → 0 < v.
Proof.
  intros (m & e & _ & [Hm He] & ->). unfold scaled.
  apply Z.mul_pos_pos; [lia|]. apply pow2_pos. lia.
Qed.

Lemma float_hundred_value : float_value 100 (100 * unit_scale).
Proof.
  exists 7036874417766400%positive, (-46). split; [by vm_compute|].
  split; [|by vm_compute]. split; by vm_compute.
Qed.

(** [int(p / 100.0 * W)] for a percentage [p] up to 100. *)
Lemma percent_of_width p v W :
  float_value p v → 2 ^ 674 <= v <= 100 * unit_scale → 1 <= W < 2 ^ 53 →
  ∃ n, int_of_float (p / 100 * float_of_int W) = Some n
    ∧ 0 <= n <= W ∧ (v = 100 * unit_scale → n = W).
Proof.
  intros Vp Hv HW. pose proof unit_scale_pos as HB.
  pose proof (int_window 100 ltac:(lia)) as W100.
  assert (2 ^ 600 <= v <= 2 ^ 1500) as Wv.
  { split; [etrans; [|apply Hv]; by apply pow2_le | lia]. }
  destruct (div_rounds _ _ _ _ Vp float_hundred_value Wv W100) as (r1 & V1 & Hlo & Hhi & _).
  assert (representable unit_scale) as R1.
  { replace unit_scale with (1 * 2 ^ 1074) by done. by apply representable_int. }
  assert (representable (2 ^ 660)) as R660.
  { replace (2 ^ 660) with (1 * 2 ^ 660) by lia. by apply representable_int. }
  assert (r1 <= unit_scale) as Hle.
  { apply Hhi; [done|]. rewrite Z.mul_assoc.
    apply Z.mul_le_mono_nonneg_r; lia. }
  assert (2 ^ 660 <= r1) as Hge.
  { apply Hlo; [done|]. rewrite Z.mul_assoc.
    apply Z.mul_le_mono_nonneg_r; [lia|].
    etrans; [|apply Hv]. change (2 ^ 674) with (2 ^ 660 * 2 ^ 14).
    apply Z.mul_le_mono_nonneg_l; [|done]. by apply Z.lt_le_incl, pow2_pos. }
  assert (2 ^ 600 <= r1 <= 2 ^ 1500) as W1.
  { split; [etrans; [|apply Hge]; by apply pow2_le|].
    etrans; [apply Hle|]. by apply pow2_le. }
  destruct (times_width_rounds _ r1 W V1 W1 ltac:(lia)) as (rx & Vx & Hxlo & Hxhi & _).
  pose proof (float_of_int_value W ltac:(lia)) as VW.
  pose proof (represents_representable _ _ VW) as RW.
  pose proof (float_value_pos _ _ Vx) as Hpos.
  assert (rx <= W * unit_scale) as Hx.
  { apply Hxhi; [done|]. rewrite (Z.mul_comm W). apply Z.mul_le_mono_nonneg_r; lia. }
  exists (rx `div` unit_scale). split; [by apply int_of_float_value|]. split.
  - split; [apply Z.div_pos; lia|]. apply Z.div_le_upper_bound; lia.
  - intros ->. assert (r1 = unit_scale) as ->.
    { apply Z.le_antisymm; [done|]. apply Hlo; [done|]. lia. }
    assert (rx = W * unit_scale) as ->.
    { apply Z.le_antisymm; [done|]. apply Hxlo; [done|]. lia. }
    by rewrite Z.div_mul by lia.
Qed.

End PixelFacts.

(** ** More on the functions that draw on a gif *)

Module GifBehaviour.
Import Py Py.Notations Host Gif Observe GifFacts.

Section behaviour.
Context {Frame Font Color : Type} {platform : Platform Frame Font Color}.

Local Abbreviation world := (World Frame).
Local Abbreviation silent := (Host.silent (Frame := Frame)).
Local Abbreviation traces := (Host.traces (Frame := Frame)).

Ltac quiet_step :=
  first
    [ apply silent_ret | apply silent_raise | apply silent_return | apply silent_lift
    | apply silent_print | apply silent_abspath | apply silent_exists
    | apply silent_on_fs | apply silent_Image_open | apply silent_index
    | apply silent_when
    | apply silent_len_is_2 | apply silent_all_items
    | apply silent_bind; [|intros ?]
    | apply silent_try; [|intros ?]
    | match goal with
      | |- Host.silent (if ?b then _ else _) => destruct b
      | |- Host.silent (match ?x with _ => _ end) => destruct x
      end ].
Ltac quiet := repeat quiet_step.

Lemma silent_resolve_logo_xy W H resize xy : silent (resolve_logo_xy W H resize xy).
Proof. unfold resolve_logo_xy. quiet. Qed.

Lemma saves_app (l1 l2 : list Call) : saves (l1 ++ l2) = saves l1 ++ saves l2.
Proof. apply omap_app. Qed.

Lemma saves_none new : Forall (λ c, is_save c = false) new → saves new = [].
Proof.
  induction 1 as [|c new Hc _ IH]; [done|].
  destruct c; try done; simpl in *; by rewrite ?IH.
Qed.

Lemma for_each_length {A B} (f : nat → A → M world B) l i w ys w' :
  for_each f i l w = (Next ys, w') → length ys = length l.
Proof.
  revert i w ys w'. induction l as [|x l IH]; intros i w ys w'; simpl.
  - by intros [= <- _].
  - intros Hr. apply bind_inv in Hr as [(y & w1 & _ & Hr)|[[_ [=]]|(? & _ & [=])]].
    apply bind_inv in Hr as [(zs & w2 & Hzs & Hr)|[[_ [=]]|(? & _ & [=])]].
    injection Hr as <- _. simpl. f_equal. by apply (IH _ _ _ _ Hzs).
Qed.

(** The loop over the frames saves nothing and yields one frame for each
    frame of the input. *)
Lemma for_frames_saves_nothing (f : nat → Frame → M world Frame) im w r1 w1 :
  (∀ idx x, traces (λ c, is_save c = false) (f idx x)) →
  for_frames im f w = (r1, w1) →
  ∃ new, calls w1 = calls w ++ new ∧ saves new = []
    ∧ ∀ ys, r1 = Next ys → length ys = length (frames im).
Proof.
  intros Hf. unfold for_frames. intros H1.
  apply bind_inv in H1 as [(ys & w2 & Hys & H1)|[[Hys ->]|(e & Hys & ->)]];
    destruct (traces_for_each _ f 0 (frames im) Hf _ _ _ Hys) as (new & E & F);
    [|exists new; split; [done|]; split; [by apply saves_none | done]..].
  assert (w1 = w2) as -> by (destruct (iter_error im); by injection H1).
  exists new. split; [done|]. split; [by apply saves_none|].
  intros zs ->. destruct (iter_error im); [done|]. injection H1 as <-.
  by apply (for_each_length _ _ _ _ _ _ Hys).
Qed.

(** The loop over the frames followed by the save: the gif is saved at
    most once, with one frame for each frame of the input. *)
Lemma loop_and_save_once (f : nat → Frame → M world Frame) im out d l o w r w' :
  (∀ idx x, traces (λ c, is_save c = false) (f idx x)) →
  (fr <- for_frames im f ;; save_frames out fr d l o) w = (r, w') →
  ∃ new, calls w' = calls w ++ new
    ∧ (saves new = [] ∨ saves new = [(out, length (frames im))]).
Proof.
  intros Hf Hr.
  apply bind_inv in Hr as [(fr & w1 & Hfr & Hr)|[[Hfr ->]|(e & Hfr & ->)]].
  - destruct (for_frames_saves_nothing _ _ _ _ _ Hf Hfr) as (new & E & S & L).
    specialize (L fr eq_refl).
    unfold save_frames, save_gif in Hr.
    destruct fr as [|f0 fr]; [injection Hr as <- <-; eauto|].
    assert (calls w' = calls w1 ++ [CSave out (length (f0 :: fr))]) as E'.
    { destruct (encode_gif _ _ _ _); [destruct (fs _ !! _)|]; by injection Hr as <- <-. }
    exists (new ++ [CSave out (length (f0 :: fr))]).
    rewrite E', E, app_assoc, saves_app, S. split; [done|]. right. rewrite <- L. reflexivity.
  - destruct (for_frames_saves_nothing _ _ _ _ _ Hf Hfr) as (new & E & S & _). eauto.
  - destruct (for_frames_saves_nothing _ _ _ _ _ Hf Hfr) as (new & E & S & _). eauto.
Qed.

(** The loop bodies log texts, rectangles and pastes only. *)
Lemma traces_draw_frame_with P a env xy text idx x :
  (∀ t, P (CText xy t)) → (∀ sh, P (CRect sh)) →
  traces P (draw_frame a env xy text idx x).
Proof.
  intros Ht Hr. unfold draw_frame.
  apply traces_bind; [apply silent_traces, silent_lift|]. intros f1.
  apply traces_bind; [apply silent_traces, silent_lift|]. intros _.
  apply traces_bind; [apply silent_traces, silent_index|]. intros t.
  apply traces_bind; [by apply traces_log|]. intros _.
  apply traces_bind; [apply silent_traces, silent_lift|]. intros f2.
  apply traces_bind; [|intros f3; apply silent_traces, silent_lift].
  destruct (add_progress_bar a); [|apply silent_traces, silent_ret].
  apply traces_bind; [apply silent_traces, silent_index|]. intros sh.
  apply traces_bind; [by apply traces_log|]. intros _.
  apply silent_traces, silent_lift.
Qed.

Lemma traces_bar_frame_with P shapes col idx x :
  (∀ sh, P (CRect sh)) → traces P (bar_frame shapes col idx x).
Proof.
  intros Hr. unfold bar_frame.
  apply traces_bind; [apply silent_traces, silent_lift|]. intros f1.
  apply traces_bind; [apply silent_traces, silent_lift|]. intros _.
  apply traces_bind; [apply silent_traces, silent_index|]. intros sh.
  apply traces_bind; [by apply traces_log|]. intros _.
  apply traces_bind; [apply silent_traces, silent_lift|]. intros f2.
  apply silent_traces, silent_lift.
Qed.

Lemma traces_paste_frame_with P logo xy mask idx x :
  P (CPaste xy) → traces P (paste_frame logo xy mask idx x).
Proof.
  intros Hp. unfold paste_frame.
  apply traces_bind; [apply silent_traces, silent_lift|]. intros f1.
  apply traces_bind; [by apply traces_log|]. intros _.
  apply traces_bind; [apply silent_traces, silent_lift|]. intros f2.
  apply silent_traces, silent_lift.
Qed.

Lemma saved_calls (w1 w2 w3 w4 : world) new :
  calls w2 = calls w1 → calls w4 = calls w3 → calls w3 = calls w2 ++ new →
  calls w4 = calls w1 ++ new.
Proof. congruence. Qed.

(** X1.  The functions that draw on a gif save their output at most once,
    and what they save has exactly one frame for each frame of the input
    gif. *)
Theorem annotated_gif_keeps_frame_count :
  (∀ a w env w1 r w',
     prelude a w = (Next env, w1) →
     add_text_to_gif a w = (r, w') →
     ∃ new, calls w' = calls w ++ new
       ∧ (saves new = []
          ∨ saves new = [(env_out_gif env, length (frames (image env)))]))
  ∧ (∀ in_gif out_gif col pbh d l w out col' im w1 r w',
       bar_prelude in_gif out_gif col w = (Next (out, col', im), w1) →
       add_progress_bar_to_gif in_gif out_gif col pbh d l w = (r, w') →
       ∃ new, calls w' = calls w ++ new
         ∧ (saves new = [] ∨ saves new = [(out, length (frames im))]))
  ∧ (∀ in_gif out_gif in_image xy image_size circle_mask w gif logo w1 r w',
       logo_prelude in_gif out_gif in_image image_size circle_mask w
         = (Next (gif, logo), w1) →
       add_image_to_gif in_gif out_gif in_image xy image_size circle_mask w = (r, w') →
       ∃ new, calls w' = calls w ++ new
         ∧ (saves new = [] ∨ saves new = [(out_gif, length (frames gif))])).
Proof.
  split; [|split].
  - intros a w env w1 r w' Hpre Hr. unfold add_text_to_gif in Hr.
    rewrite (bind_next _ _ _ _ _ Hpre) in Hr.
    pose proof (silent_prelude _ _ _ _ Hpre) as E1.
    apply bind_inv in Hr as [(xy & w2 & Hxy & Hr)|[[Hxy ->]|(e & Hxy & ->)]];
      pose proof (silent_resolve_xy _ _ _ _ _ _ Hxy) as E2;
      [|exists []; rewrite app_nil_r; split; [congruence|by left]..].
    apply bind_inv in Hr as [(text & w3 & Ht & Hr)|[[Ht ->]|(e & Ht & ->)]];
      pose proof (silent_text_of_sequence _ _ _ _ _ Ht) as E3;
      [|exists []; rewrite app_nil_r; split; [congruence|by left]..].
    unfold render in Hr.
    apply try_silent in Hr as (r0 & w0 & Hr & E4); [|intros e; apply silent_print].
    destruct (loop_and_save_once _ _ _ _ _ _ _ _ _
                (λ idx x, traces_draw_frame_with _ a env xy text idx x
                            (λ _, eq_refl) (λ _, eq_refl)) Hr) as (new & E & S).
    exists new. split; [|done]. congruence.
  - intros in_gif out_gif col pbh d l w out col' im w1 r w' Hpre Hr.
    unfold add_progress_bar_to_gif in Hr.
    rewrite (bind_next _ _ _ _ _ Hpre) in Hr.
    pose proof (silent_bar_prelude _ _ _ _ _ _ Hpre) as E1.
    destruct (size im) as [W H].
    apply try_silent in Hr as (r0 & w0 & Hr & E4); [|intros e; apply silent_raise].
    destruct (loop_and_save_once _ _ _ _ _ _ _ _ _
                (λ idx x, traces_bar_frame_with _ _ col' idx x (λ _, eq_refl)) Hr)
      as (new & E & S).
    exists new. split; [|done]. congruence.
  - intros in_gif out_gif in_image xy image_size circle_mask w gif
      [[logo resize] mask] w1 r w' Hpre Hr.
    unfold add_image_to_gif in Hr.
    rewrite (bind_next _ _ _ _ _ Hpre) in Hr.
    pose proof (silent_logo_prelude _ _ _ _ _ _ _ _ Hpre) as E1.
    destruct (size gif) as [W H].
    apply bind_inv in Hr as [(xy' & w2 & Hxy & Hr)|[[Hxy ->]|(e & Hxy & ->)]];
      pose proof (silent_resolve_logo_xy _ _ _ _ _ _ _ Hxy) as E2;
      [|exists []; rewrite app_nil_r; split; [congruence|by left]..].
    apply try_silent in Hr as (r0 & w0 & Hr & E4); [|intros e; apply silent_print].
    destruct (loop_and_save_once _ _ _ _ _ _ _ _ _
                (λ idx x, traces_paste_frame_with _ logo xy' mask idx x eq_refl) Hr)
      as (new & E & S).
    exists new. split; [|done]. congruence.
Qed.

(** *** The labels *)

Lemma logs_item_for_each {B} (proj : Call → option B) items
    (f : nat → Frame → M world Frame) l :
  logs_item proj items f →
  ∀ i w r w', for_each f i l w = (r, w') →
    ∃ new, calls w' = calls w ++ new ∧ omap proj new `prefix_of` drop i items.
Proof.
  intros Hf. induction l as [|x l IH]; intros i w r w'; simpl.
  - intros [= <- <-]. exists []. rewrite app_nil_r. split; [done|apply prefix_nil].
  - intros Hr. apply bind_inv in Hr as [(y & w1 & Hy & Hr)|[[Hy ->]|(e & Hy & ->)]].
    + destruct (Hf _ _ _ _ _ Hy) as (n1 & E1 & [(b & Hb & R1)|[_ Hno]]);
        [|by destruct (Hno y)].
      assert (∃ r2, for_each f (S i) l w1 = (r2, w')) as (r2 & Hys).
      { apply bind_inv in Hr as [(ys & w2 & Hys & Hr)|[[Hys ->]|(e & Hys & ->)]];
          [injection Hr as <- <-|..]; eauto. }
      destruct (IH _ _ _ _ Hys) as (n2 & E2 & P2).
      exists (n1 ++ n2). rewrite E2, E1, app_assoc, omap_app, R1.
      split; [done|]. rewrite (drop_S _ _ _ Hb). by apply prefix_cons.
    + destruct (Hf _ _ _ _ _ Hy) as (n1 & E1 & [(b & Hb & R1)|[R1 _]]);
        exists n1; rewrite R1; (split; [done|]);
        [by apply prefix_of_drop | apply prefix_nil].
    + destruct (Hf _ _ _ _ _ Hy) as (n1 & E1 & [(b & Hb & R1)|[R1 _]]);
        exists n1; rewrite R1; (split; [done|]);
        [by apply prefix_of_drop | apply prefix_nil].
Qed.

Lemma logs_item_loop_and_save {B} (proj : Call → option B) items
    (f : nat → Frame → M world Frame) im out d l o w r w' :
  (∀ p n, proj (CSave p n) = None) →
  logs_item proj items f →
  (fr <- for_frames im f ;; save_frames out fr d l o) w = (r, w') →
  ∃ new, calls w' = calls w ++ new ∧ omap proj new `prefix_of` items.
Proof.
  intros Hsave Hf Hr.
  assert (∀ r1 w1, for_frames im f w = (r1, w1) →
            ∃ new, calls w1 = calls w ++ new ∧ omap proj new `prefix_of` items) as Hloop.
  { intros r1 w1. unfold for_frames. intros H1.
    apply bind_inv in H1 as [(ys & w2 & Hys & H1)|[[Hys ->]|(e & Hys & ->)]];
      destruct (logs_item_for_each proj items f _ Hf _ _ _ _ Hys) as (new & E & P);
      rewrite drop_0 in P; [|by eauto..].
    assert (w1 = w2) as -> by (destruct (iter_error im); by injection H1). eauto. }
  apply bind_inv in Hr as [(fr & w1 & Hfr & Hr)|[[Hfr ->]|(e & Hfr & ->)]];
    [|by eauto..].
  destruct (Hloop _ _ Hfr) as (new & E & P).
  unfold save_frames, save_gif in Hr.
  destruct fr as [|f0 fr]; [injection Hr as <- <-; eauto|].
  assert (calls w' = calls w1 ++ [CSave out (length (f0 :: fr))]) as E'.
  { destruct (encode_gif _ _ _ _); [destruct (fs _ !! _)|]; by injection Hr as <- <-. }
  exists (new ++ [CSave out (length (f0 :: fr))]).
  rewrite E', E, app_assoc, omap_app. split; [done|].
  cbn [omap list_omap]. rewrite Hsave. by rewrite app_nil_r.
Qed.

Lemma logs_text_draw_frame a env xy text :
  logs_item (λ c, match c with CText _ t => Some t | _ => None end) text
    (draw_frame a env xy text).
Proof.
  intros idx x w r w'. unfold draw_frame.
  unfold bind, lift, Host.index, log, ret, raise.
  destruct (convert "RGB" x) as [e|f1];
    [intros [= <- <-]; exists []; rewrite app_nil_r; split; [done|by right]|].
  destruct (image_draw f1) as [e|[]];
    [intros [= <- <-]; exists []; rewrite app_nil_r; split; [done|by right]|].
  destruct (text !! idx) as [t|] eqn:Et;
    [|intros [= <- <-]; exists []; rewrite app_nil_r; split; [done|by right]].
  assert (∀ (w2 : world) more,
            calls w2 = (calls w ++ [CText xy t]) ++ more →
            omap (λ c, match c with CText _ t => Some t | _ => None end) more = [] →
            ∃ new, calls w2 = calls w ++ new
              ∧ ((∃ b, Some t = Some b
                       ∧ omap (λ c, match c with CText _ t => Some t | _ => None end) new
                         = [b])
                 ∨ (omap (λ c, match c with CText _ t => Some t | _ => None end) new = []
                    ∧ ∀ y : Frame, r ≠ Next y))) as Hdone.
  { intros w2 more E Hm. exists (CText xy t :: more).
    rewrite E, <- app_assoc. split; [done|]. left. exists t. split; [done|].
    cbn [omap list_omap]. by rewrite Hm. }
  destruct (draw_text f1 xy t (font env) (color env)) as [e|f2];
    [intros [= <- <-]; apply (Hdone _ []); [by rewrite app_nil_r|done]|].
  destruct (add_progress_bar a).
  - destruct (progress_bar_shapes env !! idx) as [sh|];
      [|intros [= <- <-]; apply (Hdone _ []); [by rewrite app_nil_r|done]].
    cbn [calls].
    destruct (draw_rectangle f2 sh (bar_color env)) as [e|f3];
      [intros [= <- <-]; by apply (Hdone _ [CRect sh])|].
    destruct (gif_roundtrip f3) as [e|f4]; intros [= <- <-]; by apply (Hdone _ [CRect sh]).
  - cbn [calls].
    destruct (gif_roundtrip f2) as [e|f4]; intros [= <- <-];
      apply (Hdone _ []); by rewrite ?app_nil_r.
Qed.

Lemma str_range_lookup a b (i : nat) t :
  str_range a b !! i = Some t → t = str (a + Z.of_nat i).
Proof.
  unfold str_range, range2. rewrite !list_lookup_fmap.
  destruct (seq 0 (Z.to_nat (b - a)) !! i) as [k|] eqn:Ek; [|done].
  apply lookup_seq in Ek as [-> _]. by intros [= <-].
Qed.

Lemma prefix_lookup_same {A} (l1 l2 : list A) i x :
  l1 `prefix_of` l2 → l1 !! i = Some x → l2 !! i = Some x.
Proof. intros [k ->] Hx. by apply lookup_app_l_Some. Qed.

(** The texts drawn are the first entries of the list lines 501-517 build. *)
Lemma add_text_texts a w env w1 r w' new :
  prelude a w = (Next env, w1) →
  add_text_to_gif a w = (r, w') →
  calls w' = calls w ++ new →
  new = [] ∨ ∃ pos w2 text w3,
    resolve_xy (width env) (height env) (xy a) w1 = (Next pos, w2)
    ∧ text_of_sequence (count env) (text_sequence a) w2 = (Next text, w3)
    ∧ texts new `prefix_of` text.
Proof.
  intros Hpre Hr Hnew. unfold add_text_to_gif in Hr.
  rewrite (bind_next _ _ _ _ _ Hpre) in Hr.
  pose proof (silent_prelude _ _ _ _ Hpre) as E1.
  apply bind_inv in Hr as [(pos & w2 & Hxy & Hr)|[[Hxy ->]|(e & Hxy & ->)]];
    pose proof (silent_resolve_xy _ _ _ _ _ _ Hxy) as E2;
    [|left; apply (calls_app_nil w w'); [congruence|done]..].
  apply bind_inv in Hr as [(text & w3 & Ht & Hr)|[[Ht ->]|(e & Ht & ->)]];
    pose proof (silent_text_of_sequence _ _ _ _ _ Ht) as E3;
    [|left; apply (calls_app_nil w w'); [congruence|done]..].
  right. exists pos, w2, text, w3. split; [done|]. split; [done|].
  unfold render in Hr.
  apply try_silent in Hr as (r0 & w0 & Hr & E4); [|intros e; apply silent_print].
  destruct (logs_item_loop_and_save _ text _ _ _ _ _ _ _ _ _
              (λ _ _, eq_refl) (logs_text_draw_frame a env pos text) Hr) as (new' & E & P).
  assert (new = new') as ->; [|done].
  apply (app_inv_head (calls w)). congruence.
Qed.

(** X2.  The label of each frame.  With [text_sequence=None] the frames
    are labelled 1, 2, 3, ...; with an int [n] (or a string that reads as
    one) they are labelled n, n+1, n+2, ...; with any other string every
    frame gets that string. *)
Theorem frame_labels (a : TextArgs) (w : world) (env : Env Frame Font Color)
    (w1 : world) (r : step unit) (w' : world) (new : list Call) :
  prelude a w = (Next env, w1) →
  add_text_to_gif a w = (r, w') →
  calls w' = calls w ++ new →
  (text_sequence a = VNone →
     ∀ (i : nat) t, texts new !! i = Some t → t = str (1 + Z.of_nat i))
  ∧ (∀ n, text_sequence a = VInt n →
       ∀ (i : nat) t, texts new !! i = Some t → t = str (n + Z.of_nat i))
  ∧ (∀ s n, text_sequence a = VStr s → py_int s = Some n →
       ∀ (i : nat) t, texts new !! i = Some t → t = str (n + Z.of_nat i))
  ∧ (∀ s, text_sequence a = VStr s → py_int s = None →
       ∀ t, t ∈ texts new → t = s).
Proof.
  intros Hpre Hr Hnew.
  destruct (add_text_texts _ _ _ _ _ _ _ Hpre Hr Hnew)
    as [->|(pos & w2 & text & w3 & _ & Ht & P)].
  { split; [|split; [|split]]; try done. intros s _ _ t Hin. by apply elem_of_nil in Hin. }
  unfold text_of_sequence in Ht.
  split; [|split; [|split]].
  - intros E i t Hi. rewrite E in Ht. injection Ht as <- _.
    apply (str_range_lookup 1 (count env + 1)).
    by apply (prefix_lookup_same _ _ _ _ P).
  - intros n E i t Hi. rewrite E in Ht. injection Ht as <- _.
    apply (str_range_lookup n (n + count env + 1)).
    by apply (prefix_lookup_same _ _ _ _ P).
  - intros s n E Hs i t Hi. rewrite E in Ht. cbn in Ht. rewrite Hs in Ht.
    injection Ht as <- _.
    apply (str_range_lookup n (n + count env + 1)).
    by apply (prefix_lookup_same _ _ _ _ P).
  - intros s E Hs t Hin. rewrite E in Ht. cbn in Ht. rewrite Hs in Ht.
    injection Ht as <- _.
    destruct P as [k Hk].
    assert (t ∈ replicate (Z.to_nat (count env)) s) as Hin'.
    { rewrite Hk. apply elem_of_app. by left. }
    by apply elem_of_replicate in Hin' as [-> _].
Qed.

(** *** Failures *)

(** X3.  When the input gif does not exist, the three functions print
    the same message and return: no output directory is made, nothing is
    opened, drawn or written. *)
Theorem missing_input_gif_is_reported (w : world) (in_gif : string) :
  lookup_path (abspath (cwd w) in_gif) w = None →
  (∀ a, Gif.in_gif a = in_gif →
     add_text_to_gif a w = (Return, prints msg_no_gif w))
  ∧ (∀ out_gif col pbh d l,
       add_progress_bar_to_gif in_gif out_gif col pbh d l w = (Return, prints msg_no_gif w))
  ∧ (∀ out_gif in_image xy image_size circle_mask,
       add_image_to_gif in_gif out_gif in_image xy image_size circle_mask w
         = (Return, prints msg_no_gif w)).
Proof.
  intros Hno. split; [|split].
  - intros a <-. unfold add_text_to_gif, prelude, bind, os_path_abspath, os_path_exists.
    simpl. by rewrite Hno.
  - intros. unfold add_progress_bar_to_gif, bar_prelude, bind, os_path_abspath,
      os_path_exists.
    simpl. by rewrite Hno.
  - intros. unfold add_image_to_gif, logo_prelude, bind, os_path_abspath, os_path_exists.
    simpl. by rewrite Hno.
Qed.

(** X4.  [add_progress_bar_to_gif] swallows nothing: when it completes
    (rather than returning early or raising) it has saved the gif, with
    one frame for each frame of the input, and the file is there. *)
Theorem progress_bar_completes_only_when_saved
    (in_gif out_gif : string) (col : val) (pbh : Z) (d l : val) (w w' : world) :
  add_progress_bar_to_gif in_gif out_gif col pbh d l w = (Next tt, w') →
  ∃ out col' im w1 fr saved new,
    bar_prelude in_gif out_gif col w = (Next (out, col', im), w1)
    ∧ length fr = length (frames im)
    ∧ encode_gif fr d l true = inr saved
    ∧ calls w' = calls w ++ new
    ∧ saves new = [(out, length (frames im))]
    ∧ lookup_path out w' = Some (Img saved).
Proof.
  intros Hr. unfold add_progress_bar_to_gif in Hr.
  apply bind_inv in Hr as [([[out col'] im] & w1 & Hpre & Hr)|[[_ [=]]|(? & _ & [=])]].
  pose proof (silent_bar_prelude _ _ _ _ _ _ Hpre) as E1.
  destruct (size im) as [W H].
  unfold try_except in Hr.
  match type of Hr with
  | match ?body w1 with _ => _ end = _ => destruct (body w1) as [[[]| |e] w2] eqn:Hbody
  end; [|done..].
  injection Hr as ->.
  apply bind_inv in Hbody as [(fr & w3 & Hfr & Hsave)|[[_ [=]]|(? & _ & [=])]].
  destruct (for_frames_saves_nothing _ _ _ _ _
              (λ idx x, traces_bar_frame_with _ _ col' idx x (λ _, eq_refl)) Hfr)
    as (new & E & S & L).
  specialize (L fr eq_refl).
  unfold save_frames, save_gif in Hsave.
  destruct fr as [|f0 fr]; [done|].
  destruct (encode_gif (f0 :: fr) d l true) as [e|saved] eqn:Henc;
    [by destruct (fs _ !! _)|].
  injection Hsave as <-.
  exists out, col', im, w1, (f0 :: fr), saved, (new ++ [CSave out (length (f0 :: fr))]).
  split; [done|]. split; [done|]. split; [done|].
  cbn [calls with_fs]. rewrite E, E1, <- app_assoc. split; [done|].
  rewrite saves_app, S, <- L. split; [done|].
  unfold lookup_path. cbn [fs cwd with_fs]. by rewrite lookup_insert_eq.
Qed.

(** X5.  A logo file that is there but cannot be opened is not a
    reported error: lines 597-609 print the exception and go on to read
    the size of [None], so [add_image_to_gif] raises [AttributeError]. *)
Theorem unreadable_logo_raises_attribute_error
    (in_gif out_gif in_image : string) (xy : val) (image_size : Z * Z)
    (circle_mask : bool) (w : world) (gif : Image Frame) (d : string) (e : Exn) :
  lookup_path (abspath (cwd w) in_gif) w = Some (Img gif) →
  startswith "http" in_image = false →
  is_Some (lookup_path in_image w) →
  check_dir (dirname out_gif) (fs w) = inr (d, fs w) →
  is_Some (lookup_path d w) →
  Image_open (abspath (cwd w) in_image) w = (Raise e, w) →
  add_image_to_gif in_gif out_gif in_image xy image_size circle_mask w
  = (Raise (MkExn "AttributeError" "'NoneType' object has no attribute 'size'"),
     prints (exn_str e) w).
Proof.
  intros Hgif Hurl Hlogo Hdir Hd Hopen. destruct w as [f out c cs].
  unfold add_image_to_gif, logo_prelude, load_logo, bind, try_except, when,
    os_path_abspath, os_path_exists, os_makedirs, on_fs, Image_open, print, return_,
    ret, raise, lift in *.
  cbn [fs cwd stdout calls with_fs] in *.
  assert (is_Some (lookup_path (abspath c in_gif) (mkWorld f out c cs))) as Hin
    by (rewrite Hgif; eauto).
  rewrite Hurl, (bool_decide_eq_true_2 _ Hin).
  cbn [negb andb fs cwd stdout calls with_fs].
  rewrite (bool_decide_eq_true_2 _ Hlogo).
  cbn [negb andb fs cwd stdout calls with_fs]. rewrite Hdir.
  unfold with_fs. cbn [negb andb fs cwd stdout calls].
  rewrite (bool_decide_eq_true_2 _ Hd). cbn [negb andb].
  unfold with_fs. cbn [fs cwd stdout calls]. rewrite Hgif.
  cbn [fs cwd stdout calls].
  destruct (lookup_path (abspath c in_image) _) as [[| |]|] eqn:El;
    simplify_eq; reflexivity.
Qed.

(** *** Percentages *)

(** X6.  A percentage between 0 and 100 puts the text within the frame:
    [x] is between 0 and [W], and "100%" is [W] itself, the position the
    check on integer pairs refuses. *)
Theorem percent_up_to_100_is_within_the_frame (s : string) (W : Z) (p : float) (v : Z) :
  py_float (remove_char "%" s) = Some p →
  float_value p v → 2 ^ 674 <= v <= 100 * unit_scale →
  1 <= W < 2 ^ 53 →
  ∃ x, percent_to_pixels s W = inr x
    ∧ 0 <= x <= W
    ∧ (v = 100 * unit_scale →
       x = W
       ∧ ∀ H y (w : world), 0 < y < H →
           resolve_xy W H (VTuple [VInt x; VInt y]) w
           = (Return, prints (msg_out_of_bounds W H) w)).
Proof.
  intros Hp Vp Hv HW.
  destruct (PixelFacts.percent_of_width p v W Vp Hv HW) as (n & Hn & Hb & Hfull).
  exists n. split; [by apply percent_to_pixels_ok with p|]. split; [done|].
  intros Hv100. specialize (Hfull Hv100) as ->. split; [done|].
  intros H y w Hy. rewrite resolve_xy_int_pair.
  assert ((0 <? W) && (W <? W) && (0 <? y) && (y <? H) = false) as ->; [|done].
  rewrite Z.ltb_irrefl. by rewrite andb_false_r.
Qed.

End behaviour.
End GifBehaviour.

(** ** More on the encoders *)

Module EncoderBehaviour.
Import Py Py.Notations Host Encoders Observe GifFacts.

Section behaviour.
Context {Frame Font Color : Type} {platform : Platform Frame Font Color}.

Local Abbreviation world := (World Frame).
Local Abbreviation silent := (Host.silent (Frame := Frame)).
Local Abbreviation traces := (Host.traces (Frame := Frame)).

Lemma silent_isdir p : silent (os_path_isdir p).
Proof. by intros w r w' [= _ <-]. Qed.

Lemma silent_getcwd : silent os_getcwd.
Proof. by intros w r w' [= _ <-]. Qed.

Lemma silent_chdir d : silent (os_chdir d).
Proof. intros w r w'. unfold os_chdir. by destruct (lookup_path d w) as [[| |]|]; intros [= _ <-]. Qed.


Lemma traces_save_gif P p fr d l o : P (CSave p (length fr)) → traces P (save_gif p fr d l o).
Proof.
  intros Hc w r w'. unfold save_gif. destruct (encode_gif _ _ _ _).
  - destruct (fs _ !! _); intros [= _ <-]; exists [CSave p (length fr)];
      (split; [done | by constructor]).
  - intros [= _ <-]. exists [CSave p (length fr)]. split; [done | by constructor].
Qed.

Ltac quiet_step :=
  first
    [ apply silent_ret | apply silent_raise | apply silent_return | apply silent_lift
    | apply silent_print | apply silent_abspath | apply silent_exists
    | apply silent_on_fs | apply silent_Image_open | apply silent_index
    | apply silent_isdir | apply silent_getcwd | apply silent_chdir
    | apply silent_when
    | apply silent_bind; [|intros ?]
    | apply silent_try; [|intros ?]
    | match goal with
      | |- Host.silent (if ?b then _ else _) => destruct b
      | |- Host.silent (match ?x with _ => _ end) => destruct x
      end ].
Ltac quiet := repeat quiet_step.



(** Nor does trying to: the world is the same whatever happens. *)
Lemma for_each_open_same (paths : list string) i (w : world) r w' :
  for_each (λ _ image, Image_open image) i paths w = (r, w') → w' = w.
Proof.
  revert i r. induction paths as [|p paths IH]; intros i r; simpl.
  - by intros [= _ <-].
  - unfold bind at 1. unfold Image_open at 1.
    destruct (lookup_path p w) as [[| |]|]; try by intros [= _ <-].
    unfold bind. destruct (for_each _ _ _ _) as [[ys| |e] w2] eqn:E;
      intros [= _ <-]; by apply (IH _ _ E).
Qed.


(** What a save does to the world. *)
Lemma save_gif_effect p fr d l o (w : world) r w' :
  save_gif p fr d l o w = (r, w') →
  calls w' = calls w ++ [CSave p (length fr)]
  ∧ cwd w' = cwd w ∧ stdout w' = stdout w
  ∧ (∀ k, k ≠ canon (cwd w) p → fs w' !! k = fs w !! k)
  ∧ r ≠ Return.
Proof.
  unfold save_gif. destruct (encode_gif fr d l o) as [e|im].
  - destruct (fs _ !! _) eqn:Ek; intros [= <- <-]; cbn; repeat split; try done.
    intros k Hk. by rewrite lookup_insert_ne.
  - intros [= <- <-]; cbn; repeat split; try done.
    intros k Hk. by rewrite lookup_insert_ne.
Qed.


(** X8.  [make_gif] with nothing to assemble raises before it writes
    anything: [IndexError] for an empty list, [ValueError] for a directory
    without matching images and for a string that is not a directory. *)
Theorem make_gif_rejects_empty_input (out_gif ext : string) (fps : Z) (loop : val)
    (mp4 clean_up : bool) (w : world) :
  make_gif (ImagesList []) out_gif ext fps loop mp4 clean_up w
  = (Raise (MkExn "IndexError" "list index out of range"), w)
  ∧ (∀ dir,
       lookup_path dir w = Some Dir →
       glob (path_join dir ("*." +:+ ext)) (cwd w) (fs w) = [] →
       make_gif (ImagesPath dir) out_gif ext fps loop mp4 clean_up w
       = (Raise (MkExn "ValueError" "No images found in the input directory."), w))
  ∧ (∀ p,
       lookup_path p w ≠ Some Dir →
       make_gif (ImagesPath p) out_gif ext fps loop mp4 clean_up w
       = (Raise (MkExn "ValueError"
                   "images must be a list or a path to the image directory."), w)).
Proof.
  split; [done|]. split.
  - intros dir Hdir Hglob. unfold make_gif, bind, os_path_isdir.
    by rewrite Hdir, Hglob.
  - intros p Hp. unfold make_gif, bind, os_path_isdir.
    by destruct (lookup_path p w) as [[| |]|].
Qed.

(** X9.  With [mp4=True] and no ffmpeg, [make_gif] stops after the gif:
    it does not complete, so the images are not removed, whatever
    [clean_up] says; no file but the gif is touched and no command is run. *)
Theorem make_gif_without_ffmpeg_keeps_images (images : Images) (out_gif ext : string)
    (fps : Z) (loop : val) (clean_up : bool) (w : world) (r : step unit) (w' : world) :
  is_tool "ffmpeg" = false →
  make_gif images out_gif ext fps loop true clean_up w = (r, w') →
  r ≠ Next tt
  ∧ (∀ k, k ≠ canon (cwd w) out_gif → fs w' !! k = fs w !! k)
  ∧ ∃ new, calls w' = calls w ++ new ∧ commands new = []
      ∧ (r = Return → stdout w' = stdout w ++ [msg_no_ffmpeg] ∧ saves new ≠ []).
Proof.
  intros Htool Hr.
  assert (∀ r0, r0 ≠ Next tt → r0 ≠ Return →
            r0 ≠ Next tt ∧ (∀ k, k ≠ canon (cwd w) out_gif → fs w !! k = fs w !! k)
            ∧ ∃ new, calls w = calls w ++ new ∧ commands new = []
                ∧ (r0 = Return → stdout w = stdout w ++ [msg_no_ffmpeg] ∧ saves new ≠ []))
    as Hstop.
  { intros r0 H1 H2. split; [done|]. split; [done|]. exists []. by rewrite app_nil_r. }
  unfold make_gif in Hr.
  apply bind_inv in Hr as [(paths & w1 & Hres & Hr)|[[Hres ->]|(e & Hres & ->)]].
  - assert (w1 = w) as ->.
    { destruct images as [dir|l]; [|by injection Hres].
      unfold bind, os_path_isdir in Hres.
      destruct (lookup_path dir w) as [[| |]|]; try done.
      by destruct (glob _ _ _); injection Hres. }
    clear Hres. unfold assemble_gif in Hr.
    apply bind_inv in Hr as [(fr & w1 & Hopen & Hr)|[[Hopen ->]|(e & Hopen & ->)]];
      pose proof (for_each_open_same _ _ _ _ _ Hopen) as ->.
    2:{ exfalso. revert Hopen. apply no_return_for_each. intros j x w0 w0'.
        unfold Image_open. by destruct (lookup_path x w0) as [[| |]|]. }
    2:{ by apply Hstop. }
    apply bind_inv in Hr as [(one & w1 & Hone & Hr)|[[Hone ->]|(e & Hone & ->)]];
      pose proof (silent_index _ _ _ _ _ Hone) as E0.
    2:{ unfold Host.index in Hone. by destruct (fr !! 0%nat). }
    2:{ assert (w' = w) as -> by (unfold Host.index in Hone; by destruct (fr !! 0%nat); injection Hone).
        by apply Hstop. }
    assert (w1 = w) as -> by (unfold Host.index in Hone; by destruct (fr !! 0%nat); injection Hone).
    apply bind_inv in Hr as [(d & w1 & Hd & Hr)|[[Hd ->]|(e & Hd & ->)]].
    2:{ unfold lift in Hd. by destruct (frame_duration fps). }
    2:{ assert (w' = w) as -> by (unfold lift in Hd; by destruct (frame_duration fps); injection Hd).
        by apply Hstop. }
    assert (w1 = w) as -> by (unfold lift in Hd; by destruct (frame_duration fps); injection Hd).
    apply bind_inv in Hr as [([] & w1 & Hsave & Hr)|[[Hsave ->]|(e & Hsave & ->)]];
      destruct (save_gif_effect _ _ _ _ _ _ _ _ Hsave) as (E1 & E2 & E3 & E4 & E5);
      [|done|].
    + cbn [when] in Hr. rewrite Htool in Hr. cbn in Hr. injection Hr as <- <-.
      cbn. split; [done|]. split; [done|].
      eexists. split; [exact E1|]. split; [done|]. intros _. by rewrite E3.
    + split; [done|]. split; [done|]. eexists. split; [exact E1|]. done.
  - destruct images as [dir|l]; [|done].
    unfold bind, os_path_isdir in Hres.
    destruct (lookup_path dir w) as [[| |]|]; try done.
    by destruct (glob _ _ _).
  - assert (w' = w) as ->.
    { destruct images as [dir|l]; [|done].
      unfold bind, os_path_isdir in Hres.
      destruct (lookup_path dir w) as [[| |]|]; try by injection Hres.
      by destruct (glob _ _ _); injection Hres. }
    by apply Hstop.
Qed.

(** *** [gif_to_mp4] *)

Lemma when_inv (b : bool) (m : M world unit) (w : world) r w' :
  when b m w = (r, w') → (b = true ∧ m w = (r, w')) ∨ (b = false ∧ r = Next tt ∧ w' = w).
Proof. destruct b; [by left|]. intros [= <- <-]. by right. Qed.

Lemma on_fs_effect f (w : world) r w' :
  on_fs f w = (r, w') →
  calls w' = calls w ∧ stdout w' = stdout w ∧ cwd w' = cwd w ∧ r ≠ Return
  ∧ (∀ e, r = Raise e → w' = w).
Proof. unfold on_fs. destruct (f (fs w)); intros [= <- <-]; repeat split; congruence. Qed.

(** X10.  [gif_to_mp4] runs no command unless the input exists and ffmpeg
    is installed: a missing input raises [FileNotFoundError] with nothing
    touched, a missing ffmpeg is reported and the function returns. *)
Theorem gif_to_mp4_needs_input_and_ffmpeg (in_gif out_mp4 : string) (w : world)
    (r : step unit) (w' : world) :
  gif_to_mp4 in_gif out_mp4 w = (r, w') →
  (lookup_path in_gif w = None →
     r = Raise (MkExn "FileNotFoundError" (in_gif +:+ " does not exist.")) ∧ w' = w)
  ∧ (is_tool "ffmpeg" = false →
       calls w' = calls w ∧ r ≠ Next tt
       ∧ (r = Return → stdout w' = stdout w ++ [msg_no_ffmpeg])).
Proof.
  intros Hr. split.
  - intros Hno. unfold gif_to_mp4, bind, os_path_exists in Hr. rewrite Hno in Hr.
    simpl in Hr. by injection Hr as <- <-.
  - intros Htool. unfold gif_to_mp4 in Hr.
    apply bind_inv in Hr as [(found & w1 & Hf & Hr)|[[Hf ->]|(e & Hf & ->)]];
      [|done..]. injection Hf as <- <-.
    apply bind_inv in Hr as [([] & w1 & Hw & Hr)|[[Hw ->]|(e & Hw & ->)]].
    2:{ by destruct (negb _). }
    2:{ destruct (negb _); [|done]. by injection Hw as <- <-. }
    assert (w1 = w) as -> by (destruct (negb _); [done|by injection Hw]). clear Hw.
    apply bind_inv in Hr as [(out & w1 & Ha & Hr)|[[Ha ->]|(e & Ha & ->)]]; [|done..].
    injection Ha as <- <-.
    apply bind_inv in Hr as [(has & w1 & Hd & Hr)|[[Hd ->]|(e & Hd & ->)]]; [|done..].
    injection Hd as <- <-.
    apply bind_inv in Hr as [([] & w1 & Hm & Hr)|[[Hm ->]|(e & Hm & ->)]].
    + assert (calls w1 = calls w ∧ stdout w1 = stdout w) as [E1 E2].
      { apply when_inv in Hm as [[_ Hm]|(_ & _ & ->)]; [|done].
        by destruct (on_fs_effect _ _ _ _ Hm) as (? & ? & _). }
      rewrite Htool in Hr. cbn in Hr. injection Hr as <- <-. cbn.
      split; [done|]. split; [done|]. intros _. by rewrite E2.
    + apply when_inv in Hm as [[_ Hm]|(_ & [=] & _)].
      by destruct (on_fs_effect _ _ _ _ Hm) as (_ & _ & _ & ? & _).
    + apply when_inv in Hm as [[_ Hm]|(_ & [=] & _)].
      by destruct (on_fs_effect _ _ _ _ Hm) as (? & _).
Qed.

Lemma round_up_to_even n : Z.even (n + n `mod` 2) = true ∧ n <= n + n `mod` 2 <= n + 1.
Proof.
  pose proof (Z.mod_pos_bound n 2 ltac:(lia)) as Hb.
  split; [|lia].
  apply Z.even_spec. exists (n `div` 2 + n `mod` 2).
  pose proof (Z.div_mod n 2 ltac:(lia)). lia.
Qed.

(** X11.  [gif_to_mp4] has ffmpeg encode at even dimensions: a gif whose
    width and height are even is passed as it is, any other is scaled with
    each odd dimension rounded up by one. *)
Theorem gif_to_mp4_encodes_at_even_size (in_gif out_mp4 : string) (w : world)
    (im : Image Frame) (width height : Z) (r : step unit) (w' : world) :
  let out := if endswith ".mp4" (abspath (cwd w) out_mp4)
             then abspath (cwd w) out_mp4 else abspath (cwd w) out_mp4 +:+ ".mp4" in
  is_tool "ffmpeg" = true →
  lookup_path in_gif w = Some (Img im) →
  size im = (width, height) →
  is_Some (lookup_path (dirname out) w) →
  gif_to_mp4 in_gif out_mp4 w = (r, w') →
  let width' := width + width `mod` 2 in
  let height' := height + height `mod` 2 in
  Z.even width' = true ∧ Z.even height' = true
  ∧ width <= width' <= width + 1 ∧ height <= height' <= height + 1
  ∧ calls w' = calls w ++
      [CSystem
         (if Z.even width && Z.even height
          then "ffmpeg -loglevel error -i " +:+ in_gif
                 +:+ " -vcodec libx264 -crf 25 -pix_fmt yuv420p " +:+ out
          else "ffmpeg -loglevel error -i " +:+ in_gif +:+ " -vf scale=" +:+ str width'
                 +:+ ":" +:+ str height'
                 +:+ " -vcodec libx264 -crf 25 -pix_fmt yuv420p " +:+ out)].
Proof.
  intros out Htool Hin Hsize Hdir Hr width' height'.
  destruct (round_up_to_even width) as [Ew Bw], (round_up_to_even height) as [Eh Bh].
  do 4 (split; [done|]).
  unfold gif_to_mp4 in Hr.
  rewrite (bind_next _ _ w true w) in Hr;
    [|unfold os_path_exists; rewrite bool_decide_eq_true_2; [done|rewrite Hin; eauto]].
  cbn [negb when] in Hr. rewrite (bind_next _ _ w tt w) in Hr by done.
  rewrite (bind_next _ _ w (abspath (cwd w) out_mp4) w) in Hr by done.
  cbv zeta in Hr. fold out in Hr.
  rewrite (bind_next _ _ w true w) in Hr;
    [|unfold os_path_exists; by rewrite (bool_decide_eq_true_2 _ Hdir)].
  cbn [negb when] in Hr. rewrite (bind_next _ _ w tt w) in Hr by done.
  rewrite Htool in Hr. cbn [negb when] in Hr. rewrite (bind_next _ _ w tt w) in Hr by done.
  rewrite (bind_next _ _ w im w) in Hr; [|unfold Image_open; by rewrite Hin].
  rewrite Hsize in Hr. rewrite !Zeven_mod.
  apply bind_inv in Hr as [([] & w1 & Hcmd & Hr)|[[Hcmd ->]|(e & Hcmd & ->)]].
  - assert (calls w' = calls w1) as ->.
    { unfold bind, os_path_exists, when in Hr.
      by destruct (negb _); injection Hr as _ <-. }
    by destruct ((width `mod` 2 =? 0) && (height `mod` 2 =? 0)); injection Hcmd as <-.
  - by destruct ((width `mod` 2 =? 0) && (height `mod` 2 =? 0)).
  - by destruct ((width `mod` 2 =? 0) && (height `mod` 2 =? 0)).
Qed.

(** *** The working directory *)

Local Abbreviation keeps_cwd := (Observe.keeps_cwd (Frame := Frame)).

Lemma keeps_cwd_ret {A} (a : A) : keeps_cwd (ret a : M world A).
Proof. by intros w r w' [= _ <-]. Qed.
Lemma keeps_cwd_raise {A} e : keeps_cwd (@raise world A e).
Proof. by intros w r w' [= _ <-]. Qed.
Lemma keeps_cwd_return {A} : keeps_cwd (@return_ world A).
Proof. by intros w r w' [= _ <-]. Qed.
Lemma keeps_cwd_print s : keeps_cwd (print s).
Proof. by intros w r w' [= _ <-]. Qed.
Lemma keeps_cwd_abspath p : keeps_cwd (os_path_abspath p).
Proof. by intros w r w' [= _ <-]. Qed.
Lemma keeps_cwd_exists p : keeps_cwd (os_path_exists p).
Proof. by intros w r w' [= _ <-]. Qed.
Lemma keeps_cwd_system cmd : keeps_cwd (os_system_ cmd).
Proof. by intros w r w' [= _ <-]. Qed.
Lemma keeps_cwd_on_fs f : keeps_cwd (on_fs f).
Proof. intros w r w' H. by destruct (on_fs_effect _ _ _ _ H) as (_ & _ & ? & _). Qed.

Lemma keeps_cwd_bind {A B} (m : M world A) (k : A → M world B) :
  keeps_cwd m → (∀ a, keeps_cwd (k a)) → keeps_cwd (bind m k).
Proof.
  intros Hm Hk w r w' Hr.
  apply bind_inv in Hr as [(a & w1 & Ha & Hr)|[[Ha _]|(e & Ha & _)]].
  - rewrite (Hk _ _ _ _ Hr). by apply (Hm _ _ _ Ha).
  - by apply (Hm _ _ _ Ha).
  - by apply (Hm _ _ _ Ha).
Qed.

Lemma keeps_cwd_try {A} (m : M world A) (h : Exn → M world A) :
  keeps_cwd m → (∀ e, keeps_cwd (h e)) → keeps_cwd (try_except m h).
Proof.
  intros Hm Hh w r w'. unfold try_except.
  destruct (m w) as [[a| |e] w1] eqn:E; intros Hr.
  - injection Hr as _ <-. by apply (Hm _ _ _ E).
  - injection Hr as _ <-. by apply (Hm _ _ _ E).
  - rewrite (Hh _ _ _ _ Hr). by apply (Hm _ _ _ E).
Qed.

Lemma keeps_cwd_when b (m : M world unit) : keeps_cwd m → keeps_cwd (when b m).
Proof. intros Hm. destruct b; [done|apply keeps_cwd_ret]. Qed.

Ltac stay_step :=
  first
    [ apply keeps_cwd_ret | apply keeps_cwd_raise | apply keeps_cwd_return
    | apply keeps_cwd_print | apply keeps_cwd_abspath | apply keeps_cwd_exists
    | apply keeps_cwd_system | apply keeps_cwd_on_fs
    | apply keeps_cwd_when
    | apply keeps_cwd_bind; [|intros ?]
    | apply keeps_cwd_try; [|intros ?]
    | match goal with
      | |- Observe.keeps_cwd (if ?b then _ else _) => destruct b
      | |- Observe.keeps_cwd (match ?x with _ => _ end) => destruct x
      end ].
Ltac stay := repeat stay_step.

Lemma keeps_cwd_gif_to_png in_gif out_dir prefix verbose :
  keeps_cwd (gif_to_png in_gif out_dir prefix verbose).
Proof. unfold gif_to_png, os_makedirs. stay. Qed.

(** One step of a run whose first statement keeps the working directory. *)
Lemma bind_stay {A B} (m : M world A) (k : A → M world B) (w : world) r w' :
  keeps_cwd m → bind m k w = (r, w') →
  (∃ a w1, m w = (Next a, w1) ∧ cwd w1 = cwd w ∧ k a w1 = (r, w'))
  ∨ (cwd w' = cwd w ∧ ∀ b, r ≠ Next b).
Proof.
  intros Hm Hr.
  apply bind_inv in Hr as [(a & w1 & Ha & Hr)|[[Ha ->]|(e & Ha & ->)]].
  - left. exists a, w1. split; [done|]. split; [by apply (Hm _ _ _ Ha) | done].
  - right. split; [by apply (Hm _ _ _ Ha) | done].
  - right. split; [by apply (Hm _ _ _ Ha) | done].
Qed.

(** X12.  [gif_fading] works in a temporary directory and goes back: in
    every run the working directory is the same afterwards, unless going
    back to it is what failed. *)
Theorem gif_fading_restores_working_directory (in_gif out_gif : string) (duration : Z)
    (verbose : bool) (w : world) (r : step unit) (w' : world) :
  gif_fading in_gif out_gif duration verbose w = (r, w') →
  cwd w' = cwd w ∨ ∃ cls, r = Raise (MkExn cls (cwd w)).
Proof.
  intros Hr. unfold gif_fading in Hr.
  rewrite (bind_next _ _ w (cwd w) w) in Hr by done.
  apply bind_stay in Hr as [(p1 & w1 & _ & E1 & Hr)|[E _]]; [|by left|by stay].
  apply bind_stay in Hr as [(p2 & w2 & _ & E2 & Hr)|[E _]];
    [|left; congruence|by stay].
  apply bind_stay in Hr as [([] & w3 & _ & E3 & Hr)|[E _]];
    [|left; congruence|by stay].
  apply bind_stay in Hr as [([] & w4 & _ & E4 & Hr)|[E _]];
    [|left; congruence|by stay].
  apply bind_stay in Hr as [(p5 & w5 & _ & E5 & Hr)|[E _]];
    [|left; congruence|by stay].
  apply bind_stay in Hr as [(b6 & w6 & _ & E6 & Hr)|[E _]];
    [|left; congruence|by stay].
  apply bind_stay in Hr as [([] & w7 & _ & E7 & Hr)|[E _]];
    [|left; congruence|unfold os_makedirs; by stay].
  apply bind_stay in Hr as [(b8 & w8 & _ & E8 & Hr)|[E _]];
    [|left; congruence|by stay].
  apply bind_stay in Hr as [([] & w9 & _ & E9 & Hr)|[E _]];
    [|left; congruence|by stay].
  cbv zeta in Hr.
  apply bind_stay in Hr as [(b10 & w10 & _ & E10 & Hr)|[E _]];
    [|left; congruence|by stay].
  apply bind_stay in Hr as [([] & w11 & _ & E11 & Hr)|[E _]];
    [|left; congruence|by stay].
  apply bind_stay in Hr as [([] & w12 & _ & E12 & Hr)|[E _]];
    [|left; congruence|apply keeps_cwd_gif_to_png].
  (* into the temporary directory *)
  apply bind_inv in Hr as [([] & w13 & Hcd & Hr)|[[Hcd ->]|(e & Hcd & ->)]].
  2:{ unfold os_chdir in Hcd. by destruct (lookup_path _ _) as [[| |]|]. }
  2:{ left. unfold os_chdir in Hcd.
      destruct (lookup_path _ _) as [[| |]|]; try done; injection Hcd as _ <-; congruence. }
  clear Hcd.
  rewrite (bind_next _ _ w13 _ w13) in Hr by done.
  cbv zeta in Hr.
  apply bind_inv in Hr as [([] & w14 & _ & Hr)|[[[=] _]|(e & [=] & _)]].
  apply bind_inv in Hr as [([] & w15 & _ & Hr)|[[Hrm ->]|(e & Hrm & ->)]].
  2:{ unfold try_except in Hrm. destruct (on_fs _ _) as [[[]| |?] ?] eqn:Eo; try done.
      by destruct (on_fs_effect _ _ _ _ Eo) as (_ & _ & _ & ? & _). }
  2:{ unfold try_except in Hrm. by destruct (on_fs _ _) as [[[]| |?] ?]. }
  (* and back *)
  unfold os_chdir in Hr.
  destruct (lookup_path (cwd w) w15) as [[| |]|]; injection Hr as <- <-; eauto.
Qed.

(** X13.  [gif_to_png] runs ffmpeg at most once, and only after its
    checks: the path has no space, the file exists, [out_dir] is [None] or a
    string.  Once the command has run the function completes, whatever the
    command did. *)
Theorem gif_to_png_checks_before_running (in_gif : string) (out_dir : val)
    (prefix : string) (verbose : bool) (w : world) (r : step unit) (w' : world) :
  gif_to_png in_gif out_dir prefix verbose w = (r, w') →
  let p := abspath (cwd w) in_gif in
  ∃ new, calls w' = calls w ++ new
    ∧ (new = [] ∧ r ≠ Next tt
       ∨ ∃ cmd, new = [CSystem cmd]
           ∧ contains_char " " p = false
           ∧ is_Some (lookup_path p w)
           ∧ (out_dir = VNone ∨ ∃ s, out_dir = VStr s)
           ∧ r = Next tt).
Proof.
  intros Hr p. unfold gif_to_png in Hr.
  rewrite (bind_next _ _ w p w) in Hr by done.
  assert (∀ w0 : world, calls w0 = calls w → r ≠ Next tt →
            w0 = w' →
            ∃ new, calls w' = calls w ++ new
              ∧ (new = [] ∧ r ≠ Next tt
                 ∨ ∃ cmd, new = [CSystem cmd]
                     ∧ contains_char " " p = false
                     ∧ is_Some (lookup_path p w)
                     ∧ (out_dir = VNone ∨ ∃ s, out_dir = VStr s)
                     ∧ r = Next tt)) as Hstop.
  { intros w0 E Hn <-. exists []. rewrite app_nil_r. split; [done|]. by left. }
  destruct (contains_char " " p) eqn:Esp.
  { cbn in Hr. injection Hr as <- <-. by apply (Hstop w). }
  cbn [when] in Hr. rewrite (bind_next _ _ w tt w) in Hr by done.
  rewrite (bind_next _ _ w _ w) in Hr by done.
  destruct (bool_decide (is_Some (lookup_path p w))) eqn:Eex.
  2:{ cbn in Hr. injection Hr as <- <-. by apply (Hstop w). }
  apply bool_decide_eq_true_1 in Eex.
  cbn [negb when] in Hr. rewrite (bind_next _ _ w tt w) in Hr by done.
  cbv zeta in Hr.
  apply bind_inv in Hr as [(dir & w1 & Hdir & Hr)|[[Hdir ->]|(e & Hdir & ->)]].
  - assert (calls w1 = calls w ∧ (out_dir = VNone ∨ ∃ s, out_dir = VStr s)) as [E1 Hty].
    { destruct out_dir; try done.
      - split; [|by left]. revert Hdir. apply (silent_bind _ _); [apply silent_exists|].
        intros has. unfold os_makedirs. quiet.
      - split; [|right; eauto]. revert Hdir. apply (silent_bind _ _); [apply silent_exists|].
        intros has. unfold os_makedirs. quiet. }
    rewrite (bind_next _ _ w1 _ w1) in Hr by done.
    apply bind_inv in Hr as [([] & w2 & Hcmd & Hr)|[[[=] _]|(e & [=] & _)]].
    injection Hcmd as <-.
    assert (r = Next tt ∧ calls w' = calls w1 ++ [CSystem
              ("ffmpeg -loglevel error -i " +:+ p +:+ " -vsync 0 "
                 +:+ abspath (cwd w1) dir +:+ "/" +:+ prefix +:+ "%d.png")]) as [-> E2].
    { destruct verbose; by injection Hr as <- <-. }
    eexists. rewrite E2, E1. split; [done|]. right. eauto 10.
  - apply (Hstop w'); [|done..].
    destruct out_dir; try done; revert Hdir;
      (apply (silent_bind _ _); [apply silent_exists|]); intros has;
      unfold os_makedirs; quiet.
  - apply (Hstop w'); [|done..].
    destruct out_dir; try (by injection Hdir as _ <-); revert Hdir;
      (apply (silent_bind _ _); [apply silent_exists|]); intros has;
      unfold os_makedirs; quiet.
Qed.

(** X14.  [merge_gifs] never raises.  Its one error, an argument that is
    neither a list nor a directory, is printed under the hint that gifsicle
    is not installed, and no command is run; in every other case the
    command runs and the function completes. *)
Theorem merge_gifs_never_raises (in_gifs : Images) (out_gif : string) (w : world)
    (r : step unit) (w' : world) :
  merge_gifs in_gifs out_gif w = (r, w') →
  r = Next tt
  ∧ ((∃ p, in_gifs = ImagesPath p ∧ lookup_path p w ≠ Some Dir
         ∧ w' = prints "in_gifs must be a list." (prints msg_no_gifsicle w))
     ∨ (∃ files,
          (in_gifs = ImagesList files
           ∨ ∃ d, in_gifs = ImagesPath d ∧ lookup_path d w = Some Dir
                  ∧ files = glob (path_join d "*.gif") (cwd w) (fs w))
          ∧ calls w' = calls w ++ [CSystem ("gifsicle " +:+ join " " files +:+ " > " +:+ out_gif)]
          ∧ stdout w' = stdout w)).
Proof.
  unfold merge_gifs, try_except, bind, os_path_isdir, os_system_, print.
  destruct in_gifs as [p|l].
  - destruct (lookup_path p w) as [[| |]|] eqn:Ep; intros [= <- <-];
      (split; [done|]);
      try (left; exists p; split; [done|]; split; [by rewrite Ep|done]).
    right. eexists. split; [right; eauto|]. done.
  - intros [= <- <-]. split; [done|]. right. exists l. split; [by left|done].
Qed.

End behaviour.
End EncoderBehaviour.

(** ** More on the Earth Engine queries *)

Module EEBehaviour.
Import Py Py.Notations EE EEFacts.

Section behaviour.
Context {Raster Region Features Feature Geometry Color Reducer : Type}
  {platform : Platform Raster Region Features Feature Geometry Color Reducer}.

Local Abbreviation image := (Image Raster).



(** X16.  A reducer name the client library does not know is reported
    and raised again as a plain [Exception] carrying the same text. *)
Theorem unknown_reducer_is_reported_and_raised
    (c : list image) (start_date end_date : string) (region : option Region)
    (bands : option (list string)) (frequency reducer : string) (drop_empty : bool)
    (date_fmt : option string) (parallel_scale step : Z) (out : list string) (e : Exn) :
  is_Some bands ∨ c ≠ [] →
  is_Some date_fmt ∨ frequency ∈ frequencies →
  reducer_named reducer = inl e →
  create_timeseries (IsCollection c) start_date end_date region bands frequency reducer
    drop_empty date_fmt parallel_scale step out
  = (Raise (MkExn "Exception" (exn_str e)), out ++ [msg_bad_reducer]).
Proof.
  intros Hb Hf Hr.
  assert (∃ fmt, match date_fmt with
                 | Some f => ret f
                 | None => match feq_dict !! frequency with
                           | Some f => ret f
                           | None => raise (MkExn "KeyError" frequency)
                           end
                 end out = (Next fmt, out)) as [fmt Hfmt].
  { destruct date_fmt as [f|]; [by eexists|].
    destruct Hf as [[? [=]]|Hf]. destruct (feq_dict_frequencies _ Hf) as [f ->]. by eexists. }
  unfold create_timeseries, bind, try_except, lift, print, ret, raise in *.
  destruct bands as [b|].
  - rewrite Hfmt, Hr. done.
  - destruct Hb as [[? [=]]|Hc]. destruct c as [|first c]; [done|].
    rewrite Hfmt, Hr. done.
Qed.

(** *** [add_overlay] *)

(** X17.  The names of the public boundary assets are matched without
    regard to case: [add_overlay(col, "Countries")] is
    [add_overlay(col, ee.FeatureCollection("users/giswqs/public/countries"))]. *)
Theorem public_asset_names_ignore_case
    (collection : CollectionArg Raster) (s : string) (color : val) (width : Z)
    (opacity : val) (region : option Region) (out : list string) (fc : Features) :
  lower s ∈ public_assets →
  feature_collection ("users/giswqs/public/" +:+ lower s) = inr fc →
  add_overlay collection (OStr s) color width opacity region out
  = add_overlay collection (OFeatureCollection fc) color width opacity region out.
Proof.
  intros Hs Hfc. unfold add_overlay. destruct collection as [c| |]; [|done..].
  unfold bind at 1 3. unfold overlay_features, try_except, lift.
  rewrite (bool_decide_eq_true_2 _ Hs), Hfc. done.
Qed.

(** X18.  What [add_overlay] does with arguments it cannot use.  A
    collection that is not an [ee.ImageCollection] is refused before the
    overlay is looked at; an overlay of another type is refused; an asset
    or url that cannot be loaded, and a colour that cannot be read, are
    reported on the console and raised again as a plain [Exception]. *)
Theorem add_overlay_reports_bad_arguments
    (overlay_data : Overlay Features Feature Geometry) (color : val) (width : Z)
    (opacity : val) (region : option Region) (out : list string) :
  (∀ collection, (∀ c, collection ≠ IsCollection c) →
     add_overlay collection overlay_data color width opacity region out
     = (Raise (MkExn "Exception" msg_bad_collection), out))
  ∧ (∀ c, add_overlay (IsCollection c) OOther color width opacity region out
          = (Raise (MkExn "Exception" msg_bad_overlay), out))
  ∧ (∀ c s e,
       (if bool_decide (lower s ∈ public_assets)
        then feature_collection ("users/giswqs/public/" +:+ lower s)
        else if startswith "http" s && endswith ".geojson" s then geojson_to_ee s
        else feature_collection s) = inl e →
       add_overlay (IsCollection c) (OStr s) color width opacity region out
       = (Raise (MkExn "Exception" (exn_str e)), out ++ [msg_bad_overlay_print]))
  ∧ (∀ c fc e,
       overlay_features overlay_data out = (Next fc, out) →
       check_color color = inl e →
       add_overlay (IsCollection c) overlay_data color width opacity region out
       = (Raise (MkExn "Exception" (exn_str e)), out ++ [msg_overlay_error])).
Proof.
  split; [|split; [|split]].
  - intros collection Hc. destruct collection as [c| |]; [by destruct (Hc c)|done..].
  - done.
  - intros c s e He. unfold add_overlay, bind, overlay_features, try_except, lift, print, raise.
    destruct (bool_decide (lower s ∈ public_assets)).
    + by rewrite He.
    + destruct (startswith "http" s && endswith ".geojson" s); by rewrite He.
  - intros c fc e Hfc He. unfold add_overlay, bind, try_except, lift, print, raise.
    by rewrite Hfc, He.
Qed.

End behaviour.
End EEBehaviour.

(** ** More on the frame names *)

Module FramesBehaviour.
Import Py PyFacts Frames FramesFacts.

Lemma string_compare_refl (s : string) : String.compare s s = Eq.
Proof. pose proof (String.compare_antisym s s) as H. by destruct (String.compare s s). Qed.

(** X19.  The thumbnail names of [create_timelapse] are pairwise
    distinct, so no frame is written over another. *)
Theorem frame_names_are_distinct (out_dir basename : string) (count : Z) :
  NoDup (names out_dir basename count).
Proof.
  apply NoDup_alt. intros i j x.
  unfold names, range, range2. rewrite <- list_fmap_compose, !list_lookup_fmap.
  destruct (seq 0 (Z.to_nat (count - 0)) !! i) as [i'|] eqn:Ei; [|done].
  destruct (seq 0 (Z.to_nat (count - 0)) !! j) as [j'|] eqn:Ej; [|done].
  apply lookup_seq in Ei as [-> Hi], Ej as [-> Hj].
  simpl. intros [= <-] [= Heq].
  destruct (path_join_prefix out_dir basename) as [P HP].
  rewrite !HP in Heq.
  assert (0 <= count) by lia.
  pose proof (str_bound count ltac:(lia)) as Hc.
  rewrite !zfill_str in Heq by lia.
  rewrite <- !fixed_go_app in Heq.
  assert (∀ k : nat, (k < Z.to_nat (count - 0))%nat →
    (Z.to_N (0 + Z.of_nat k + 1) < 10 ^ N.of_nat (Z.to_nat (len (str count))))%N) as Hlt.
  { intros k Hk. apply N2Z.inj_lt. rewrite N2Z.inj_pow, nat_N_Z.
    rewrite Z2Nat.id by (unfold len; lia). simpl Z.of_N at 2.
    rewrite Z2N.id by lia. lia. }
  apply (f_equal (λ s, String.compare s
           (P +:+ fixed_go (Z.to_nat (len (str count))) (Z.to_N (0 + Z.of_nat i + 1)) ".jpg")))
    in Heq.
  rewrite string_compare_refl, compare_app_prefix in Heq.
  rewrite fixed_go_compare in Heq by (apply Hlt; lia).
  destruct (N.compare_spec (Z.to_N (0 + Z.of_nat j + 1)) (Z.to_N (0 + Z.of_nat i + 1)))
    as [E|E|E]; [lia|done..].
Qed.

End FramesBehaviour.

(** ** Sample points *)

Module GeoFacts.
Import Py Geo.

Lemma finite_cases x :
  is_finite x = true →
  (∃ s, Prim2SF x = S754_zero s) ∨ (∃ s m e, Prim2SF x = S754_finite s m e).
Proof.
  unfold is_finite, is_nan, is_infinity. intros H.
  rewrite !FloatAxioms.eqb_spec, FloatAxioms.abs_spec in H.
  destruct (Prim2SF x) as [s|s| |s m e]; [eauto| | |eauto 10].
  - by rewrite orb_true_r in H.
  - done.
Qed.

(** The difference of a finite double and itself is zero. *)
Lemma sub_self_is_zero x : is_finite x = true → (x - x =? 0)%float = true.
Proof.
  intros Hx. rewrite FloatAxioms.eqb_spec, FloatAxioms.sub_spec.
  destruct (finite_cases x Hx) as [[s ->]|(s & m & e & ->)].
  - by destruct s.
  - unfold SF64sub, SFsub.
    set (a := cond_Zopp s (Z.pos (shl_align m e (Z.min e e)).1)).
    by replace (a - a) with 0 by lia.
Qed.

(** X20.  [get_pixel_coordinates_from_geo] clamps: whenever it returns,
    the pixel lies within the frame, also for a point outside the region. A
    region of zero width or height makes it raise [ZeroDivisionError]. *)
Theorem sample_pixel_is_clamped_to_the_frame (lon lat : float) (roi_bounds : list float)
    (gif_width gif_height : Z) :
  1 <= gif_width → 1 <= gif_height →
  (∀ x y, get_pixel_coordinates_from_geo lon lat roi_bounds gif_width gif_height = inr (x, y) →
     0 <= x <= gif_width - 1 ∧ 0 <= y <= gif_height - 1)
  ∧ (∀ min_lon min_lat max_lat,
       roi_bounds = [min_lon; min_lat; min_lon; max_lat] → is_finite min_lon = true →
       get_pixel_coordinates_from_geo lon lat roi_bounds gif_width gif_height
       = inl (MkExn "ZeroDivisionError" "float division by zero"))
  ∧ (∀ min_lon min_lat max_lon q,
       roi_bounds = [min_lon; min_lat; max_lon; min_lat] → is_finite min_lat = true →
       scaled_pixel (lon - min_lon) (max_lon - min_lon) gif_width = inr q →
       get_pixel_coordinates_from_geo lon lat roi_bounds gif_width gif_height
       = inl (MkExn "ZeroDivisionError" "float division by zero")).
Proof.
  intros HW HH. split; [|split].
  - intros x y. unfold get_pixel_coordinates_from_geo.
    destruct roi_bounds as [|a [|b [|c [|d [|]]]]]; try done.
    destruct (scaled_pixel _ _ gif_width) as [e|px]; [done|].
    destruct (scaled_pixel _ _ gif_height) as [e|py]; [done|].
    intros [= <- <-]. lia.
  - intros min_lon min_lat max_lat -> Hfin.
    unfold get_pixel_coordinates_from_geo, scaled_pixel, float_truediv.
    by rewrite (sub_self_is_zero _ Hfin).
  - intros min_lon min_lat max_lon q -> Hfin Hq.
    unfold get_pixel_coordinates_from_geo. rewrite Hq.
    unfold scaled_pixel, float_truediv.
    by rewrite (sub_self_is_zero _ Hfin).
Qed.

End GeoFacts.

(** ** [reduce_gif_size] *)

Module ReduceFacts.
Import Py Py.Notations Host Reduce GifFacts.

Section facts.
Context {Frame Font Color : Type} {platform : Platform Frame Font Color}
  {ffmpeg : FfmpegPython Frame}.

Local Abbreviation world := (World Frame).

(** The run up to the choice of the output, when nothing stops it. *)
Lemma reduce_in_place (in_gif : string) (w : world) :
  import_ffmpeg = inr tt → is_tool "ffmpeg" = true → is_Some (lookup_path in_gif w) →
  reduce_gif_size in_gif None w
  = (let tmp_gif := replace ".gif" "_tmp.gif" in_gif in
     shutil_copyfile in_gif tmp_gif ;;;
     run_ffmpeg tmp_gif in_gif ;;;
     on_fs (remove tmp_gif)) w.
Proof.
  intros Himp Htool Hin. unfold reduce_gif_size.
  rewrite (bind_next _ _ w tt w) by (by rewrite Himp).
  rewrite Htool. cbn [negb when]. rewrite (bind_next _ _ w tt w) by done.
  rewrite (bind_next _ _ w true w)
    by (unfold os_path_exists; by rewrite (bool_decide_eq_true_2 _ Hin)).
  cbn [negb when]. rewrite (bind_next _ _ w tt w) by done.
  rewrite (bind_next _ _ w in_gif w) by done.
  by rewrite bool_decide_eq_true_2.
Qed.

(** X21.  [reduce_gif_size] in place needs ".gif" in the path: the
    temporary copy is named by replacing ".gif", so for a path without it
    (an upper-case extension, say) the copy is the file itself, and
    [shutil.copyfile] raises [SameFileError] before ffmpeg is run. *)
Theorem reduce_in_place_needs_gif_in_the_path (in_gif : string) (w : world) :
  import_ffmpeg = inr tt → is_tool "ffmpeg" = true → is_Some (lookup_path in_gif w) →
  replace ".gif" "_tmp.gif" in_gif = in_gif →
  reduce_gif_size in_gif None w
  = (Raise (MkExn "SameFileError"
              ("'" +:+ in_gif +:+ "' and '" +:+ in_gif +:+ "' are the same file")), w).
Proof.
  intros Himp Htool Hin Hsame. rewrite reduce_in_place by done.
  cbv zeta. rewrite Hsame. unfold bind, shutil_copyfile.
  destruct Hin as [f ->]. by rewrite bool_decide_eq_true_2.
Qed.


(** X23.  Without the ffmpeg program, or without the input file,
    [reduce_gif_size] prints why and returns: nothing is copied, run or
    removed, and no directory is made. *)
Theorem reduce_gif_size_returns_early (in_gif : string) (out_gif : option string)
    (w : world) :
  import_ffmpeg = inr tt →
  (is_tool "ffmpeg" = false →
     reduce_gif_size in_gif out_gif w = (Return, prints msg_no_ffmpeg w))
  ∧ (is_tool "ffmpeg" = true → lookup_path in_gif w = None →
       reduce_gif_size in_gif out_gif w = (Return, prints msg_no_gif w)).
Proof.
  intros Himp. unfold reduce_gif_size.
  rewrite (bind_next _ _ w tt w) by (by rewrite Himp). split.
  - intros ->. done.
  - intros -> Hno. cbn [negb when]. rewrite (bind_next _ _ w tt w) by done.
    unfold bind, os_path_exists. rewrite Hno. done.
Qed.

End facts.
End ReduceFacts.

(** ** The visualization parameters *)

Module VisFacts.
Import Py Vis.

Section facts.
Context {api : Api}.

Lemma has_insert key v (d : gmap string val) : has key (<[key := v]> d) = true.
Proof. unfold has. apply bool_decide_eq_true_2. rewrite lookup_insert_eq. eauto. Qed.

Lemma has_insert_ne key key' v (d : gmap string val) :
  key ≠ key' → has key (<[key' := v]> d) = has key d.
Proof. intros. unfold has. by rewrite lookup_insert_ne. Qed.

Lemma has_delete key (d : gmap string val) : has key (delete key d) = false.
Proof. unfold has. apply bool_decide_eq_false_2. rewrite lookup_delete_eq. by intros [? [=]]. Qed.

Lemma has_delete_ne key key' (d : gmap string val) :
  key ≠ key' → has key (delete key' d) = has key d.
Proof. intros. unfold has. by rewrite lookup_delete_ne. Qed.

Lemma has_empty key : has key (∅ : gmap string val) = false.
Proof. unfold has. apply bool_decide_eq_false_2. rewrite lookup_empty. by intros [? [=]]. Qed.

Ltac has_simpl :=
  repeat first
    [ rewrite has_insert | rewrite has_delete | rewrite has_empty
    | rewrite has_insert_ne by done | rewrite has_delete_ne by done ].

Ltac vis_cases :=
  repeat match goal with
  | |- context [and_then ?x _] =>
      let E := fresh "E" in destruct x eqn:E; cbn [and_then]; try done
  | |- context [if ?b then _ else _] =>
      let E := fresh "E" in destruct b eqn:E; cbn [negb andb orb]
  | |- context [match ?x with inl _ => _ | inr _ => _ end] =>
      let E := fresh "E" in destruct x eqn:E; try done
  end.

Lemma has_lookup key (d : gmap string val) v : d !! key = Some v → has key d = true.
Proof. intros H. unfold has. apply bool_decide_eq_true_2. eauto. Qed.

(** X24.  The visualization parameters handed to Earth Engine always
    name the bands, a minimum and a maximum; what the caller's dict says
    about these three is kept. *)
Theorem vis_params_are_completed (bands : list val) (palette : val) (vis_params : VisArg)
    (d : gmap string val) :
  resolve_vis_params bands palette vis_params = inr d →
  has "bands" d = true ∧ has "min" d = true ∧ has "max" d = true
  ∧ ∀ given key v, vis_params = VisDict given → key ∈ ["bands"; "min"; "max"] →
      given !! key = Some v → d !! key = Some v.
Proof.
  unfold resolve_vis_params, and_then. destruct vis_params as [|given|]; [| |done].
  - destruct (min_value bands) as [?|lo]; [done|].
    destruct (max_value bands) as [?|hi]; [done|].
    intros [= <-]. split; [|split; [|split]]; [..|done];
      repeat case_match; by has_simpl.
  - intros H.
    assert (∀ key, key ∈ ["bands"; "min"; "max"] →
              has key d = true ∧ ∀ v, given !! key = Some v → d !! key = Some v) as Hkeys.
    { intros key Hkey.
      assert (key = "bands" ∨ key = "min" ∨ key = "max") as Hk.
      { repeat (apply elem_of_cons in Hkey as [Hkey|Hkey]; [by auto|]).
        by apply elem_of_nil in Hkey. }
      clear Hkey. revert H.
      destruct (has "bands" given) eqn:Hb; cbn [negb].
      all: destruct (has "min" _) eqn:Hmin; cbn [negb].
      all: try (destruct (min_value bands) as [?|lo]; [done|]).
      all: destruct (has "max" _) eqn:Hmax; cbn [negb].
      all: try (destruct (max_value bands) as [?|hi]; [done|]).
      all: repeat match goal with
           | |- context [if ?b then _ else _] => destruct b
           end.
      all: intros [= <-].
      all: split;
        [ destruct Hk as [-> | [-> | ->]]; has_simpl; try done;
          repeat match goal with H : has _ _ = _ |- _ => revert H end; has_simpl; congruence
        | intros v Hv; pose proof (has_lookup _ _ _ Hv) as Hh;
          destruct Hk as [-> | [-> | ->]];
          repeat match goal with H : has _ _ = _ |- _ => revert H end; has_simpl;
          intros; simplify_map_eq; try done; congruence ]. }
    split; [apply Hkeys; repeat constructor|]. split; [apply Hkeys; repeat constructor|].
    split; [apply Hkeys; repeat constructor|].
    intros given' key v [= <-] Hkey. by apply Hkeys.
Qed.

(** A palette is there with one band, and not there with more. *)
Lemma palette_by_band_count (bands : list val) (palette : val)
    (vis_params : VisArg) (d : gmap string val) :
  resolve_vis_params bands palette vis_params = inr d →
  (length bands = 1%nat → has "palette" d = true)
  ∧ ((1 < length bands)%nat → has "palette" d = false).
Proof.
  unfold resolve_vis_params, and_then, len_list.
  destruct vis_params as [|given|]; [| |done].
  - destruct (min_value bands) as [?|lo]; [done|].
    destruct (max_value bands) as [?|hi]; [done|].
    destruct (Z.eqb_spec (Z.of_nat (length bands)) 1) as [E|E].
    + intros [= <-]. split; [|lia]. intros _. case_match; by has_simpl.
    + intros [= <-]. split; [lia|]. intros _. by has_simpl.
  - set (d1 := if negb (has "bands" given) then _ else given).
    destruct (if negb (has "min" d1) then _ else _) as [?|d2]; [done|].
    destruct (if negb (has "max" d2) then _ else _) as [?|d3]; [done|].
    destruct (Z.eqb_spec (Z.of_nat (length bands)) 1) as [E|E];
      destruct (Z.ltb_spec 1 (Z.of_nat (length bands))) as [L|L]; try lia.
    + rewrite andb_true_r, andb_false_l.
      intros [= <-]. split; [|lia]. intros _.
      destruct (is_none palette); cbn [negb andb];
        destruct (has "palette" d3) eqn:Hp; cbn [negb andb]; by has_simpl.
    + rewrite andb_false_r, andb_true_l. cbn [andb].
      intros H. split; [lia|]. intros _. revert H.
      destruct (negb (is_none palette) && negb (has "palette" d3)) eqn:Hc.
      * has_simpl. intros [= <-]. by has_simpl.
      * destruct (has "palette" d3) eqn:Hp; intros [= <-]; by has_simpl.
Qed.

Lemma video_bands_rgb (bands : list val) (d : gmap string val) :
  (length bands = 1%nat → has "palette" d = true) → bands ≠ [] →
  video_bands d bands = ["vis-red"; "vis-green"; "vis-blue"].
Proof.
  intros H1 Hne. unfold video_bands, len_list.
  destruct bands as [|b [|b' bs]]; [done| |].
  - rewrite H1 by done. done.
  - destruct (Z.ltb_spec 1 (Z.of_nat (length (b :: b' :: bs)))) as [L|L];
      [|cbn [length] in L; lia].
    by rewrite orb_true_r.
Qed.

(** X25.  With exactly one band the parameters always carry a palette
    (the caller's, or [ndvi]); with two or more bands they never do, a
    palette in the caller's dict being deleted.  So the video is rendered in
    gray only when there is no band at all and no palette. *)
Theorem palette_goes_with_a_single_band (bands : list val) (palette : val)
    (vis_params : VisArg) (d : gmap string val) :
  resolve_vis_params bands palette vis_params = inr d →
  (length bands = 1%nat → has "palette" d = true)
  ∧ ((1 < length bands)%nat → has "palette" d = false)
  ∧ (bands ≠ [] → video_bands d bands = ["vis-red"; "vis-green"; "vis-blue"]).
Proof.
  intros H. destruct (palette_by_band_count _ _ _ _ H) as [H1 H2].
  split; [done|]. split; [done|]. by apply video_bands_rgb.
Qed.

(** X26.  When the caller names no bands, an image with three or more
    bands is rendered from its first three in reverse order and a palette
    argument is dropped without a word; an image with one or two bands is
    rendered from its first band alone, with a palette. *)
Theorem palette_is_dropped_for_default_bands (names : list string) (palette : val)
    (vis_params : VisArg) (bands : list val) (d : gmap string val) :
  first_band_names = inr names →
  visualization VNone palette vis_params = inr (bands, d) →
  ((3 <= length names)%nat →
     bands = VStr <$> reverse (take 3 names) ∧ has "palette" d = false)
  ∧ ((length names < 3)%nat →
     (∃ first, names !! 0%nat = Some first ∧ bands = [VStr first])
     ∧ has "palette" d = true)
  ∧ video_bands d bands = ["vis-red"; "vis-green"; "vis-blue"].
Proof.
  unfold visualization, resolve_bands, and_then, len_list. intros ->.
  destruct (Z.ltb_spec (Z.of_nat (length names)) 3) as [L|L].
  - destruct names as [|first names]; [done|].
    destruct (resolve_palette palette) as [?|p]; [done|].
    destruct (resolve_vis_params [VStr first] p vis_params) as [?|d'] eqn:E; [done|].
    intros [= <- <-]. destruct (palette_by_band_count _ _ _ _ E) as [H1 _].
    split; [intros; lia|]. split; [|by apply video_bands_rgb].
    intros _. split; [by exists first|by apply H1].
  - destruct (resolve_palette palette) as [?|p]; [done|].
    destruct (resolve_vis_params _ p vis_params) as [?|d'] eqn:E; [done|].
    intros [= <- <-]. destruct (palette_by_band_count _ _ _ _ E) as [H1 H2].
    assert (length (VStr <$> reverse (take 3 names)) = 3%nat) as Hlen
      by (rewrite length_fmap, length_reverse, length_take; lia).
    split; [|split; [intros; lia|]].
    + intros _. split; [done|]. apply H2. lia.
    + apply video_bands_rgb; [lia|]. intros Hnil. by rewrite Hnil in Hlen.
Qed.

End facts.
End VisFacts.

(** ** Runs on the concrete collaborators *)

Module GifBehaviourRuns.
Import Py Host Gif Observe GifFacts GifBehaviour Demo DemoMore.

Lemma annotated_gif_keeps_frame_count_witness :
  saves (calls (add_text_to_gif (text_args (VTuple [VInt 10; VInt 10]))
                  (world0 (blank_gif 100 50 2))).2) = []
  ∨ saves (calls (add_text_to_gif (text_args (VTuple [VInt 10; VInt 10]))
                    (world0 (blank_gif 100 50 2))).2) = [("/data/out.gif", 2%nat)].
Proof.
  destruct (annotated_gif_keeps_frame_count (platform := platform)) as (Htext & _ & _).
  eassert (prelude (text_args (VTuple [VInt 10; VInt 10])) (world0 (blank_gif 100 50 2))
           = (Next _, _)) as Hpre by (vm_compute; reflexivity).
  destruct (Htext _ _ _ _ _ _ Hpre (surjective_pairing _)) as (new & Hcalls & Hsaves).
  cbn [calls world0 app] in Hcalls. rewrite Hcalls. exact Hsaves.
Defined.

Lemma frame_labels_witness :
  ∃ t,
    texts (calls (add_text_to_gif (text_args (VTuple [VInt 10; VInt 10]))
                    (world0 (blank_gif 100 50 2))).2) !! 1%nat = Some t
    ∧ t = str 2.
Proof.
  eassert (prelude (text_args (VTuple [VInt 10; VInt 10])) (world0 (blank_gif 100 50 2))
           = (Next _, _)) as Hpre by (vm_compute; reflexivity).
  destruct (frame_labels (text_args (VTuple [VInt 10; VInt 10]))
              (world0 (blank_gif 100 50 2)) _ _ _ _ _ Hpre (surjective_pairing _) eq_refl)
    as [Hnone _].
  assert (texts (calls (add_text_to_gif (text_args (VTuple [VInt 10; VInt 10]))
                          (world0 (blank_gif 100 50 2))).2) !! 1%nat = Some "2")
    as Hlabel by (vm_compute; reflexivity).
  exists "2". split; [exact Hlabel | exact (Hnone eq_refl 1%nat "2" Hlabel)].
Defined.

Lemma missing_input_gif_is_reported_witness :
  add_progress_bar_to_gif "/data/none.gif" "/data/out.gif" (VStr "white") 5 (VInt 100)
    (VInt 0) (world0 (blank_gif 100 50 2))
  = (Return, prints msg_no_gif (world0 (blank_gif 100 50 2))).
Proof.
  destruct (missing_input_gif_is_reported (world0 (blank_gif 100 50 2)) "/data/none.gif")
    as (_ & Hbar & _); [vm_compute; reflexivity|].
  apply Hbar.
Defined.

Lemma progress_bar_completes_only_when_saved_witness :
  ∃ saved,
    lookup_path "/data/out.gif"
      (add_progress_bar_to_gif "/data/in.gif" "/data/out.gif" (VStr "white") 5 (VInt 100)
         (VInt 0) (world0 (blank_gif 100 50 2))).2 = Some (Img saved).
Proof.
  destruct (progress_bar_completes_only_when_saved "/data/in.gif" "/data/out.gif"
              (VStr "white") 5 (VInt 100) (VInt 0) (world0 (blank_gif 100 50 2))
              (add_progress_bar_to_gif "/data/in.gif" "/data/out.gif" (VStr "white") 5
                 (VInt 100) (VInt 0) (world0 (blank_gif 100 50 2))).2)
    as (out & col' & im & w1 & fr & saved & new & Hpre & _ & _ & _ & _ & Hfile).
  - vm_compute. reflexivity.
  - exists saved. vm_compute in Hpre. injection Hpre as <- _ _ _. exact Hfile.
Defined.

Lemma unreadable_logo_raises_attribute_error_witness :
  add_image_to_gif "/data/in.gif" "/data/out.gif" "/data/logo.png"
    (VTuple [VInt 10; VInt 10]) (80, 80) false album
  = (Raise (MkExn "AttributeError" "'NoneType' object has no attribute 'size'"),
     prints "/data/logo.png" album).
Proof.
  apply (unreadable_logo_raises_attribute_error "/data/in.gif" "/data/out.gif"
           "/data/logo.png" (VTuple [VInt 10; VInt 10]) (80, 80) false album
           (blank_gif 101 50 2) "/data" (MkExn "UnidentifiedImageError" "/data/logo.png")).
  - vm_compute. reflexivity.
  - vm_compute. reflexivity.
  - vm_compute. eauto.
  - vm_compute. reflexivity.
  - vm_compute. eauto.
  - vm_compute. reflexivity.
Defined.

Lemma percent_up_to_100_is_within_the_frame_witness :
  ∃ x, percent_to_pixels "100%" 640 = inr x ∧ 0 <= x <= 640.
Proof.
  destruct (percent_up_to_100_is_within_the_frame "100%" 640 (float_of_int 100)
              (100 * unit_scale)) as (x & Hx & Hin & _).
  - vm_compute. reflexivity.
  - apply Binary64Facts.float_of_int_value. lia.
  - vm_compute. split; discriminate.
  - lia.
  - exists x. split; [exact Hx | exact Hin].
Defined.

End GifBehaviourRuns.

Module EncoderBehaviourRuns.
Import Py Host Encoders Observe GifFacts EncoderBehaviour Demo DemoMore.


Lemma make_gif_rejects_empty_input_witness :
  make_gif (ImagesPath "/data/a.png") "/data/out.gif" "png" 10 (VInt 0) false false album
  = (Raise (MkExn "ValueError" "images must be a list or a path to the image directory."),
     album).
Proof.
  destruct (make_gif_rejects_empty_input "/data/out.gif" "png" 10 (VInt 0) false false album)
    as (_ & _ & Hfile).
  apply Hfile. vm_compute. discriminate.
Defined.

Lemma make_gif_without_ffmpeg_keeps_images_witness :
  stdout (make_gif (ImagesList ["/data/a.png"; "/data/b.png"]) "/data/out.gif" "png" 10
            (VInt 0) true true album).2
  = [msg_no_ffmpeg].
Proof.
  destruct (make_gif_without_ffmpeg_keeps_images (platform := platform)
              (ImagesList ["/data/a.png"; "/data/b.png"]) "/data/out.gif" "png" 10 (VInt 0)
              true album _ _ eq_refl (surjective_pairing _))
    as (_ & _ & new & _ & _ & Hreturns).
  destruct Hreturns as [Hout _]; [vm_compute; reflexivity|].
  exact Hout.
Defined.

Lemma gif_to_mp4_needs_input_and_ffmpeg_witness :
  (gif_to_mp4 "/data/none.gif" "/data/out.mp4" album).1
  = Raise (MkExn "FileNotFoundError" "/data/none.gif does not exist.")
  ∧ (gif_to_mp4 "/data/none.gif" "/data/out.mp4" album).2 = album.
Proof.
  destruct (gif_to_mp4_needs_input_and_ffmpeg "/data/none.gif" "/data/out.mp4" album _ _
              (surjective_pairing _)) as [Hmissing _].
  apply Hmissing. vm_compute. reflexivity.
Defined.

Lemma gif_to_mp4_encodes_at_even_size_witness :
  calls (gif_to_mp4 (platform := host true) "/data/in.gif" "/data/out.mp4" album).2
  = [CSystem ("ffmpeg -loglevel error -i /data/in.gif -vf scale=102:50"
                +:+ " -vcodec libx264 -crf 25 -pix_fmt yuv420p /data/out.mp4")].
Proof.
  edestruct (gif_to_mp4_encodes_at_even_size (platform := host true) "/data/in.gif"
               "/data/out.mp4" album (blank_gif 101 50 2) 101 50)
    as (_ & _ & _ & _ & Hcalls).
  - reflexivity.
  - vm_compute. reflexivity.
  - reflexivity.
  - vm_compute. eauto.
  - apply surjective_pairing.
  - rewrite Hcalls. vm_compute. reflexivity.
Defined.

Lemma gif_fading_restores_working_directory_witness :
  cwd (gif_fading "/data/in.gif" "/data/out.gif" 1 false album).2 = cwd album
  ∨ ∃ cls, (gif_fading "/data/in.gif" "/data/out.gif" 1 false album).1
           = Raise (MkExn cls (cwd album)).
Proof.
  exact (gif_fading_restores_working_directory "/data/in.gif" "/data/out.gif" 1 false album
           _ _ (surjective_pairing _)).
Defined.

Lemma gif_to_png_checks_before_running_witness :
  ∃ new,
    calls (gif_to_png (platform := host true) "/data/in.gif" VNone "" false album).2
    = calls album ++ new
    ∧ (new = [] ∨ ∃ cmd, new = [CSystem cmd]).
Proof.
  destruct (gif_to_png_checks_before_running (platform := host true) "/data/in.gif" VNone ""
              false album _ _ (surjective_pairing _)) as (new & Hcalls & Hnew).
  exists new. split; [exact Hcalls|].
  destruct Hnew as [[-> _]|(cmd & -> & _)]; [by left|right; by exists cmd].
Defined.

Lemma merge_gifs_never_raises_witness :
  (merge_gifs (ImagesPath "/data/a.png") "/data/out.gif" album).1 = Next tt.
Proof.
  destruct (merge_gifs_never_raises (ImagesPath "/data/a.png") "/data/out.gif" album _ _
              (surjective_pairing _)) as [Hdone _].
  exact Hdone.
Defined.

End EncoderBehaviourRuns.

Module EEBehaviourRuns.
Import Py EE EEFacts EEBehaviour DemoEE DemoReducers.


Lemma unknown_reducer_is_reported_and_raised_witness :
  create_timeseries (platform := strict_reducers) (IsCollection scenes) "0" "29" None None
    "month" "mode" false None 1 1 []
  = (Raise (MkExn "Exception" "type object 'Reducer' has no attribute 'mode'"),
     [msg_bad_reducer]).
Proof.
  apply (unknown_reducer_is_reported_and_raised (platform := strict_reducers) scenes
           "0" "29" None None "month" "mode" false None 1 1 []
           (MkExn "AttributeError" "type object 'Reducer' has no attribute 'mode'")).
  - right. discriminate.
  - right. apply (bool_decide_unpack _). vm_compute. exact I.
  - vm_compute. reflexivity.
Defined.

Lemma public_asset_names_ignore_case_witness :
  add_overlay (IsCollection scenes) (OStr "Countries") (VStr "black") 1 (VObj "1.0") None []
  = add_overlay (IsCollection scenes) (OFeatureCollection "users/giswqs/public/countries")
      (VStr "black") 1 (VObj "1.0") None [].
Proof.
  apply (public_asset_names_ignore_case (platform := platform)).
  - apply (bool_decide_unpack _). vm_compute. exact I.
  - vm_compute. reflexivity.
Defined.

Lemma add_overlay_reports_bad_arguments_witness :
  add_overlay (platform := platform) NotCollection (OStr "countries") (VStr "black") 1
    (VObj "1.0") None []
  = (Raise (MkExn "Exception" msg_bad_collection), []).
Proof.
  destruct (add_overlay_reports_bad_arguments (platform := platform) (OStr "countries")
              (VStr "black") 1 (VObj "1.0") None []) as [Hcol _].
  apply Hcol. discriminate.
Defined.

End EEBehaviourRuns.

Module GeoRuns.
Import Py Geo GeoFacts.

Lemma sample_pixel_is_clamped_to_the_frame_witness :
  ∃ x y,
    get_pixel_coordinates_from_geo (float_of_int 200) (float_of_int 5)
      [float_of_int 0; float_of_int 0; float_of_int 10; float_of_int 10] 100 50
    = inr (x, y)
    ∧ 0 <= x <= 99 ∧ 0 <= y <= 49.
Proof.
  destruct (sample_pixel_is_clamped_to_the_frame (float_of_int 200) (float_of_int 5)
              [float_of_int 0; float_of_int 0; float_of_int 10; float_of_int 10] 100 50)
    as [Hclamp _]; [lia | lia |].
  assert (get_pixel_coordinates_from_geo (float_of_int 200) (float_of_int 5)
            [float_of_int 0; float_of_int 0; float_of_int 10; float_of_int 10] 100 50
          = inr (99, 25)) as E by (vm_compute; reflexivity).
  exists 99, 25. split; [exact E | exact (Hclamp _ _ E)].
Defined.

End GeoRuns.

Module ReduceRuns.
Import Py Host Reduce ReduceFacts Demo DemoMore.

Lemma reduce_in_place_needs_gif_in_the_path_witness :
  reduce_gif_size (platform := host true) "/data/IN.GIF" None album
  = (Raise (MkExn "SameFileError" "'/data/IN.GIF' and '/data/IN.GIF' are the same file"),
     album).
Proof.
  apply (reduce_in_place_needs_gif_in_the_path (platform := host true) "/data/IN.GIF" album).
  - reflexivity.
  - reflexivity.
  - vm_compute. eauto.
  - vm_compute. reflexivity.
Defined.


Lemma reduce_gif_size_returns_early_witness :
  reduce_gif_size (platform := host false) "/data/in.gif" None album
  = (Return, prints msg_no_ffmpeg album).
Proof.
  destruct (reduce_gif_size_returns_early (platform := host false) "/data/in.gif" None album)
    as [Htool _]; [reflexivity|].
  apply Htool. reflexivity.
Defined.

End ReduceRuns.

Module VisRuns.
Import Py Vis VisFacts DemoMore.

Lemma vis_params_are_completed_witness :
  ∃ d, resolve_vis_params [VStr "B1"] VNone (VisDict (<["min" := VInt 5]> ∅)) = inr d
    ∧ has "bands" d = true ∧ has "max" d = true ∧ d !! "min" = Some (VInt 5).
Proof.
  assert (resolve_vis_params [VStr "B1"] VNone (VisDict (<["min" := VInt 5]> ∅))
          = inr (<["palette" := ndvi]>
                   (<["max" := VInt 255]>
                      (<["bands" := VList [VStr "B1"]]> (<["min" := VInt 5]> ∅)))))
    as E by (vm_compute; reflexivity).
  destruct (vis_params_are_completed _ _ _ _ E) as (Hb & _ & Hmax & Hkept).
  eexists. split; [exact E|]. split; [exact Hb|]. split; [exact Hmax|].
  apply (Hkept (<["min" := VInt 5]> ∅) "min" (VInt 5) eq_refl).
  - apply (bool_decide_unpack _). vm_compute. exact I.
  - reflexivity.
Defined.

Lemma palette_goes_with_a_single_band_witness :
  ∃ d, resolve_vis_params [VStr "B3"; VStr "B2"; VStr "B1"] (VList [VStr "red"])
         (VisDict (<["palette" := VList [VStr "blue"]]> ∅)) = inr d
    ∧ has "palette" d = false.
Proof.
  assert (resolve_vis_params [VStr "B3"; VStr "B2"; VStr "B1"] (VList [VStr "red"])
            (VisDict (<["palette" := VList [VStr "blue"]]> ∅))
          = inr (delete "palette"
                   (<["max" := VInt 255]>
                      (<["min" := VInt 0]>
                         (<["bands" := VList [VStr "B3"; VStr "B2"; VStr "B1"]]>
                            (<["palette" := VList [VStr "blue"]]> ∅))))))
    as E by (vm_compute; reflexivity).
  destruct (palette_goes_with_a_single_band _ _ _ _ E) as (_ & Hmany & _).
  eexists. split; [exact E|]. apply Hmany. simpl. lia.
Defined.

Lemma palette_is_dropped_for_default_bands_witness :
  ∃ d, visualization VNone (VStr "viridis") VisNone
       = inr ([VStr "B3"; VStr "B2"; VStr "B1"], d)
    ∧ has "palette" d = false.
Proof.
  assert (visualization VNone (VStr "viridis") VisNone
          = inr ([VStr "B3"; VStr "B2"; VStr "B1"],
                 <["max" := VInt 255]>
                   (<["min" := VInt 0]>
                      (<["bands" := VList [VStr "B3"; VStr "B2"; VStr "B1"]]> ∅))))
    as E by (vm_compute; reflexivity).
  destruct (palette_is_dropped_for_default_bands (api := vis_api) ["B1"; "B2"; "B3"; "B4"]
              _ _ _ _ eq_refl E) as (Hthree & _ & _).
  destruct Hthree as [Hbands Hpal]; [simpl; lia|].
  eexists. split; [exact E | exact Hpal].
Defined.

End VisRuns.
